(** * wl_plotter: water-level comparison and tidal-constituent statistics

    A shallow embedding of [wl_plotter.py].  Floating-point values are
    idealised: hours are exact rationals, water levels, amplitudes and
    phases are exact reals.  Timestamps are integers (nanoseconds, as in a
    pandas [DatetimeIndex]). *)

From Stdlib Require Import Reals Lra Lia QArith ZArith List Sorted.
From stdpp Require Import gmap strings list.

(** * Constituent selection ([MINHOURS], the head of [tidal_analysis]) *)

Module Catalog.

Local Open Scope Z_scope.

(** Minimum number of hours in a timeseries needed to differentiate
    tidal constituents from each other (the dict literal [MINHOURS]). *)
Definition MINHOURS_items : list (string * Z) :=
    [ ("M2", 12); ("M4", 12); ("M6", 12); ("M8", 12);
      ("K1", 27);
      ("S6", 118);
      ("2MK3", 329); ("MK3", 329); ("O1", 329); ("OO1", 329);
      ("2Q1", 332);
      ("2SM2", 356); ("MS4", 356); ("S2", 356); ("S4", 356);
      ("M1", 656); ("M3", 656);
      ("J1", 663); ("MN4", 663); ("N2", 663); ("Q1", 663);
      ("L2", 764); ("MM", 764); ("MU2", 764);
      ("K2", 4383); ("MF", 4383); ("MSF", 4383); ("P1", 4383);
      ("2N2", 4942); ("LAMBDA2", 4942); ("NU2", 4942); ("RHO1", 4942) ]%string.

Definition MINHOURS : gmap string Z := list_to_map MINHOURS_items.
Global Opaque MINHOURS.

(** Python truth value of an [int]. *)
Definition truthy (n : Z) : bool := negb (n =? 0).

(** [thrs >= n] for a float [thrs] and an int [n]. *)
Definition ge_int (thrs : Q) (n : Z) : bool := Qle_bool (inject_Z n) thrs.

(** [DatetimeIndex.to_pydatetime], one timestamp: a [datetime] counts
    microseconds, and the nanoseconds below the last microsecond are
    dropped. *)
Definition to_pydatetime (ns : Z) : Z := ns / 1000.

(** [thrs = (t[-1] - t[0]).total_seconds() / 3600] for an index of
    nanosecond timestamps, with [t = index.to_pydatetime()]: both ends
    are cut to the microsecond before they are subtracted, and the
    division is exact; [None] is the [IndexError] of an empty index. *)
Definition record_hours (index : list Z) : option Q :=
  match to_pydatetime <$> index with
  | [] => None
  | t0 :: t =>
      Some (inject_Z (List.last t t0 - t0) / inject_Z (3600 * 1000000))%Q
  end.

(** The [for c in noaa_constituents] loop of [tidal_analysis];
    a constituent is represented by its name [str(c)]. *)
Fixpoint select_loop (thrs : Q) (cs _constituents : list string) : list string :=
  match cs with
  | [] => _constituents
  | c :: cs' =>
      let minh := MINHOURS !! c in
      if match minh with Some m => truthy m && ge_int thrs m | None => false end
      then select_loop thrs cs' (_constituents ++ [c])
      else if match minh with None => ge_int thrs (24 * 366) | Some _ => false end
      then select_loop thrs cs' (_constituents ++ [c])
      else select_loop thrs cs' _constituents
  end.

Section Selection.

(** The catalog [pytides.constituent.noaa], which lives outside this
    repository: any list of constituent names. *)
Variable noaa_constituents : list string.

Definition constituents_for (thrs : Q) : list string :=
  select_loop thrs noaa_constituents [].

(** The constituents [tidal_analysis] solves for, from the index of the
    aligned frame. *)
Definition tidal_analysis_constituents (index : list Z) : option (list string) :=
  thrs ← record_hours index; Some (constituents_for thrs).

End Selection.

(** The two conditions of the loop as one predicate on a name. *)
Definition selected (thrs : Q) (c : string) : bool :=
  match MINHOURS !! c with
  | Some m => truthy m && ge_int thrs m
  | None => ge_int thrs (24 * 366)
  end.

Lemma select_loop_filter thrs cs acc :
  select_loop thrs cs acc = acc ++ List.filter (selected thrs) cs.
Proof.
  revert acc. induction cs as [|c cs IH]; intros acc; simpl.
  - by rewrite app_nil_r.
  - assert (Hs : selected thrs c =
      match MINHOURS !! c with
      | Some m => truthy m && ge_int thrs m
      | None => ge_int thrs (24 * 366)
      end) by reflexivity.
    rewrite Hs; clear Hs. destruct (MINHOURS !! c) as [m|]; simpl.
    + destruct (truthy m && ge_int thrs m); rewrite IH; [|done].
      by rewrite <- app_assoc.
    + destruct (ge_int thrs _); rewrite IH; [|done].
      by rewrite <- app_assoc.
Qed.

(** The length of the record is measured between the two ends cut to
    the microsecond: a record of 12 hours less one nanosecond counts as
    12 hours when its first timestamp ends just below a microsecond. *)
Example record_hours_microseconds :
  (∃ thrs, record_hours [999; 12 * 3600 * 1000000000 + 998] = Some thrs
           ∧ (thrs == inject_Z 12)%Q)
  ∧ 12 * 3600 * 1000000000 + 998 - 999 < 12 * 3600 * 1000000000.
Proof. split; [|lia]. eexists. split; [reflexivity|]. by vm_compute. Qed.

(** No threshold of the table is zero, so [if minh] only tests presence. *)
Lemma MINHOURS_bounds c m : MINHOURS !! c = Some m → 12 <= m <= 4942.
Proof.
  intros H. Transparent MINHOURS. unfold MINHOURS in H. Opaque MINHOURS.
  apply elem_of_list_to_map_2 in H.
  assert (HF : Forall (λ p : string * Z, 12 <= p.2 <= 4942) MINHOURS_items)
    by (repeat constructor; simpl; lia).
  rewrite Forall_forall in HF. exact (HF (c, m) H).
Qed.

Lemma ge_int_spec thrs n : ge_int thrs n = true ↔ (inject_Z n <= thrs)%Q.
Proof. apply Qle_bool_iff. Qed.

Lemma selected_spec thrs c :
  selected thrs c = true ↔
    (∃ m, MINHOURS !! c = Some m ∧ (inject_Z m <= thrs)%Q)
    ∨ (MINHOURS !! c = None ∧ (inject_Z (24 * 366) <= thrs)%Q).
Proof.
  unfold selected. destruct (MINHOURS !! c) as [m|] eqn:E.
  - assert (Hm : truthy m = true).
    { apply MINHOURS_bounds in E. unfold truthy.
      destruct (Z.eqb_spec m 0); [lia | done]. }
    rewrite Hm; simpl; rewrite ge_int_spec. split.
    + intros H. left. by exists m.
    + intros [(m' & Hm' & H) | [? _]]; congruence.
  - rewrite ge_int_spec. split.
    + intros H. by right.
    + intros [(m' & Hm' & _) | [_ H]]; [congruence | done].
Qed.

(** The selection keeps the catalog order: it is the catalog filtered. *)
Lemma constituents_for_filter noaa thrs :
  constituents_for noaa thrs = List.filter (selected thrs) noaa.
Proof. unfold constituents_for. by rewrite select_loop_filter. Qed.

Lemma elem_of_constituents_for noaa thrs c :
  c ∈ constituents_for noaa thrs ↔ c ∈ noaa ∧ selected thrs c = true.
Proof.
  rewrite constituents_for_filter, !list_elem_of_In. apply filter_In.
Qed.

(** C4: for every duration [d] (hours) the selection consists exactly of
    the catalog constituents whose declared threshold is at most [d],
    plus, from [24*366] hours on, those without a declared threshold;
    the latter are excluded below [24*366] hours; the selection is a
    total function and is empty below every threshold. *)
Theorem constituent_selection_exact (noaa : list string) (d : Q) :
  (∀ c, c ∈ constituents_for noaa d ↔
        c ∈ noaa ∧
        ((∃ m, MINHOURS !! c = Some m ∧ (inject_Z m <= d)%Q)
         ∨ (MINHOURS !! c = None ∧ (inject_Z (24 * 366) <= d)%Q)))
  ∧ (∀ c, (d < inject_Z (24 * 366))%Q → MINHOURS !! c = None →
          c ∉ constituents_for noaa d)
  ∧ ((d < inject_Z 12)%Q → constituents_for noaa d = []).
Proof.
  split; [|split].
  - intros c. by rewrite elem_of_constituents_for, selected_spec.
  - intros c Hd Hc. rewrite elem_of_constituents_for, selected_spec.
    intros [_ [(m & Hm & _) | [_ H]]]; [congruence|].
    apply (Qlt_not_le _ _ Hd H).
  - intros Hd. rewrite constituents_for_filter.
    induction noaa as [|c cs IH]; [done|]. simpl.
    destruct (selected d c) eqn:E; [|done].
    exfalso. apply selected_spec in E as [(m & Hm & H) | [_ H]].
    + apply MINHOURS_bounds in Hm. apply (Qlt_not_le _ _ Hd).
      apply Qle_trans with (inject_Z m); [|done].
      rewrite <- Zle_Qle. lia.
    + apply (Qlt_not_le _ _ Hd). apply Qle_trans with (inject_Z (24 * 366)); [|done].
      rewrite <- Zle_Qle. lia.
Qed.

(** C5: the selection is monotone in the record duration. *)
Theorem constituent_selection_monotone (noaa : list string) (hours1 hours2 : Q) :
  (hours1 <= hours2)%Q →
  constituents_for noaa hours1 ⊆ constituents_for noaa hours2.
Proof.
  intros Hle c. rewrite !elem_of_constituents_for, !selected_spec.
  intros [Hc [(m & Hm & H) | [Hn H]]]; split; try done.
  - left. exists m. split; [done|]. by apply Qle_trans with hours1.
  - right. split; [done|]. by apply Qle_trans with hours1.
Qed.

Example selection_short_record :
  constituents_for ["M2"; "S2"; "K1"; "SA"; "K2"]%string (inject_Z 100)
  = ["M2"; "K1"]%string.
Proof. vm_compute. reflexivity. Qed.

Example selection_long_record :
  constituents_for ["M2"; "S2"; "K1"; "SA"; "K2"]%string (inject_Z 9000)
  = ["M2"; "S2"; "K1"; "SA"; "K2"]%string.
Proof. vm_compute. reflexivity. Qed.

Lemma constituent_selection_monotone_witness :
  (inject_Z 100 <= inject_Z 9000)%Q ∧
  constituents_for ["M2"; "S2"; "K1"; "SA"; "K2"]%string (inject_Z 100)
  ⊆ constituents_for ["M2"; "S2"; "K1"; "SA"; "K2"]%string (inject_Z 9000).
Proof.
  split.
  - vm_compute. discriminate.
  - apply constituent_selection_monotone. vm_compute. discriminate.
Defined.

(** ** Further properties of the selection *)

Lemma filter_all {A} (f : A → bool) (l : list A) :
  (∀ x, x ∈ l → f x = true) → List.filter f l = l.
Proof.
  induction l as [|a l IH]; intros H; [done|]. simpl.
  rewrite (H a) by left. f_equal. apply IH. intros x Hx. apply H. by right.
Qed.

Lemma filter_sublist {A} (f : A → bool) (l : list A) : List.filter f l `sublist_of` l.
Proof.
  induction l as [|a l IH]; [constructor|]. simpl.
  destruct (f a); by constructor.
Qed.

(** X1: from one year of record on, every constituent of the catalog is
    selected, with or without a declared threshold, whatever the catalog. *)
Theorem full_year_selects_catalog (noaa : list string) (d : Q) :
  (inject_Z (24 * 366) <= d)%Q → constituents_for noaa d = noaa.
Proof.
  intros Hd. rewrite constituents_for_filter. apply filter_all.
  intros c _. apply selected_spec.
  destruct (MINHOURS !! c) as [m|] eqn:E; [left | by right].
  exists m. split; [done|]. apply MINHOURS_bounds in E.
  apply Qle_trans with (inject_Z (24 * 366)); [|done].
  rewrite <- Zle_Qle. lia.
Qed.

Lemma full_year_selects_catalog_witness :
  (inject_Z (24 * 366) <= inject_Z 9000)%Q
  ∧ constituents_for ["M2"; "SA"; "K2"; "M2"]%string (inject_Z 9000)
    = ["M2"; "SA"; "K2"; "M2"]%string.
Proof.
  assert (H : (inject_Z (24 * 366) <= inject_Z 9000)%Q)
    by (vm_compute; discriminate).
  split; [exact H|]. exact (full_year_selects_catalog _ _ H).
Defined.

(** X2: the selection is the catalog with some entries left out: the
    order of the catalog is kept, and nothing is added or repeated. *)
Theorem selection_sublist (noaa : list string) (d : Q) :
  constituents_for noaa d `sublist_of` noaa.
Proof. rewrite constituents_for_filter. apply filter_sublist. Qed.

End Catalog.

(** * Real-valued columns *)

Module Num.

Local Open Scope R_scope.

#[export] Instance R_eq_dec : EqDecision R := Req_dec_T.
#[export] Instance R_lt_dec : RelDecision Rlt := Rlt_dec.
#[export] Instance R_gt_dec : RelDecision Rgt := Rgt_dec.

(** A column of finite floats (a pandas [Series] without missing cells). *)
Abbreviation column := (list R).

(** [np.sum] / [Series.sum]; the sum of an empty column is [0]. *)
Definition fsum (xs : column) : R := foldr Rplus 0 xs.

(** Float division whose result is used as a number: [None] stands for
    the non-finite value ([nan] or [inf]) numpy yields on a zero divisor. *)
Definition fdiv (x y : R) : option R :=
  if decide (y = 0) then None else Some (x / y).

(** [Series.mean]: [nan] on an empty column. *)
Definition mean (xs : column) : option R := fdiv (fsum xs) (INR (length xs)).

(** Elementwise arithmetic of two columns that share their index. *)
Definition ssub (xs ys : column) : column := zip_with Rminus xs ys.
Definition sadd (xs ys : column) : column := zip_with Rplus xs ys.
Definition smul (xs ys : column) : column := zip_with Rmult xs ys.

(** [np.square], [np.abs], [np.sqrt] and a scalar on the right. *)
Definition square (xs : column) : column := (λ x, x * x) <$> xs.
Definition sabs (xs : column) : column := Rabs <$> xs.
Definition ssqrt (xs : column) : column := sqrt <$> xs.
Definition sub_scalar (xs : column) (c : R) : column := (λ x, x - c) <$> xs.
Definition div_scalar (xs : column) (c : R) : column := (λ x, x / c) <$> xs.

(** [Series.max] and [Series.min]: [nan] on an empty column. *)
Definition smax (xs : column) : option R :=
  match xs with [] => None | x :: xs' => Some (foldr Rmax x xs') end.
Definition smin (xs : column) : option R :=
  match xs with [] => None | x :: xs' => Some (foldr Rmin x xs') end.

Lemma fsum_nil : fsum [] = 0.
Proof. reflexivity. Qed.

Lemma fsum_cons x xs : fsum (x :: xs) = x + fsum xs.
Proof. reflexivity. Qed.

#[global] Arguments fsum : simpl never.
#[global] Arguments mean : simpl never.
#[global] Arguments fdiv : simpl never.

Lemma fdiv_Some x y : y ≠ 0 → fdiv x y = Some (x / y).
Proof. intros H. unfold fdiv. by destruct (decide (y = 0)). Qed.

Lemma fdiv_None x y : fdiv x y = None ↔ y = 0.
Proof. unfold fdiv. destruct (decide (y = 0)); naive_solver. Qed.

Lemma INR_length_ne_0 {A} (l : list A) : l ≠ [] → INR (length l) ≠ 0.
Proof.
  destruct l; [done|]. intros _. apply not_0_INR. simpl. lia.
Qed.

Lemma mean_Some xs : xs ≠ [] → mean xs = Some (fsum xs / INR (length xs)).
Proof. intros H. apply fdiv_Some. by apply INR_length_ne_0. Qed.

Lemma mean_None xs : mean xs = None ↔ xs = [].
Proof.
  unfold mean. rewrite fdiv_None. split.
  - destruct xs; [done|]. intros H. by apply INR_length_ne_0 in H.
  - by intros ->.
Qed.

Lemma ssub_diag xs : ssub xs xs = (λ _, 0) <$> xs.
Proof.
  unfold ssub. rewrite zip_with_diag. apply list_fmap_ext.
  intros _ x _. lra.
Qed.

Lemma fsum_zeros {A} (l : list A) : fsum ((λ _, 0) <$> l) = 0.
Proof.
  induction l as [|a l IH]; [done|]. rewrite fmap_cons, fsum_cons, IH. lra.
Qed.

Lemma fsum_square_nonneg xs : 0 <= fsum (square xs).
Proof.
  unfold square. induction xs as [|x xs IH]; [rewrite fmap_nil, fsum_nil; lra|].
  rewrite fmap_cons, fsum_cons. nra.
Qed.

(** A sum of squares vanishes only when every term does. *)
Lemma fsum_square_pos xs x : x ∈ xs → x ≠ 0 → 0 < fsum (square xs).
Proof.
  induction 1 as [x xs | x y xs _ IH]; intros Hx;
    unfold square in *; rewrite fmap_cons, fsum_cons.
  - pose proof (fsum_square_nonneg xs) as H. unfold square in H. nra.
  - specialize (IH Hx). nra.
Qed.

Lemma fsum_sub_scalar xs c :
  fsum (sub_scalar xs c) = fsum xs - INR (length xs) * c.
Proof.
  induction xs as [|x xs IH];
    [unfold sub_scalar; rewrite fmap_nil, !fsum_nil; simpl; lra|].
  unfold sub_scalar in *. rewrite fmap_cons, !fsum_cons, IH, length_cons, S_INR.
  lra.
Qed.

Lemma smax_ge xs m x : smax xs = Some m → x ∈ xs → x <= m.
Proof.
  destruct xs as [|x0 xs]; [done|]. intros [= <-].
  induction xs as [|y ys IH]; simpl.
  - intros ->%list_elem_of_singleton. lra.
  - intros Hx. pose proof (Rmax_l y (foldr Rmax x0 ys)).
    pose proof (Rmax_r y (foldr Rmax x0 ys)).
    apply elem_of_cons in Hx as [-> | Hx].
    + assert (x0 <= foldr Rmax x0 ys) by (apply IH; left). lra.
    + apply elem_of_cons in Hx as [-> | Hx]; [lra|].
      assert (x <= foldr Rmax x0 ys) by (apply IH; by right). lra.
Qed.

Lemma smin_le xs m x : smin xs = Some m → x ∈ xs → m <= x.
Proof.
  destruct xs as [|x0 xs]; [done|]. intros [= <-].
  induction xs as [|y ys IH]; simpl.
  - intros ->%list_elem_of_singleton. lra.
  - intros Hx. pose proof (Rmin_l y (foldr Rmin x0 ys)).
    pose proof (Rmin_r y (foldr Rmin x0 ys)).
    apply elem_of_cons in Hx as [-> | Hx].
    + assert (foldr Rmin x0 ys <= x0) by (apply IH; left). lra.
    + apply elem_of_cons in Hx as [-> | Hx]; [lra|].
      assert (foldr Rmin x0 ys <= x) by (apply IH; by right). lra.
Qed.

Lemma fmap_ne_nil {A B} (f : A → B) (l : list A) : l ≠ [] → f <$> l ≠ [].
Proof. by destruct l. Qed.

Lemma mean_zeros {A} (l : list A) : l ≠ [] → mean ((λ _, 0) <$> l) = Some 0.
Proof.
  intros H. rewrite mean_Some by by apply fmap_ne_nil.
  rewrite fsum_zeros. f_equal. unfold Rdiv. apply Rmult_0_l.
Qed.

Lemma square_zeros {A} (l : list A) :
  square ((λ _, 0) <$> l) = (λ _, 0) <$> l.
Proof.
  unfold square. rewrite <- list_fmap_compose. apply list_fmap_ext.
  intros _ x _. simpl. lra.
Qed.

(** Dot product of a column scaled by [1/c] with itself. *)
Lemma fsum_smul_div_diag xs c :
  c ≠ 0 →
  fsum (smul (div_scalar xs c) (div_scalar xs c)) = fsum (square xs) / (c * c).
Proof.
  intros Hc. unfold smul, div_scalar, square. rewrite zip_with_diag.
  induction xs as [|x xs IH].
  - rewrite !fmap_nil, !fsum_nil. unfold Rdiv. by rewrite Rmult_0_l.
  - rewrite !fmap_cons, !fsum_cons, IH. by field.
Qed.

Lemma smax_smin_distinct xs a b :
  a ∈ xs → b ∈ xs → a ≠ b → ∃ mx mn, smax xs = Some mx ∧ smin xs = Some mn ∧ mx - mn ≠ 0.
Proof.
  intros Ha Hb Hab. destruct xs as [|x0 xs]; [by apply elem_of_nil in Ha|].
  eexists _, _. split; [done|]. split; [done|].
  pose proof (smax_ge (x0 :: xs) _ a eq_refl Ha).
  pose proof (smax_ge (x0 :: xs) _ b eq_refl Hb).
  pose proof (smin_le (x0 :: xs) _ a eq_refl Ha).
  pose proof (smin_le (x0 :: xs) _ b eq_refl Hb).
  lra.
Qed.

End Num.

(** * Pointwise statistics ([TSData]) *)

Module Stats.

Import Num.
Local Open Scope R_scope.

(** A row of the joined frame: its timestamp and the two channels. *)
Record row := Row { time : Z; model : R; observation : R }.

(** The dataclass [TSData]; [datum] is the correspondence table's entry. *)
Record TSData := mkTSData {
  datum : option string;
  station_id : string;
  data : list row;
  bias_correct : bool
}.

Definition col_model (df : list row) : column := model <$> df.
Definition col_observation (df : list row) : column := observation <$> df.

(** [TSData.__init__]: the frame is copied, and with [bias_correct] the
    observation column of the copy is shifted by the mean difference.
    The mean is [nan] only for a frame without rows, whose observation
    column has no cell to change. *)
Definition TSData_init (datum : option string) (station_id : string)
    (data : list row) (bias_correct : bool) : TSData :=
  let copy := data in
  mkTSData datum station_id
    (if bias_correct then
       match mean (ssub (col_model data) (col_observation data)) with
       | Some b => (λ r, Row (time r) (model r) (observation r + b)) <$> copy
       | None => copy
       end
     else copy)
    bias_correct.

Definition predicted (d : TSData) : column := col_model (data d).
Definition observed (d : TSData) : column := col_observation (data d).

Definition bias (d : TSData) : option R :=
  mean (ssub (predicted d) (observed d)).

Definition rmse (d : TSData) : option R :=
  sqrt <$> mean (square (ssub (predicted d) (observed d))).

Definition skill (d : TSData) : option R :=
  let n := fsum (square (ssub (predicted d) (observed d))) in
  om ← mean (observed d);
  let d' := sadd (sabs (sub_scalar (predicted d) om))
                 (sabs (sub_scalar (observed d) om)) in
  let d' := fsum (square d') in
  q ← fdiv n d';
  Some (1 - q).

(** [Series.std] (sample standard deviation, [ddof=1]). *)
Definition std (xs : column) : option R :=
  m ← mean xs;
  v ← fdiv (fsum (square (sub_scalar xs m))) (INR (length xs) - 1);
  Some (sqrt v).

(** Scalar division of a column, undefined on a zero divisor. *)
Definition div_by (xs : column) (c : R) : option column :=
  if decide (c = 0) then None else Some (div_scalar xs c).

Definition r (d : TSData) : option R :=
  pm ← mean (predicted d); ps ← std (predicted d);
  r1 ← div_by (sub_scalar (predicted d) pm) ps;
  om ← mean (observed d); os ← std (observed d);
  r2 ← div_by (sub_scalar (observed d) om) os;
  k ← fdiv 1 (INR (length (data d)) - 1);
  Some (k * fsum (smul r1 r2)).

(** [scipy.stats.pearsonr], first component of its result, after the
    library's definition: fewer than two samples raise, a constant input
    yields [nan] (both [None] here); otherwise both inputs are centred and
    normalised, their dot product is taken and clipped to [[-1, 1]]. *)
Definition pearsonr (x y : column) : option R :=
  if bool_decide (length x < 2)%nat then None
  else if bool_decide (Forall (λ v, v = hd 0 x) x)
          || bool_decide (Forall (λ v, v = hd 0 y) y) then None
  else
    xmean ← mean x; ymean ← mean y;
    let xm := sub_scalar x xmean in
    let ym := sub_scalar y ymean in
    let normxm := sqrt (fsum (square xm)) in
    let normym := sqrt (fsum (square ym)) in
    let r := fsum (smul (div_scalar xm normxm) (div_scalar ym normym)) in
    Some (Rmax (Rmin r 1) (-1)).

Definition corr (d : TSData) : option R := pearsonr (predicted d) (observed d).

(** [TSData.range().observation]. *)
Definition range_observation (d : TSData) : option R :=
  mx ← smax (observed d); mn ← smin (observed d); Some (mx - mn).

Definition nrmse (d : TSData) : option R :=
  e ← rmse d; rg ← range_observation d; fdiv (100 * e) rg.

(** ** A perfect model *)

Section Perfect.

Variable d : TSData.
Hypothesis Hperfect : ∀ r, r ∈ data d → model r = observation r.
Hypothesis Hnonconst : ∃ a b, a ∈ observed d ∧ b ∈ observed d ∧ a ≠ b.

Lemma predicted_observed : predicted d = observed d.
Proof.
  apply list_fmap_ext. intros i r Hr. apply Hperfect.
  by eapply list_elem_of_lookup_2.
Qed.

Lemma observed_nonempty : observed d ≠ [].
Proof.
  destruct Hnonconst as (a & b & Ha & _). intros E. rewrite E in Ha.
  by apply elem_of_nil in Ha.
Qed.

Lemma residual_zero :
  ssub (predicted d) (observed d) = (λ _, 0) <$> observed d.
Proof. rewrite predicted_observed. apply ssub_diag. Qed.

(** Some sample differs from any given level, the mean in particular. *)
Lemma observed_off_level (c : R) : ∃ a, a ∈ observed d ∧ a - c ≠ 0.
Proof.
  destruct Hnonconst as (a & b & Ha & Hb & Hab).
  destruct (decide (a = c)) as [->|Hac].
  - exists b. split; [done|]. lra.
  - exists a. split; [done|]. lra.
Qed.

Lemma centred_square_pos (c : R) : 0 < fsum (square (sub_scalar (observed d) c)).
Proof.
  destruct (observed_off_level c) as (a & Ha & Hne).
  apply fsum_square_pos with (a - c); [|done].
  unfold sub_scalar. by apply (list_elem_of_fmap_2 (λ x, x - c)).
Qed.

Lemma observed_length : (2 <= length (observed d))%nat.
Proof.
  destruct Hnonconst as (a & b & Ha & Hb & Hab).
  destruct (observed d) as [|x [|y l]]; simpl; [| |lia].
  - by apply elem_of_nil in Ha.
  - apply list_elem_of_singleton in Ha, Hb. congruence.
Qed.

Lemma perfect_bias : bias d = Some 0.
Proof.
  unfold bias. rewrite residual_zero. apply mean_zeros, observed_nonempty.
Qed.

Lemma perfect_rmse : rmse d = Some 0.
Proof.
  unfold rmse. rewrite residual_zero, square_zeros.
  rewrite mean_zeros by apply observed_nonempty. simpl. by rewrite sqrt_0.
Qed.

Lemma perfect_nrmse : nrmse d = Some 0.
Proof.
  unfold nrmse. rewrite perfect_rmse. simpl.
  destruct Hnonconst as (a & b & Ha & Hb & Hab).
  destruct (smax_smin_distinct _ a b Ha Hb Hab) as (mx & mn & Hmx & Hmn & Hr).
  unfold range_observation. rewrite Hmx, Hmn. simpl.
  rewrite fdiv_Some by done. f_equal. unfold Rdiv. lra.
Qed.

Lemma perfect_skill : skill d = Some 1.
Proof.
  unfold skill. rewrite residual_zero, square_zeros, fsum_zeros.
  rewrite (mean_Some (observed d)) by apply observed_nonempty. simpl.
  rewrite predicted_observed.
  set (om := fsum (observed d) / INR (length (observed d))).
  rewrite fdiv_Some.
  - simpl. f_equal. unfold Rdiv. lra.
  - destruct (observed_off_level om) as (a & Ha & Hne).
    apply Rgt_not_eq, Rlt_gt.
    apply fsum_square_pos with (Rabs (a - om) + Rabs (a - om)).
    + unfold sadd, sabs, sub_scalar. rewrite zip_with_diag, <- !list_fmap_compose.
      by apply (list_elem_of_fmap_2 (λ x, Rabs (x - om) + Rabs (x - om))).
    + pose proof (Rabs_pos_lt _ Hne). lra.
Qed.

Lemma perfect_corr : corr d = Some 1.
Proof.
  unfold corr, pearsonr. rewrite predicted_observed.
  pose proof observed_length as Hlen.
  rewrite bool_decide_eq_false_2 by lia.
  assert (Hc : ¬ Forall (λ v, v = hd 0 (observed d)) (observed d)).
  { rewrite Forall_forall. intros Hall.
    destruct Hnonconst as (a & b & Ha & Hb & Hab).
    apply Hab. by rewrite (Hall a Ha), (Hall b Hb). }
  rewrite (bool_decide_eq_false_2 _ Hc). simpl.
  rewrite (mean_Some (observed d)) by apply observed_nonempty. simpl.
  set (om := fsum (observed d) / INR (length (observed d))).
  pose proof (centred_square_pos om) as HS.
  set (S := fsum (square (sub_scalar (observed d) om))) in *.
  rewrite fsum_smul_div_diag.
  - rewrite sqrt_sqrt by lra. fold S. f_equal.
    assert (HSS : S / S = 1) by (field; lra). rewrite HSS.
    rewrite Rmin_left by lra. rewrite Rmax_left by lra. done.
  - apply Rgt_not_eq, Rlt_gt, sqrt_lt_R0, HS.
Qed.

Lemma perfect_r : r d = Some 1.
Proof.
  unfold r, std. rewrite predicted_observed.
  pose proof observed_length as Hlen.
  assert (Hn : 0 < INR (length (observed d)) - 1).
  { apply le_INR in Hlen. simpl in Hlen. lra. }
  rewrite (mean_Some (observed d)) by apply observed_nonempty. simpl.
  set (om := fsum (observed d) / INR (length (observed d))).
  pose proof (centred_square_pos om) as HS.
  set (S := fsum (square (sub_scalar (observed d) om))) in *.
  rewrite (fdiv_Some S) by lra. simpl.
  assert (Hv : 0 < S / (INR (length (observed d)) - 1))
    by (apply Rdiv_lt_0_compat; lra).
  assert (Hsd : sqrt (S / (INR (length (observed d)) - 1)) ≠ 0)
    by (apply Rgt_not_eq, Rlt_gt, sqrt_lt_R0, Hv).
  unfold div_by. rewrite (decide_False (P := _ = 0)) by done. simpl.
  assert (Hl : length (data d) = length (observed d))
    by (unfold observed, col_observation; by rewrite length_fmap).
  rewrite Hl, fdiv_Some by lra. simpl.
  rewrite fsum_smul_div_diag by done. rewrite sqrt_sqrt by lra.
  fold S. f_equal. field. lra.
Qed.

End Perfect.

(** ** Bias correction *)

Lemma bias_corrected_residual (df : list row) (b : R) :
  ssub (col_model ((λ r, Row (time r) (model r) (observation r + b)) <$> df))
       (col_observation ((λ r, Row (time r) (model r) (observation r + b)) <$> df))
  = sub_scalar (ssub (col_model df) (col_observation df)) b.
Proof.
  unfold ssub, sub_scalar, col_model, col_observation.
  rewrite <- !list_fmap_compose.
  rewrite !zip_with_fmap_l, !zip_with_fmap_r, !zip_with_diag.
  rewrite <- list_fmap_compose. apply list_fmap_ext.
  intros _ r _. simpl. lra.
Qed.

Lemma residual_fmap (df : list row) :
  ssub (col_model df) (col_observation df) = (λ r, model r - observation r) <$> df.
Proof.
  unfold ssub, col_model, col_observation.
  by rewrite zip_with_fmap_l, zip_with_fmap_r, zip_with_diag.
Qed.

(** C6: when the model channel equals the observation channel row by row
    and the observation is not constant, the bias, the RMSE and the
    normalised RMSE are 0, the skill score is 1 and the Pearson
    correlation is 1. *)
Theorem perfect_model_statistics (d : TSData) :
  (∀ r, r ∈ data d → model r = observation r) →
  (∃ a b, a ∈ observed d ∧ b ∈ observed d ∧ a ≠ b) →
  bias d = Some 0 ∧ rmse d = Some 0 ∧ nrmse d = Some 0 ∧
  skill d = Some 1 ∧ corr d = Some 1.
Proof.
  intros Hp Hn. split; [|split; [|split; [|split]]].
  - by apply perfect_bias.
  - by apply perfect_rmse.
  - by apply perfect_nrmse.
  - by apply perfect_skill.
  - by apply perfect_corr.
Qed.

(** The repository's own correlation [TSData.r] agrees on a perfect model. *)
Lemma perfect_model_r (d : TSData) :
  (∀ r, r ∈ data d → model r = observation r) →
  (∃ a b, a ∈ observed d ∧ b ∈ observed d ∧ a ≠ b) →
  r d = Some 1.
Proof. intros Hp Hn. by apply perfect_r. Qed.

(** Hourly samples 1..5, the model identical to the observation. *)
Definition hourly_1_to_5 : list row :=
  [ Row 0 1 1; Row 3600000000000 2 2; Row 7200000000000 3 3;
    Row 10800000000000 4 4; Row 14400000000000 5 5 ].

Lemma perfect_model_statistics_witness :
  let d := TSData_init None "8720218" hourly_1_to_5 false in
  ((∀ r, r ∈ data d → model r = observation r) ∧
   (∃ a b, a ∈ observed d ∧ b ∈ observed d ∧ a ≠ b)) ∧
  bias d = Some 0 ∧ rmse d = Some 0 ∧ nrmse d = Some 0 ∧
  skill d = Some 1 ∧ corr d = Some 1.
Proof.
  intros d.
  assert (H1 : ∀ r, r ∈ data d → model r = observation r).
  { intros r Hr. simpl in Hr.
    repeat (apply elem_of_cons in Hr as [-> | Hr]; [reflexivity|]).
    by apply elem_of_nil in Hr. }
  assert (H2 : ∃ a b, a ∈ observed d ∧ b ∈ observed d ∧ a ≠ b).
  { exists 1, 2. split; [left|]. split; [right; left|]. lra. }
  split; [by split|]. exact (perfect_model_statistics d H1 H2).
Defined.

(** A constant observation leaves the correlation undefined. *)
Lemma constant_observation_corr (d : TSData) :
  Forall (λ v, v = hd 0 (observed d)) (observed d) → corr d = None.
Proof.
  intros H. unfold corr, pearsonr.
  destruct (bool_decide (length (predicted d) < 2)%nat); [done|].
  rewrite (bool_decide_eq_true_2 _ H), orb_true_r. done.
Qed.

(** C10: a pair built with bias correction has bias 0, in exact
    arithmetic: the observation is shifted by the mean difference. *)
Theorem bias_correct_cancels_bias (datum : option string) (station_id : string)
    (df : list row) :
  df ≠ [] → bias (TSData_init datum station_id df true) = Some 0.
Proof.
  intros Hne. unfold bias, predicted, observed, TSData_init. simpl.
  assert (Hres : ssub (col_model df) (col_observation df) ≠ [])
    by (rewrite residual_fmap; by apply fmap_ne_nil).
  rewrite (mean_Some _ Hres), bias_corrected_residual.
  set (res := ssub (col_model df) (col_observation df)) in *.
  assert (Hn : INR (length res) ≠ 0) by by apply INR_length_ne_0.
  rewrite mean_Some by by apply fmap_ne_nil.
  rewrite fsum_sub_scalar. unfold sub_scalar. rewrite length_fmap.
  f_equal. by field.
Qed.

Lemma bias_correct_cancels_bias_witness :
  [Row 0 3 1; Row 1 5 2] ≠ [] ∧
  bias (TSData_init None "8720218" [Row 0 3 1; Row 1 5 2] true) = Some 0.
Proof.
  split; [discriminate|]. apply bias_correct_cancels_bias. discriminate.
Defined.

(** Without rows the bias is undefined ([nan]), corrected or not. *)
Example bias_of_empty_frame (datum : option string) (station_id : string) (b : bool) :
  bias (TSData_init datum station_id [] b) = None.
Proof.
  assert (E : mean [] = None) by by apply mean_None.
  destruct b; unfold bias, TSData_init, predicted, observed; simpl;
    rewrite ?E; simpl; by rewrite ?E.
Qed.

(** ** Further properties of the pointwise statistics *)

Lemma fsum_fmap_le {A} (f g : A → R) (l : list A) :
  (∀ x, x ∈ l → f x <= g x) → fsum (f <$> l) <= fsum (g <$> l).
Proof.
  induction l as [|a l IH]; intros H; [rewrite !fmap_nil, fsum_nil; lra|].
  rewrite !fmap_cons, !fsum_cons.
  assert (f a <= g a) by (apply H; left).
  assert (fsum (f <$> l) <= fsum (g <$> l))
    by (apply IH; intros x Hx; apply H; by right).
  lra.
Qed.

Lemma square_residual (df : list row) :
  square (ssub (col_model df) (col_observation df))
  = (λ r, (model r - observation r) * (model r - observation r)) <$> df.
Proof. rewrite residual_fmap. unfold square. by rewrite <- list_fmap_compose. Qed.

Lemma div_nonneg x y : 0 <= x → 0 < y → 0 <= x / y.
Proof.
  intros Hx Hy. unfold Rdiv. apply Rmult_le_pos; [done|].
  left. by apply Rinv_0_lt_compat.
Qed.

Lemma fsum_square_zero xs : fsum (square xs) = 0 → Forall (λ x, x = 0) xs.
Proof.
  intros H. apply Forall_forall. intros x Hx.
  destruct (decide (x = 0)) as [|Hne]; [done|].
  pose proof (fsum_square_pos xs x Hx Hne). lra.
Qed.

(** X3: the RMSE is never negative, and it is 0 exactly when the model
    equals the observation in every row. *)
Theorem rmse_zero_iff (d : TSData) (e : R) :
  rmse d = Some e →
  0 <= e ∧ (e = 0 ↔ ∀ r, r ∈ data d → model r = observation r).
Proof.
  unfold rmse, predicted, observed. intros H.
  destruct (mean (square (ssub (col_model (data d)) (col_observation (data d)))))
    as [v|] eqn:E; [|done].
  injection H as <-.
  assert (Hne : square (ssub (col_model (data d)) (col_observation (data d))) ≠ []).
  { intros E0. apply mean_None in E0. congruence. }
  rewrite (mean_Some _ Hne) in E. injection E as <-.
  pose proof (fsum_square_nonneg (ssub (col_model (data d)) (col_observation (data d))))
    as HS.
  pose proof (INR_length_ne_0 _ Hne) as Hn.
  assert (Hn' : 0 < INR (length (square (ssub (col_model (data d))
                                             (col_observation (data d)))))).
  { pose proof (pos_INR (length (square (ssub (col_model (data d))
                                            (col_observation (data d)))))). lra. }
  set (n := INR _) in *. set (S := fsum _) in *.
  assert (Hv : 0 <= S / n) by (apply div_nonneg; lra).
  split; [apply sqrt_pos|]. split.
  - intros H0. apply sqrt_eq_0 in H0; [|done].
    assert (HS0 : S = 0).
    { apply (Rmult_eq_compat_r n) in H0. unfold Rdiv in H0.
      rewrite Rmult_assoc, Rinv_l in H0 by done. lra. }
    apply fsum_square_zero in HS0. rewrite residual_fmap in HS0.
    rewrite Forall_fmap, Forall_forall in HS0.
    intros r Hr. specialize (HS0 r Hr). simpl in HS0. lra.
  - intros Heq. assert (HS0 : S = 0).
    { unfold S. rewrite square_residual.
      rewrite (list_fmap_ext _ (λ _, 0) (data d)).
      - apply fsum_zeros.
      - intros i r Hr. simpl. rewrite (Heq r); [lra|].
        by eapply list_elem_of_lookup_2. }
    rewrite HS0. unfold Rdiv. rewrite Rmult_0_l. apply sqrt_0.
Qed.

Lemma rmse_zero_iff_witness :
  let d := TSData_init None "8720218" [Row 0 3 1; Row 1 5 2] false in
  rmse d = Some (sqrt ((4 + 9) / 2))
  ∧ 0 <= sqrt ((4 + 9) / 2)
  ∧ (sqrt ((4 + 9) / 2) = 0 ↔ ∀ r, r ∈ data d → model r = observation r).
Proof.
  intros d.
  assert (H : rmse d = Some (sqrt ((4 + 9) / 2))).
  { unfold rmse, d. simpl. rewrite mean_Some by done. simpl. do 2 f_equal.
    rewrite !fsum_cons, fsum_nil. lra. }
  split; [exact H|]. exact (rmse_zero_iff d _ H).
Defined.

(** X4: the skill score, when it is defined, lies between 0 and 1. *)
Theorem skill_bounds (d : TSData) (s : R) : skill d = Some s → 0 <= s <= 1.
Proof.
  unfold skill, predicted, observed. intros H.
  destruct (mean (col_observation (data d))) as [om|]; [|done]. simpl in H.
  rewrite square_residual in H.
  set (n := fsum _) in H.
  set (dd := fsum _) in H.
  destruct (fdiv n dd) as [q|] eqn:E; [|done]. injection H as <-.
  assert (Hdd : dd ≠ 0).
  { intros H0. apply (fdiv_None n) in H0. congruence. }
  rewrite fdiv_Some in E by done. injection E as <-.
  assert (Hn0 : 0 <= n).
  { unfold n. rewrite <- square_residual. apply fsum_square_nonneg. }
  assert (Hnd : n <= dd).
  { unfold n, dd, sadd, sabs, sub_scalar, col_model, col_observation, square.
    rewrite <- !list_fmap_compose, zip_with_fmap_l, zip_with_fmap_r, zip_with_diag.
    rewrite <- list_fmap_compose. apply fsum_fmap_le.
    intros r _. simpl.
    assert (Ht : Rabs (model r - observation r)
                 <= Rabs (model r - om) + Rabs (observation r - om)).
    { replace (model r - observation r)
        with ((model r - om) + - (observation r - om)) by lra.
      eapply Rle_trans; [apply Rabs_triang|]. rewrite Rabs_Ropp. lra. }
    pose proof (Rabs_pos (model r - observation r)).
    assert (Hsq : (model r - observation r) * (model r - observation r)
                  = Rabs (model r - observation r) * Rabs (model r - observation r)).
    { rewrite <- Rabs_mult. symmetry. apply Rabs_right, Rle_ge.
      apply (Rle_0_sqr (model r - observation r)). }
    rewrite Hsq. nra. }
  assert (Hpos : 0 < dd) by lra.
  assert (0 <= n / dd) by (apply div_nonneg; lra).
  assert (n / dd <= 1).
  { apply (Rmult_le_reg_r dd); [done|]. unfold Rdiv.
    rewrite Rmult_assoc, Rinv_l by done. lra. }
  lra.
Qed.

Lemma skill_bounds_witness :
  let d := TSData_init None "8720218" hourly_1_to_5 false in
  skill d = Some 1 ∧ 0 <= 1 <= 1.
Proof.
  intros d.
  assert (H : skill d = Some 1).
  { apply perfect_skill.
    - intros r Hr. simpl in Hr.
      repeat (apply elem_of_cons in Hr as [-> | Hr]; [reflexivity|]).
      by apply elem_of_nil in Hr.
    - exists 1, 2. split; [left|]. split; [right; left|]. lra. }
  split; [exact H|]. exact (skill_bounds d 1 H).
Defined.

Lemma fsum_square_sub_scalar xs c :
  fsum (square (sub_scalar xs c))
  = fsum (square xs) - 2 * c * fsum xs + INR (length xs) * c * c.
Proof.
  unfold square, sub_scalar. induction xs as [|x xs IH].
  - rewrite !fmap_nil, !fsum_nil. simpl. lra.
  - rewrite !fmap_cons, !fsum_cons, IH, length_cons, S_INR. lra.
Qed.

(** X5: bias correction trades the bias for accuracy: the squared RMSE
    of the corrected pair is the squared RMSE of the raw pair minus the
    squared bias, so the corrected RMSE is never larger, and the bias is
    never larger in magnitude than the RMSE. *)
Theorem bias_correct_rmse (datum : option string) (station_id : string)
    (df : list row) :
  df ≠ [] →
  ∃ b e e',
    bias (TSData_init datum station_id df false) = Some b
    ∧ rmse (TSData_init datum station_id df false) = Some e
    ∧ rmse (TSData_init datum station_id df true) = Some e'
    ∧ e' * e' = e * e - b * b ∧ e' <= e ∧ Rabs b <= e.
Proof.
  intros Hne. unfold bias, rmse, predicted, observed, TSData_init. simpl.
  assert (Hres : ssub (col_model df) (col_observation df) ≠ [])
    by (rewrite residual_fmap; by apply fmap_ne_nil).
  rewrite (mean_Some _ Hres), bias_corrected_residual.
  set (res := ssub (col_model df) (col_observation df)) in *.
  assert (Hn : 0 < INR (length res)).
  { pose proof (INR_length_ne_0 _ Hres). pose proof (pos_INR (length res)). lra. }
  set (n := INR (length res)) in *.
  set (b := fsum res / n).
  rewrite !mean_Some by (unfold square, sub_scalar; by repeat apply fmap_ne_nil).
  assert (Hl1 : INR (length (square res)) = n)
    by (unfold square; by rewrite length_fmap).
  assert (Hl2 : INR (length (square (sub_scalar res b))) = n)
    by (unfold square, sub_scalar; by rewrite !length_fmap).
  rewrite Hl1, Hl2, fsum_square_sub_scalar. fold n. simpl.
  set (S2 := fsum (square res)).
  assert (HS2 : 0 <= S2) by apply fsum_square_nonneg.
  assert (Hraw : 0 <= S2 / n) by (apply div_nonneg; lra).
  assert (Hid : (S2 - 2 * b * fsum res + n * b * b) / n = S2 / n - b * b).
  { unfold b. field. lra. }
  rewrite Hid.
  assert (Hcor : 0 <= S2 / n - b * b).
  { rewrite <- Hid. apply div_nonneg; [|done].
    unfold S2, n. rewrite <- fsum_square_sub_scalar. apply fsum_square_nonneg. }
  exists b, (sqrt (S2 / n)), (sqrt (S2 / n - b * b)).
  split; [done|]. split; [done|]. split; [done|].
  rewrite !sqrt_sqrt by done. split; [done|]. split.
  - apply sqrt_le_1_alt. nra.
  - rewrite <- sqrt_Rsqr_abs. apply sqrt_le_1_alt. unfold Rsqr. lra.
Qed.

Lemma bias_correct_rmse_witness :
  [Row 0 3 1; Row 1 5 2] ≠ []
  ∧ ∃ b e e',
      bias (TSData_init None "8720218" [Row 0 3 1; Row 1 5 2] false) = Some b
      ∧ rmse (TSData_init None "8720218" [Row 0 3 1; Row 1 5 2] false) = Some e
      ∧ rmse (TSData_init None "8720218" [Row 0 3 1; Row 1 5 2] true) = Some e'
      ∧ e' * e' = e * e - b * b ∧ e' <= e ∧ Rabs b <= e.
Proof.
  split; [discriminate|]. apply bias_correct_rmse. discriminate.
Defined.

(** ** The two correlations *)

(** A column with two different values. *)
Definition nonconst (xs : column) : Prop := ∃ a b, a ∈ xs ∧ b ∈ xs ∧ a ≠ b.

Lemma nonconst_length xs : nonconst xs → (2 <= length xs)%nat.
Proof.
  intros (a & b & Ha & Hb & Hab).
  destruct xs as [|x [|y l]]; simpl; [| |lia].
  - by apply elem_of_nil in Ha.
  - apply list_elem_of_singleton in Ha, Hb. congruence.
Qed.

Lemma nonconst_not_constant xs : nonconst xs → ¬ Forall (λ v, v = hd 0 xs) xs.
Proof.
  intros (a & b & Ha & Hb & Hab). rewrite Forall_forall. intros Hall.
  apply Hab. by rewrite (Hall a Ha), (Hall b Hb).
Qed.

Lemma nonconst_centred_pos xs c : nonconst xs → 0 < fsum (square (sub_scalar xs c)).
Proof.
  intros (a & b & Ha & Hb & Hab).
  assert (∃ v, v ∈ xs ∧ v - c ≠ 0) as (v & Hv & Hne).
  { destruct (decide (a = c)) as [->|Hac]; [exists b | exists a]; split; try done; lra. }
  apply fsum_square_pos with (v - c); [|done].
  unfold sub_scalar. by apply (list_elem_of_fmap_2 (λ x, x - c)).
Qed.

(** Dot product of two scaled columns. *)
Lemma fsum_smul_div xs ys c e :
  c ≠ 0 → e ≠ 0 →
  fsum (smul (div_scalar xs c) (div_scalar ys e)) = fsum (smul xs ys) / (c * e).
Proof.
  intros Hc He. unfold smul, div_scalar. revert ys.
  induction xs as [|x xs IH]; intros ys.
  - simpl. rewrite fsum_nil. unfold Rdiv. by rewrite Rmult_0_l.
  - destruct ys as [|y ys].
    + simpl. rewrite fsum_nil. unfold Rdiv. by rewrite Rmult_0_l.
    + rewrite !fmap_cons. simpl. rewrite !fsum_cons, IH. by field.
Qed.

(** The Cauchy-Schwarz inequality for two columns. *)
Lemma cauchy_schwarz xs ys :
  fsum (smul xs ys) * fsum (smul xs ys) <= fsum (square xs) * fsum (square ys).
Proof.
  unfold smul, square. revert ys. induction xs as [|x xs IH]; intros ys.
  - simpl. rewrite !fsum_nil. lra.
  - destruct ys as [|y ys].
    + simpl zip_with. rewrite fmap_nil, !fsum_nil. lra.
    + rewrite !fmap_cons. simpl zip_with. rewrite !fsum_cons.
      specialize (IH ys).
      pose proof (fsum_square_nonneg xs) as Hx.
      pose proof (fsum_square_nonneg ys) as Hy.
      unfold square in Hx, Hy.
      set (Sxy := fsum (zip_with Rmult xs ys)) in *.
      set (Sxx := fsum ((λ x, x * x) <$> xs)) in *.
      set (Syy := fsum ((λ x, x * x) <$> ys)) in *.
      assert (Hcross : 2 * (x * y * Sxy) <= x * x * Syy + y * y * Sxx).
      { assert (Hw : (x * y * Sxy) * (x * y * Sxy) <= (x * x * Syy) * (y * y * Sxx)).
        { replace ((x * y * Sxy) * (x * y * Sxy))
            with ((x * y) * (x * y) * (Sxy * Sxy)) by ring.
          replace ((x * x * Syy) * (y * y * Sxx))
            with ((x * y) * (x * y) * (Sxx * Syy)) by ring.
          apply Rmult_le_compat_l; [|done]. apply (Rle_0_sqr (x * y)). }
        assert (Hu : 0 <= x * x * Syy)
          by (apply Rmult_le_pos; [apply (Rle_0_sqr x) | done]).
        assert (Hv : 0 <= y * y * Sxx)
          by (apply Rmult_le_pos; [apply (Rle_0_sqr y) | done]).
        set (u := x * x * Syy) in *. set (v := y * y * Sxx) in *.
        set (w := x * y * Sxy) in *.
        destruct (Rle_dec (2 * w) (u + v)) as [|Hgt]; [done|].
        exfalso. assert (0 <= (u - v) * (u - v)) by apply (Rle_0_sqr (u - v)).
        assert (0 < 2 * w - (u + v)) by lra.
        assert (0 < 2 * w + (u + v)) by lra.
        assert (0 < (2 * w - (u + v)) * (2 * w + (u + v)))
          by by apply Rmult_lt_0_compat.
        nra. }
      nra.
Qed.

(** X6: on a pair whose two channels are not constant, the correlation
    of the repository, [TSData.r], and the one [main] reports,
    [pearsonr], are defined and equal, and lie between -1 and 1. *)
Theorem r_agrees_with_pearsonr (d : TSData) :
  nonconst (predicted d) → nonconst (observed d) →
  ∃ ρ, r d = Some ρ ∧ corr d = Some ρ ∧ -1 <= ρ <= 1.
Proof.
  intros Hx Hy.
  assert (Hlen : length (predicted d) = length (data d))
    by (unfold predicted, col_model; by rewrite length_fmap).
  assert (Hlen' : length (observed d) = length (data d))
    by (unfold observed, col_observation; by rewrite length_fmap).
  pose proof (nonconst_length _ Hx) as Hn2.
  assert (Hn : 0 < INR (length (data d)) - 1).
  { rewrite Hlen in Hn2. apply le_INR in Hn2. simpl in Hn2. lra. }
  assert (Hxne : predicted d ≠ []) by (intros E; rewrite E in Hn2; simpl in Hn2; lia).
  assert (Hyne : observed d ≠ []).
  { intros E. apply (f_equal length) in E. rewrite Hlen', <- Hlen in E.
    simpl in E. lia. }
  set (mx := fsum (predicted d) / INR (length (predicted d))).
  set (my := fsum (observed d) / INR (length (observed d))).
  pose proof (nonconst_centred_pos _ mx Hx) as HSxx.
  pose proof (nonconst_centred_pos _ my Hy) as HSyy.
  set (xm := sub_scalar (predicted d) mx) in *.
  set (ym := sub_scalar (observed d) my) in *.
  set (Sxx := fsum (square xm)) in *. set (Syy := fsum (square ym)) in *.
  set (Sxy := fsum (smul xm ym)).
  pose proof (cauchy_schwarz xm ym) as HCS. fold Sxy Sxx Syy in HCS.
  assert (HNx : 0 < sqrt Sxx) by by apply sqrt_lt_R0.
  assert (HNy : 0 < sqrt Syy) by by apply sqrt_lt_R0.
  assert (HNN : (sqrt Sxx * sqrt Syy) * (sqrt Sxx * sqrt Syy) = Sxx * Syy).
  { transitivity ((sqrt Sxx * sqrt Sxx) * (sqrt Syy * sqrt Syy)); [ring|].
    rewrite !sqrt_sqrt by lra. done. }
  set (N := sqrt Sxx * sqrt Syy) in *.
  assert (HN : 0 < N) by by apply Rmult_lt_0_compat.
  assert (Hρ : -1 <= Sxy / N <= 1).
  { assert (Hb : - N <= Sxy <= N) by nra.
    split.
    - apply (Rmult_le_reg_r N); [done|]. unfold Rdiv.
      rewrite Rmult_assoc, Rinv_l by lra. lra.
    - apply (Rmult_le_reg_r N); [done|]. unfold Rdiv.
      rewrite Rmult_assoc, Rinv_l by lra. lra. }
  exists (Sxy / N). split; [|split; [|done]].
  - unfold r, std. rewrite (mean_Some _ Hxne), (mean_Some _ Hyne). simpl.
    fold mx my xm ym Sxx Syy. rewrite Hlen, Hlen'.
    rewrite !fdiv_Some by lra. simpl.
    set (k := INR (length (data d)) - 1) in *.
    assert (Hsx : 0 < sqrt (Sxx / k))
      by (apply sqrt_lt_R0, Rdiv_lt_0_compat; lra).
    assert (Hsy : 0 < sqrt (Syy / k))
      by (apply sqrt_lt_R0, Rdiv_lt_0_compat; lra).
    unfold div_by. rewrite !(decide_False (P := _ = 0)) by lra. simpl.
    rewrite fsum_smul_div by lra. fold Sxy. f_equal.
    assert (Hss : sqrt (Sxx / k) * sqrt (Syy / k) = N / k).
    { rewrite !sqrt_div_alt by done.
      assert (Hk : sqrt k * sqrt k = k) by (apply sqrt_sqrt; lra).
      assert (Hk0 : 0 < sqrt k) by by apply sqrt_lt_R0.
      transitivity ((sqrt Sxx * sqrt Syy) / (sqrt k * sqrt k)); [field; lra|].
      by rewrite Hk. }
    rewrite Hss. field. lra.
  - unfold corr, pearsonr.
    rewrite bool_decide_eq_false_2 by lia.
    rewrite (bool_decide_eq_false_2 _ (nonconst_not_constant _ Hx)).
    rewrite (bool_decide_eq_false_2 _ (nonconst_not_constant _ Hy)). simpl.
    rewrite (mean_Some _ Hxne), (mean_Some _ Hyne). simpl.
    fold mx my xm ym Sxx Syy.
    rewrite fsum_smul_div by lra. fold Sxy N. f_equal.
    rewrite Rmin_left by lra. apply Rmax_left. lra.
Qed.

Lemma r_agrees_with_pearsonr_witness :
  let d := TSData_init None "8720218" [Row 0 1 2; Row 1 2 5; Row 2 4 3] false in
  (nonconst (predicted d) ∧ nonconst (observed d))
  ∧ ∃ ρ, r d = Some ρ ∧ corr d = Some ρ ∧ -1 <= ρ <= 1.
Proof.
  intros d.
  assert (H1 : nonconst (predicted d)).
  { exists 1, 2. split; [left|]. split; [right; left|]. lra. }
  assert (H2 : nonconst (observed d)).
  { exists 2, 5. split; [left|]. split; [right; left|]. lra. }
  split; [by split|]. exact (r_agrees_with_pearsonr d H1 H2).
Defined.

End Stats.

(** * Constituent-wise statistics and the amplitude/phase plots *)

Module Tidal.

Import Num.
Local Open Scope R_scope.

(** Set of constituents to plot. *)
Definition PLOT_CONSTITUENTS : list string :=
  ["M2"; "S2"; "N2"; "K2"; "O1"; "K1"; "Q1"; "P1"]%string.

(** ** Objects and references

    pandas objects are mutable and Python passes references: a [Series]
    or [DataFrame] that is written to after its creation, or handed to a
    function that writes, is an object of the store; a temporary that is
    only read may be kept as a plain value. *)

(** A row of a constituent table in long format (the concatenated
    [tidal_analysis] results, one row per station and constituent). *)
Record crow := CRow {
  constituent : string;
  station : string;
  speed : R;
  amplitude : R;
  phase : R
}.

(** A cell of a float column: a finite float, or [nan] ([None]) where
    the value is missing; a column of a pivot has [nan] for a station
    without the constituent. *)
Abbreviation cell := (option R).

(** A [Series]: its cells in row order, each under its index label.  A
    column of a pivot is indexed by station, every station once. *)
Abbreviation series := (list (string * cell)).

(** A [Series], or a long-format frame whose rows carry their index
    label. *)
Inductive obj :=
  | Series (s : series)
  | Frame (rows : list (nat * crow)).

Abbreviation ref := positive.
Abbreviation store := (gmap positive obj).

(** Computations on the store; [None] is a Python exception. *)
Definition M (A : Type) : Type := store → option (A * store).

#[export] Instance M_ret : MRet M := λ A a σ, Some (a, σ).
#[export] Instance M_bind : MBind M := λ A B f m σ,
  match m σ with
  | Some (a, σ') => f a σ'
  | None => None
  end.

Definition raise {A} : M A := λ _, None.

(** A new object gets a reference that is not in use. *)
Definition alloc (o : obj) : M ref := λ σ,
  let l := fresh (dom σ) in Some (l, <[l := o]> σ).

Definition get_series (l : ref) : M series := λ σ,
  match σ !! l with Some (Series xs) => Some (xs, σ) | _ => None end.

Definition get_frame (l : ref) : M (list (nat * crow)) := λ σ,
  match σ !! l with Some (Frame rows) => Some (rows, σ) | _ => None end.

(** Overwrite the contents of an existing object, keeping its identity. *)
Definition set_obj (l : ref) (o : obj) : M unit := λ σ,
  match σ !! l with Some _ => Some ((), <[l := o]> σ) | None => None end.

(** ** Arithmetic on [Series] *)

Definition labels {C} (s : list (string * C)) : list string := fst <$> s.
Definition cells {C} (s : list (string * C)) : list C := snd <$> s.

(** A function of one float, cell by cell: [nan] stays [nan]. *)
Definition cmap (f : R → R) (s : series) : series :=
  (λ e : string * cell, (e.1, f <$> e.2)) <$> s.

(** The first cell under a label. *)
Fixpoint find_label {C} (s : list (string * C)) (k : string) : option C :=
  match s with
  | [] => None
  | (k', v) :: s' => if decide (k' = k) then Some v else find_label s' k
  end.

(** The cell a reindex puts under a label: [nan] for a label the
    series does not have. *)
Definition at_label (s : series) (k : string) : cell :=
  match find_label s k with Some v => v | None => None end.

(** The labels in increasing order. *)
Fixpoint insert_label (k : string) (l : list string) : list string :=
  match l with
  | [] => [k]
  | k' :: l' => if String.leb k k' then k :: l else k' :: insert_label k l'
  end.

Definition sort_labels (l : list string) : list string := foldr insert_label [] l.

(** The index two [Series] are aligned on (an outer join of their
    indexes): the index itself when both have the same one or the other
    one is empty, and otherwise the labels of both, each once, sorted.
    The labels of a series are taken to be distinct. *)
Definition union_labels (a b : list string) : list string :=
  if decide (a = b) then a
  else if decide (b = []) then a
  else if decide (a = []) then b
  else sort_labels (a ++ List.filter (λ k, bool_decide (k ∉ a)) b).

(** A binary operation on two [Series]: row by row when they have the
    same index, and otherwise label by label on the aligned index, a
    label that one of them lacks giving [nan] on that side. *)
Definition align_with {C} (g : cell → cell → C) (a b : series) : list (string * C) :=
  if decide (labels a = labels b)
  then zip_with (λ x y : string * cell, (x.1, g x.2 y.2)) a b
  else (λ k, (k, g (at_label a k) (at_label b k)))
         <$> union_labels (labels a) (labels b).

(** Arithmetic on two cells: [nan] when either is [nan]. *)
Definition lift2 (f : R → R → R) (x y : cell) : cell :=
  match x, y with
  | Some u, Some v => Some (f u v)
  | _, _ => None
  end.

Definition binop (f : R → R → R) (a b : series) : series := align_with (lift2 f) a b.

(** The values of the cells that are not [nan]: what [np.sum] of a
    [Series] adds up. *)
Definition present (cs : list cell) : column := omap (λ c : cell, c) cs.

(** [np.sqrt], cell by cell: [nan] on a negative float. *)
Definition csqrt (c : cell) : cell :=
  match c with
  | Some x => if decide (x < 0) then None else Some (sqrt x)
  | None => None
  end.

(** [a - b] on two [Series]: a new object. *)
Definition series_sub (a b : ref) : M ref :=
  xs ← get_series a; ys ← get_series b; alloc (Series (binop Rminus xs ys)).

(** ** [phase_correct] *)

(** [pdiff[pdiff > 180] = 360 - pdiff[pdiff > 180]], one cell. *)
Definition fold_high (x : R) : R := if decide (x > 180) then 360 - x else x.

(** [pdiff[pdiff < -180] = 360 + pdiff[pdiff < -180]], one cell. *)
Definition fold_low (x : R) : R := if decide (x < -180) then 360 + x else x.

(** The two masked assignments write into the argument; the argument
    itself is returned.  A [nan] cell is under neither mask. *)
Definition phase_correct (pdiff : ref) : M ref :=
  xs ← get_series pdiff;
  set_obj pdiff (Series (cmap fold_high xs));;
  xs ← get_series pdiff;
  set_obj pdiff (Series (cmap fold_low xs));;
  mret pdiff.

(** What [phase_correct] leaves in one cell. *)
Definition corrected (x : R) : R := fold_low (fold_high x).

(** ** [mae_phase], [mre], [mean_rmse]

    [np.sum] of a [Series] skips the [nan] cells; [len] counts them. *)

Definition mae_phase (model obs : ref) : M (option R) :=
  d ← series_sub obs model;
  p ← phase_correct d;
  xs ← get_series p;
  tmp ← alloc (Series (cmap Rabs xs));
  ys ← get_series tmp;
  mret (fdiv (fsum (present (cells ys))) (INR (length ys))).

(** A cell of [np.abs(obs - model)/obs]: a zero divisor gives [nan] for
    [0/0] and [inf] otherwise. *)
Inductive fcell := Fin (x : R) | Inf | NaN.

Definition cell_div (x y : cell) : fcell :=
  match x, y with
  | Some u, Some v =>
      if decide (v = 0) then (if decide (u = 0) then NaN else Inf) else Fin (u / v)
  | _, _ => NaN
  end.

(** [np.sum] of a [Series] skips [nan] cells; an [inf] cell makes the
    sum non-finite ([None]). *)
Fixpoint sum_skipna (cs : list fcell) : option R :=
  match cs with
  | [] => Some 0
  | Fin x :: cs' => s ← sum_skipna cs'; Some (x + s)
  | NaN :: cs' => sum_skipna cs'
  | Inf :: _ => None
  end.

Definition mre (model obs : ref) : M (option R) :=
  m ← get_series model; o ← get_series obs;
  let tmp := align_with cell_div (cmap Rabs (binop Rminus o m)) o in
  mret (s ← sum_skipna (cells tmp); fdiv s (INR (length tmp))).

(** The term of [mean_rmse] for one station, from two amplitudes and a
    corrected phase difference. *)
Definition vector_term (am an dp : R) : R :=
  0.5 * (am ^ 2 + an ^ 2) - am * an * cos (PI * dp / 180).

Definition mean_rmse (Am An Pm Pn : ref) : M (option R) :=
  am ← get_series Am; an ← get_series An;
  let half_squares :=
    cmap (Rmult 0.5) (binop Rplus (cmap (λ x, x ^ 2) am) (cmap (λ x, x ^ 2) an)) in
  let product := binop Rmult am an in
  d ← series_sub Pm Pn;
  p ← phase_correct d;
  dp ← get_series p;
  let cosines := cmap cos (cmap (λ x, PI * x / 180) dp) in
  tmp ← alloc (Series (binop Rminus half_squares (binop Rmult product cosines)));
  ys ← get_series tmp;
  mret (fdiv (fsum (present (csqrt <$> cells ys))) (INR (length ys))).

(** ** [tidal_error], from the pivoted tables on

    [M] and [O] are the tables pandas' [pivot] builds: for each
    constituent of the comparison set, its phase column and its
    amplitude column, indexed by station. *)
Abbreviation ptable := (list (string * (ref * ref))).

(** [T[("phase", c)]] and [T[("amplitude", c)]]; a missing column is a
    [KeyError]. *)
Definition phase_of (T : ptable) (c : string) : M ref :=
  match list_find (λ e, e.1 = c) T with
  | Some (_, (_, (p, _))) => mret p
  | None => raise
  end.

Definition amplitude_of (T : ptable) (c : string) : M ref :=
  match list_find (λ e, e.1 = c) T with
  | Some (_, (_, (_, a))) => mret a
  | None => raise
  end.

(** One row of [Mean_stats.csv]. *)
Record stat_row := StatRow {
  st_constituent : string;
  MAE : option R;
  MRE : option R;
  MRMSE : option R
}.

Definition tidal_error (Mt Ot : ptable) : M (list stat_row) :=
  let _const := fst <$> Mt in
  maes ← mapM (λ c, m ← phase_of Mt c; o ← phase_of Ot c; mae_phase m o) _const;
  mres ← mapM (λ c, m ← amplitude_of Mt c; o ← amplitude_of Ot c; mre m o) _const;
  mrmses ← mapM (λ c,
      am ← amplitude_of Mt c; an ← amplitude_of Ot c;
      pm ← phase_of Mt c; pn ← phase_of Ot c;
      mean_rmse am an pm pn) _const;
  mret (zip_with (λ c '(a, (b, e)), StatRow c a b e)
          _const (zip maes (zip mres mrmses))).

(** ** [amplitude_plot]

    What is modelled is the data handed to the two scatter plots of each
    constituent; axis limits, annotations and files are rendering. *)
Record ap_plot := ApPlot {
  ap_constituent : string;
  ap_amplitude : list (R * R);   (* (O.amplitude, M.amplitude) *)
  ap_phase : list (R * R)        (* (O.phase, M.phase) *)
}.

(** [df[df.constituent == c]]: a new frame with the selected rows, each
    under the label it has in [df]. *)
Definition select_constituent (df : ref) (c : string) : M ref :=
  rows ← get_frame df;
  alloc (Frame (List.filter (λ r, bool_decide (constituent r.2 = c)) rows)).

(** [M.phase - O.phase], aligned on the row labels: a difference exists
    for the labels both frames have (it is [nan] elsewhere). *)
Definition phase_diff (mrows orows : list (nat * crow)) (i : nat) : option R :=
  m ← list_find (λ r, r.1 = i) mrows;
  o ← list_find (λ r, r.1 = i) orows;
  Some (phase m.2.2 - phase o.2.2).

(** [F.loc[mask, "phase"] + 360] put back under [mask]; the mask is
    false where the difference is [nan]. *)
Definition add_360 (mask : R → bool) (diff : nat → option R)
    (rows : list (nat * crow)) : list (nat * crow) :=
  (λ r : nat * crow,
    match diff r.1 with
    | Some dv =>
        if mask dv
        then (r.1, CRow (constituent r.2) (station r.2) (speed r.2)
                        (amplitude r.2) (phase r.2 + 360))
        else r
    | None => r
    end) <$> rows.

(** [F.loc[mask, "phase"] = F.loc[mask, "phase"] + 360], written into [F]. *)
Definition add_360_where (mask : R → bool) (diff : nat → option R) (F : ref) : M unit :=
  rows ← get_frame F;
  set_obj F (Frame (add_360 mask diff rows)).

(** The body of the loop for one constituent; [None] is [continue].
    A scatter plot of two columns of different lengths raises, and so
    does [pearsonr] on fewer than two stations. *)
Definition amplitude_plot_one (model obs : ref) (c : string) : M (option ap_plot) :=
  Mf ← select_constituent model c;
  Of ← select_constituent obs c;
  mrows ← get_frame Mf; orows ← get_frame Of;
  if bool_decide (mrows = []) || bool_decide (orows = []) then mret None
  else if negb (bool_decide (length mrows = length orows)) then raise
  else if bool_decide (length mrows < 2)%nat then raise
  else
    let amp := zip ((λ r, amplitude r.2) <$> orows) ((λ r, amplitude r.2) <$> mrows) in
    let diff := phase_diff mrows orows in
    add_360_where (λ x, bool_decide (x < -180)) diff Mf;;
    add_360_where (λ x, bool_decide (x > 180)) diff Of;;
    mrows ← get_frame Mf; orows ← get_frame Of;
    mret (Some (ApPlot c amp
            (zip ((λ r, phase r.2) <$> orows) ((λ r, phase r.2) <$> mrows)))).

Definition amplitude_plot (model obs : ref) : M (list ap_plot) :=
  plots ← mapM (amplitude_plot_one model obs) PLOT_CONSTITUENTS;
  mret (omap (λ p : option ap_plot, p) plots).


(** ** Running computations *)

Lemma bind_run {A B} (m : M A) (f : A → M B) σ a σ' :
  m σ = Some (a, σ') → (m ≫= f) σ = f a σ'.
Proof. intros H. unfold mbind, M_bind. by rewrite H. Qed.

Lemma bind_raise {A B} (m : M A) (f : A → M B) σ :
  m σ = None → (m ≫= f) σ = None.
Proof. intros H. unfold mbind, M_bind. by rewrite H. Qed.

Lemma ret_run {A} (a : A) σ : mret (M := M) a σ = Some (a, σ).
Proof. reflexivity. Qed.

Lemma get_series_run σ l xs :
  σ !! l = Some (Series xs) → get_series l σ = Some (xs, σ).
Proof. intros H. unfold get_series. by rewrite H. Qed.

Lemma get_frame_run σ l rows :
  σ !! l = Some (Frame rows) → get_frame l σ = Some (rows, σ).
Proof. intros H. unfold get_frame. by rewrite H. Qed.

Lemma set_obj_run σ l o :
  is_Some (σ !! l) → set_obj l o σ = Some ((), <[l := o]> σ).
Proof. intros [o' H]. unfold set_obj. by rewrite H. Qed.

Lemma alloc_run σ o : alloc o σ = Some (fresh (dom σ), <[fresh (dom σ) := o]> σ).
Proof. reflexivity. Qed.

Lemma fresh_unused (σ : store) : σ !! fresh (dom σ) = None.
Proof. apply not_elem_of_dom, is_fresh. Qed.

(** Every object of [σ] is still there, unchanged, in [σ']. *)
Definition preserves (σ σ' : store) : Prop :=
  ∀ l, is_Some (σ !! l) → σ' !! l = σ !! l.

Lemma preserves_refl σ : preserves σ σ.
Proof. by intros l _. Qed.

Lemma preserves_trans σ1 σ2 σ3 :
  preserves σ1 σ2 → preserves σ2 σ3 → preserves σ1 σ3.
Proof.
  intros H12 H23 l Hl. rewrite <- (H12 l Hl). apply H23.
  by rewrite (H12 l Hl).
Qed.

(** Writing to a reference that [σ0] does not use keeps [σ0] intact. *)
Lemma preserves_insert σ0 σ l o :
  σ0 !! l = None → preserves σ0 σ → preserves σ0 (<[l := o]> σ).
Proof.
  intros Hl H k Hk. rewrite lookup_insert_ne; [by apply H|].
  intros ->. rewrite Hl in Hk. by destruct Hk.
Qed.

Lemma preserves_alloc σ o : preserves σ (<[fresh (dom σ) := o]> σ).
Proof. apply preserves_insert; [apply fresh_unused | apply preserves_refl]. Qed.

Lemma preserves_unused σ σ' l : preserves σ σ' → σ' !! l = None → σ !! l = None.
Proof.
  intros H Hl. destruct (σ !! l) as [o|] eqn:E; [|done].
  specialize (H l). rewrite E in H. rewrite H in Hl by eauto. done.
Qed.

(** ** [phase_correct] writes in place *)

Lemma cmap_cmap f g s : cmap f (cmap g s) = cmap (f ∘ g) s.
Proof.
  unfold cmap. rewrite <- list_fmap_compose. apply list_fmap_ext.
  intros _ [k [x|]] _; done.
Qed.

Lemma phase_correct_run σ p xs :
  σ !! p = Some (Series xs) →
  phase_correct p σ = Some (p, <[p := Series (cmap corrected xs)]> σ).
Proof.
  intros Hp. unfold phase_correct.
  rewrite (bind_run _ _ _ _ _ (get_series_run _ _ _ Hp)).
  rewrite (bind_run _ _ _ _ _ (set_obj_run σ p _ (mk_is_Some _ _ Hp))).
  rewrite (bind_run _ _ _ (cmap fold_high xs) (<[p:=Series (cmap fold_high xs)]> σ))
    by (apply get_series_run, lookup_insert_eq).
  erewrite bind_run; last by (apply set_obj_run; rewrite lookup_insert_eq).
  rewrite ret_run, insert_insert_eq. unfold corrected.
  by rewrite cmap_cmap.
Qed.

Lemma series_sub_run σ a b xs ys :
  σ !! a = Some (Series xs) → σ !! b = Some (Series ys) →
  series_sub a b σ
  = Some (fresh (dom σ), <[fresh (dom σ) := Series (binop Rminus xs ys)]> σ).
Proof.
  intros Ha Hb. unfold series_sub.
  rewrite (bind_run _ _ _ _ _ (get_series_run _ _ _ Ha)).
  rewrite (bind_run _ _ _ _ _ (get_series_run _ _ _ Hb)).
  apply alloc_run.
Qed.

(** ** The statistics as functions of the column contents *)

Definition mae_value (model obs : series) : option R :=
  let tmp := cmap Rabs (cmap corrected (binop Rminus obs model)) in
  fdiv (fsum (present (cells tmp))) (INR (length tmp)).

Definition mre_value (model obs : series) : option R :=
  let tmp := align_with cell_div (cmap Rabs (binop Rminus obs model)) obs in
  s ← sum_skipna (cells tmp); fdiv s (INR (length tmp)).

(** The terms under the square root, one per station of the aligned
    index. *)
Definition vector_terms (am an pm pn : series) : series :=
  binop Rminus
    (cmap (Rmult 0.5) (binop Rplus (cmap (λ x, x ^ 2) am) (cmap (λ x, x ^ 2) an)))
    (binop Rmult (binop Rmult am an)
       (cmap cos (cmap (λ x, PI * x / 180) (cmap corrected (binop Rminus pm pn))))).

Definition mrmse_value (am an pm pn : series) : option R :=
  let tmp := vector_terms am an pm pn in
  fdiv (fsum (present (csqrt <$> cells tmp))) (INR (length tmp)).

Lemma mae_phase_run σ model obs xs ys :
  σ !! model = Some (Series xs) → σ !! obs = Some (Series ys) →
  ∃ σ', mae_phase model obs σ = Some (mae_value xs ys, σ') ∧ preserves σ σ'.
Proof.
  intros Hm Ho. unfold mae_phase.
  rewrite (bind_run _ _ _ _ _ (series_sub_run _ _ _ _ _ Ho Hm)).
  set (d := fresh (dom σ)). set (σ1 := <[d := Series (binop Rminus ys xs)]> σ).
  rewrite (bind_run _ _ _ _ _ (phase_correct_run σ1 d _ (lookup_insert_eq _ _ _))).
  unfold σ1. rewrite insert_insert_eq.
  set (σ2 := <[d := Series (cmap corrected (binop Rminus ys xs))]> σ).
  rewrite (bind_run _ _ _ _ _ (get_series_run σ2 d _ (lookup_insert_eq _ _ _))).
  rewrite (bind_run _ _ _ _ _ (alloc_run σ2 _)).
  erewrite bind_run; last by (apply get_series_run, lookup_insert_eq).
  rewrite ret_run. eexists. split; [reflexivity|].
  apply preserves_trans with σ2; [|apply preserves_alloc].
  apply preserves_alloc.
Qed.

Lemma mre_run σ model obs xs ys :
  σ !! model = Some (Series xs) → σ !! obs = Some (Series ys) →
  mre model obs σ = Some (mre_value xs ys, σ).
Proof.
  intros Hm Ho. unfold mre.
  rewrite (bind_run _ _ _ _ _ (get_series_run _ _ _ Hm)).
  rewrite (bind_run _ _ _ _ _ (get_series_run _ _ _ Ho)).
  reflexivity.
Qed.

Lemma mean_rmse_run σ Am An Pm Pn am an pm pn :
  σ !! Am = Some (Series am) → σ !! An = Some (Series an) →
  σ !! Pm = Some (Series pm) → σ !! Pn = Some (Series pn) →
  ∃ σ', mean_rmse Am An Pm Pn σ = Some (mrmse_value am an pm pn, σ')
        ∧ preserves σ σ'.
Proof.
  intros HAm HAn HPm HPn. unfold mean_rmse.
  rewrite (bind_run _ _ _ _ _ (get_series_run _ _ _ HAm)).
  rewrite (bind_run _ _ _ _ _ (get_series_run _ _ _ HAn)).
  rewrite (bind_run _ _ _ _ _ (series_sub_run _ _ _ _ _ HPm HPn)).
  set (d := fresh (dom σ)). set (σ1 := <[d := Series (binop Rminus pm pn)]> σ).
  rewrite (bind_run _ _ _ _ _ (phase_correct_run σ1 d _ (lookup_insert_eq _ _ _))).
  unfold σ1. rewrite insert_insert_eq.
  set (σ2 := <[d := Series (cmap corrected (binop Rminus pm pn))]> σ).
  rewrite (bind_run _ _ _ _ _ (get_series_run σ2 d _ (lookup_insert_eq _ _ _))).
  rewrite (bind_run _ _ _ _ _ (alloc_run σ2 _)).
  erewrite bind_run; last by (apply get_series_run, lookup_insert_eq).
  rewrite ret_run. eexists. split; [reflexivity|].
  apply preserves_trans with σ2; [|apply preserves_alloc].
  apply preserves_alloc.
Qed.

(** ** Alignment, label by label *)

Lemma labels_cmap f s : labels (cmap f s) = labels s.
Proof.
  unfold labels, cmap. rewrite <- list_fmap_compose. by apply list_fmap_ext.
Qed.

Lemma length_cmap f s : length (cmap f s) = length s.
Proof. unfold cmap. apply length_fmap. Qed.

Lemma cells_cmap f s : cells (cmap f s) = (λ c : cell, f <$> c) <$> cells s.
Proof. unfold cells, cmap. by rewrite <- !list_fmap_compose. Qed.

Lemma length_labels {C} (s : list (string * C)) : length (labels s) = length s.
Proof. apply length_fmap. Qed.

Lemma at_label_cmap f s k : at_label (cmap f s) k = f <$> at_label s k.
Proof.
  unfold at_label. induction s as [|[k' v] s IH]; [done|]. simpl.
  by destruct (decide (k' = k)).
Qed.

Lemma find_label_None {C} (s : list (string * C)) k :
  k ∉ labels s → find_label s k = None.
Proof.
  induction s as [|[k' v] s IH]; [done|]. unfold labels. rewrite fmap_cons.
  intros [Hne Hnotin]%not_elem_of_cons. simpl in *.
  rewrite decide_False by done. by apply IH.
Qed.

Lemma at_label_absent s k : k ∉ labels s → at_label s k = None.
Proof. intros H. unfold at_label. by rewrite find_label_None. Qed.

Lemma find_label_keys {C} (h : string → C) (U : list string) k :
  find_label ((λ k, (k, h k)) <$> U) k
  = if decide (k ∈ U) then Some (h k) else None.
Proof.
  induction U as [|k' U IH]; [done|]. rewrite fmap_cons. simpl.
  destruct (decide (k' = k)) as [->|Hne].
  - by rewrite decide_True by left.
  - rewrite IH. destruct (decide (k ∈ U)).
    + by rewrite decide_True by by right.
    + rewrite decide_False; [done|]. by intros [->|?]%elem_of_cons.
Qed.

Lemma find_label_zip {C} (g : cell → cell → C) (a b : series) k :
  labels a = labels b →
  find_label (zip_with (λ x y : string * cell, (x.1, g x.2 y.2)) a b) k
  = if decide (k ∈ labels a) then Some (g (at_label a k) (at_label b k)) else None.
Proof.
  revert b. induction a as [|[k1 v] a IH]; intros [|[k2 w] b] Hl; try done.
  unfold labels in Hl. rewrite !fmap_cons in Hl. injection Hl as <- Hl.
  unfold labels. rewrite fmap_cons. simpl. unfold at_label. simpl.
  destruct (decide (k1 = k)) as [->|Hne].
  - by rewrite decide_True by left.
  - rewrite (IH b Hl). fold (labels a). unfold at_label.
    destruct (decide (k ∈ labels a)).
    + by rewrite decide_True by by right.
    + rewrite decide_False; [done|]. by intros [->|?]%elem_of_cons.
Qed.

Lemma insert_label_perm k l : insert_label k l ≡ₚ k :: l.
Proof.
  induction l as [|k' l IH]; [done|]. simpl.
  destruct (String.leb k k'); [done|]. rewrite IH. apply Permutation_swap.
Qed.

Lemma sort_labels_perm l : sort_labels l ≡ₚ l.
Proof.
  induction l as [|k l IH]; [done|]. unfold sort_labels in *. simpl.
  by rewrite insert_label_perm, IH.
Qed.

Lemma filter_absent_self (a : list string) :
  List.filter (λ k, bool_decide (k ∉ a)) a = [].
Proof.
  assert (H : ∀ l, l ⊆ a → List.filter (λ k, bool_decide (k ∉ a)) l = []).
  { induction l as [|k l IH]; intros Hsub; [done|]. simpl.
    rewrite bool_decide_eq_false_2.
    - apply IH. intros x Hx. apply Hsub. by right.
    - intros Hn. apply Hn, Hsub. left. }
  by apply H.
Qed.

Lemma union_labels_perm a b :
  union_labels a b ≡ₚ a ++ List.filter (λ k, bool_decide (k ∉ a)) b.
Proof.
  unfold union_labels.
  destruct (decide (a = b)) as [<-|_]; [by rewrite filter_absent_self, app_nil_r|].
  destruct (decide (b = [])) as [->|_]; [by rewrite app_nil_r|].
  destruct (decide (a = [])) as [->|_].
  - rewrite app_nil_l. rewrite Catalog.filter_all; [done|].
    intros x _. apply bool_decide_eq_true_2, not_elem_of_nil.
  - apply sort_labels_perm.
Qed.

Lemma elem_of_union_labels a b k : k ∈ union_labels a b ↔ k ∈ a ∨ k ∈ b.
Proof.
  rewrite union_labels_perm, elem_of_app. split.
  - intros [?|Hin]; [by left|].
    apply list_elem_of_In, filter_In in Hin as [Hin _]. right. by apply list_elem_of_In.
  - intros [?|Hin]; [by left|]. destruct (decide (k ∈ a)); [by left|]. right.
    apply list_elem_of_In, filter_In. split; [by apply list_elem_of_In|].
    by apply bool_decide_eq_true_2.
Qed.

Lemma NoDup_union_labels a b : NoDup a → NoDup b → NoDup (union_labels a b).
Proof.
  intros Ha Hb. rewrite union_labels_perm. apply NoDup_app. split; [done|]. split.
  - intros k Hk Hin. apply list_elem_of_In, filter_In in Hin as [_ Hin].
    by apply bool_decide_eq_true in Hin.
  - eapply sublist_NoDup; [exact Hb|]. apply Catalog.filter_sublist.
Qed.

Lemma union_labels_same a : union_labels a a = a.
Proof. unfold union_labels. by rewrite decide_True. Qed.

(** The index of the result is the aligned index. *)
Lemma labels_align_with {C} (g : cell → cell → C) (a b : series) :
  labels (align_with g a b) = union_labels (labels a) (labels b).
Proof.
  unfold align_with. destruct (decide (labels a = labels b)) as [E|Hne].
  - rewrite <- E, union_labels_same.
    assert (Hlen : length a = length b)
      by (rewrite <- !length_labels; by rewrite E).
    clear E. revert b Hlen. induction a as [|x a IH]; intros [|y b] Hlen; try done.
    unfold labels in *. simpl. f_equal. apply IH. simpl in Hlen. lia.
  - unfold labels at 1. apply list_eq. intros i.
    rewrite !list_lookup_fmap. by destruct (_ !! i).
Qed.

Lemma length_align_with {C} (g : cell → cell → C) (a b : series) :
  length (align_with g a b) = length (union_labels (labels a) (labels b)).
Proof. by rewrite <- (labels_align_with g), length_labels. Qed.

(** The cell of the result under a label of the aligned index. *)
Lemma find_label_align_with {C} (g : cell → cell → C) (a b : series) k :
  find_label (align_with g a b) k
  = if decide (k ∈ union_labels (labels a) (labels b))
    then Some (g (at_label a k) (at_label b k)) else None.
Proof.
  unfold align_with. destruct (decide (labels a = labels b)) as [E|Hne].
  - rewrite find_label_zip by done. rewrite <- E, union_labels_same. done.
  - apply (find_label_keys (λ k, g (at_label a k) (at_label b k))).
Qed.

Lemma at_label_binop f a b k :
  at_label (binop f a b) k = lift2 f (at_label a k) (at_label b k).
Proof.
  unfold at_label at 1. unfold binop. rewrite find_label_align_with.
  destruct (decide (k ∈ union_labels (labels a) (labels b))) as [|Hn]; [done|].
  rewrite elem_of_union_labels in Hn.
  rewrite (at_label_absent a), (at_label_absent b) by tauto. done.
Qed.

Lemma labels_binop f a b : labels (binop f a b) = union_labels (labels a) (labels b).
Proof. apply labels_align_with. Qed.

(** With distinct labels, the cells are the cells under the labels. *)
Lemma cells_at_label (s : series) :
  NoDup (labels s) → cells s = at_label s <$> labels s.
Proof.
  induction s as [|[k v] s IH]; [done|]. unfold labels, cells in *.
  rewrite !fmap_cons. intros [Hnotin Hnd]%NoDup_cons. simpl.
  unfold at_label at 1. simpl. rewrite decide_True by done. f_equal.
  rewrite (IH Hnd). apply list_fmap_ext. intros i k' Hk'.
  unfold at_label. simpl. rewrite decide_False; [done|].
  intros ->. apply Hnotin. by eapply list_elem_of_lookup_2.
Qed.

Lemma present_fmap {A} (f : A → cell) (l : list A) : present (f <$> l) = omap f l.
Proof.
  unfold present. induction l as [|x l IH]; [done|]. rewrite fmap_cons.
  change (omap (λ c : cell, c) (f x :: (f <$> l)))
    with (match f x with
          | Some y => y :: omap (λ c : cell, c) (f <$> l)
          | None => omap (λ c : cell, c) (f <$> l)
          end).
  rewrite IH. done.
Qed.
(** ** The corrected phase difference *)

Lemma corrected_inside x : -180 <= x <= 180 → corrected x = x.
Proof.
  intros H. unfold corrected, fold_high, fold_low.
  destruct (decide (x > 180)); [lra|]. destruct (decide (x < -180)); lra.
Qed.

Lemma corrected_outside x : 180 < Rabs x <= 540 → corrected x = 360 - Rabs x.
Proof.
  unfold corrected, fold_high, fold_low, Rabs.
  destruct (Rcase_abs x); intros H.
  - destruct (decide (x > 180)); [lra|]. destruct (decide (x < -180)); lra.
  - destruct (decide (x > 180)); [|lra].
    destruct (decide (360 - x < -180)); lra.
Qed.

Lemma corrected_range x : -540 <= x <= 900 → -180 <= corrected x <= 180.
Proof.
  intros H. unfold corrected, fold_high, fold_low.
  destruct (decide (x > 180)).
  - destruct (decide (360 - x < -180)); lra.
  - destruct (decide (x < -180)); lra.
Qed.

(** The wrapped value has the magnitude of the circular distance. *)
Lemma corrected_magnitude x :
  Rabs x <= 360 → Rabs (corrected x) = Rmin (Rabs x) (360 - Rabs x).
Proof.
  intros H. destruct (Rle_dec (Rabs x) 180) as [Hle|Hgt].
  - rewrite corrected_inside, Rmin_left; [done|lra|].
    revert Hle. unfold Rabs. destruct (Rcase_abs x); lra.
  - rewrite corrected_outside by lra.
    rewrite Rmin_right by lra. apply Rabs_right. lra.
Qed.

Example corrected_359_1 : corrected (359 - 1) = 2.
Proof. rewrite corrected_outside; rewrite Rabs_right; lra. Qed.

Example corrected_1_359 : corrected (1 - 359) = 2.
Proof. rewrite corrected_outside; rewrite Rabs_left; lra. Qed.

(** Far outside the differences of two phases the result leaves the range. *)
Example corrected_1000 : corrected 1000 = -280.
Proof.
  unfold corrected, fold_high, fold_low.
  destruct (decide (1000 > 180)); [|lra].
  destruct (decide (360 - 1000 < -180)); lra.
Qed.


(** The claim of opposite signs fails: both directions of the pair 359, 1
    are corrected to [2], in either order of subtraction. *)
Lemma phase_correct_sign_counterexample :
  phase_correct 1%positive
    {[1%positive := Series [("0"%string, Some (359 - 1)); ("1"%string, Some (1 - 359))]]}
  = Some (1%positive,
          {[1%positive := Series [("0"%string, Some 2); ("1"%string, Some 2)]]})
  ∧ ¬ (corrected (359 - 1) = 2 ∧ corrected (1 - 359) = -2)
  ∧ ¬ (corrected (1 - 359) = 2 ∧ corrected (359 - 1) = -2).
Proof.
  split; [|split].
  - rewrite (phase_correct_run _ _ [("0"%string, Some (359 - 1));
                                     ("1"%string, Some (1 - 359))])
      by apply lookup_singleton_eq.
    rewrite insert_singleton_eq. unfold cmap. simpl.
    by rewrite corrected_359_1, corrected_1_359.
  - rewrite corrected_1_359. intros [_ H]. lra.
  - rewrite corrected_359_1. intros [_ H]. lra.
Qed.

(** C2 (amended): on a series of differences within [[-540, 900]], in
    particular of differences of two phases in [[0, 360]], the correction
    leaves every cell in [[-180, 180]], a missing cell staying missing; a
    difference in [[-180, 180]] is kept, and up to [|d| = 360] the result
    has the magnitude of the circular distance, [min(|d|, 360 - |d|)]:
    359 against 1 gives magnitude 2 in both directions. *)
Theorem phase_correct_wraps (σ : store) (p : ref) (xs : series) :
  σ !! p = Some (Series xs) →
  Forall (λ e : string * cell, ∀ x, e.2 = Some x → -540 <= x <= 900) xs →
  phase_correct p σ = Some (p, <[p := Series (cmap corrected xs)]> σ)
  ∧ Forall (λ e : string * cell, ∀ y, e.2 = Some y → -180 <= y <= 180)
      (cmap corrected xs)
  ∧ (∀ k, at_label (cmap corrected xs) k = corrected <$> at_label xs k)
  ∧ (∀ x, -180 <= x <= 180 → corrected x = x)
  ∧ (∀ x, Rabs x <= 360 → Rabs (corrected x) = Rmin (Rabs x) (360 - Rabs x))
  ∧ Rabs (corrected (359 - 1)) = 2 ∧ Rabs (corrected (1 - 359)) = 2.
Proof.
  intros Hp Hxs. split; [by apply phase_correct_run|].
  split; [|split; [|split; [|split; [|split]]]].
  - unfold cmap. rewrite Forall_fmap. eapply Forall_impl; [exact Hxs|].
    intros [k [x|]] Hx y; simpl; [|done]. intros [= <-].
    apply corrected_range. by apply Hx.
  - intros k. apply at_label_cmap.
  - apply corrected_inside.
  - apply corrected_magnitude.
  - rewrite corrected_359_1. apply Rabs_right. lra.
  - rewrite corrected_1_359. apply Rabs_right. lra.
Qed.

Lemma phase_correct_wraps_witness :
  let xs : series := [("0"%string, Some (359 - 1)); ("1"%string, Some (1 - 359));
                      ("2"%string, None); ("3"%string, Some 90)] in
  let σ : store := {[1%positive := Series xs]} in
  (σ !! 1%positive = Some (Series xs)
   ∧ Forall (λ e : string * cell, ∀ x, e.2 = Some x → -540 <= x <= 900) xs)
  ∧ phase_correct 1%positive σ
    = Some (1%positive, <[1%positive := Series (cmap corrected xs)]> σ).
Proof.
  intros xs σ.
  assert (H1 : σ !! 1%positive = Some (Series xs)) by apply lookup_singleton_eq.
  assert (H2 : Forall (λ e : string * cell, ∀ x, e.2 = Some x → -540 <= x <= 900) xs).
  { unfold xs.
    repeat (apply Forall_cons; split;
            [simpl; intros x Hx; first [done | injection Hx as <-; lra]|]).
    constructor. }
  split; [by split|]. exact (proj1 (phase_correct_wraps σ _ _ H1 H2)).
Defined.

(** ** The combined amplitude and phase error *)

(** The root of the term of one station: [nan] unless both tables have
    an amplitude and a phase for the station. *)
Definition station_root (am an pm pn : series) (k : string) : cell :=
  a ← at_label am k; b ← at_label an k; p ← at_label pm k; q ← at_label pn k;
  Some (sqrt (0.5 * (a ^ 2 + b ^ 2) - a * b * cos (PI * corrected (p - q) / 180))).

(** The metric as the specification words it: the root of the mean of
    the terms. *)
Definition mrmse_as_specified (am an pm pn : series) : option R :=
  sqrt <$> mean (present (cells (vector_terms am an pm pn))).

(** The term is a squared distance: the root is always defined. *)
Lemma vector_term_nonneg a b dp : 0 <= vector_term a b dp.
Proof.
  unfold vector_term. pose proof (COS_bound (PI * dp / 180)) as [Hlo Hhi].
  set (c := cos (PI * dp / 180)) in *.
  assert (H1 : 0 <= (a - b) ^ 2 * (1 + c))
    by (apply Rmult_le_pos; [apply pow2_ge_0 | lra]).
  assert (H2 : 0 <= (a + b) ^ 2 * (1 - c))
    by (apply Rmult_le_pos; [apply pow2_ge_0 | lra]).
  nra.
Qed.

Lemma vector_term_quadrature a : vector_term a a 90 = a ^ 2.
Proof.
  unfold vector_term. replace (PI * 90 / 180) with (PI / 2) by lra.
  rewrite cos_PI2. lra.
Qed.


Lemma at_label_vector_terms am an pm pn k :
  at_label (vector_terms am an pm pn) k
  = (a ← at_label am k; b ← at_label an k; p ← at_label pm k; q ← at_label pn k;
     Some (vector_term a b (corrected (p - q)))).
Proof.
  unfold vector_terms.
  rewrite !at_label_binop, !at_label_cmap, !at_label_binop, !at_label_cmap.
  destruct (at_label am k) as [a|], (at_label an k) as [b|],
    (at_label pm k) as [p|], (at_label pn k) as [q|]; done.
Qed.

Lemma csqrt_vector_terms am an pm pn k :
  csqrt (at_label (vector_terms am an pm pn) k) = station_root am an pm pn k.
Proof.
  rewrite at_label_vector_terms. unfold station_root.
  destruct (at_label am k) as [a|], (at_label an k) as [b|],
    (at_label pm k) as [p|], (at_label pn k) as [q|]; try done.
  simpl. pose proof (vector_term_nonneg a b (corrected (p - q))).
  rewrite decide_False by lra. done.
Qed.

(** The terms are on the stations of either table. *)
Lemma labels_vector_terms am an pm pn :
  labels pm = labels am → labels pn = labels an →
  labels (vector_terms am an pm pn) = union_labels (labels am) (labels an).
Proof.
  intros Hm Hn. unfold vector_terms.
  rewrite !labels_binop, !labels_cmap, !labels_binop, !labels_cmap, Hm, Hn.
  by rewrite !union_labels_same.
Qed.

Lemma omap_ext_in {A B} (f g : A → option B) (l : list A) :
  (∀ x, x ∈ l → f x = g x) → omap f l = omap g l.
Proof.
  induction l as [|x l IH]; intros H; [done|].
  pose proof (IH (λ y Hy, H y (list_elem_of_further _ _ _ Hy))) as IH'.
  simpl. rewrite (H x) by left. destruct (g x); [f_equal|]; exact IH'.
Qed.

(** The value of [mean_rmse] in closed form: the roots of the stations
    that have all four values, added up and divided by the number of
    stations of either table. *)
Lemma mrmse_closed_form am an pm pn :
  labels pm = labels am → labels pn = labels an →
  NoDup (labels am) → NoDup (labels an) →
  mrmse_value am an pm pn
  = fdiv (fsum (omap (station_root am an pm pn)
                  (union_labels (labels am) (labels an))))
         (INR (length (union_labels (labels am) (labels an)))).
Proof.
  intros Hm Hn Hdm Hdn. unfold mrmse_value.
  pose proof (labels_vector_terms am an pm pn Hm Hn) as Hl.
  rewrite cells_at_label by (rewrite Hl; by apply NoDup_union_labels).
  rewrite <- (length_labels (vector_terms am an pm pn)), Hl.
  rewrite <- list_fmap_compose, present_fmap. do 2 f_equal.
  apply omap_ext_in. intros k _. apply csqrt_vector_terms.
Qed.

(** Two stations with amplitudes 1 and 3 in both channels, the phases a
    quarter turn apart. *)
Definition two_stations : list string := ["8720218"; "8721604"]%string.

Definition on_stations (c1 c2 : cell) : series :=
  [("8720218"%string, c1); ("8721604"%string, c2)].

Definition quarter_turn_store : store :=
  <[1%positive := Series (on_stations (Some 1) (Some 3))]>
  (<[2%positive := Series (on_stations (Some 1) (Some 3))]>
  (<[3%positive := Series (on_stations (Some 90) (Some 90))]>
  (<[4%positive := Series (on_stations (Some 0) (Some 0))]> ∅))).

Lemma sqrt_9 : sqrt 9 = 3.
Proof. replace 9 with (3 * 3) by lra. apply sqrt_square. lra. Qed.

Lemma quarter_turn_term a :
  0.5 * (a ^ 2 + a ^ 2) - a * a * cos (PI * corrected (90 - 0) / 180) = a ^ 2.
Proof.
  replace (90 - 0) with 90 by lra. rewrite corrected_inside by lra.
  apply vector_term_quadrature.
Qed.

Lemma at_label_first c1 c2 : at_label (on_stations c1 c2) "8720218" = c1.
Proof. reflexivity. Qed.

Lemma at_label_second c1 c2 : at_label (on_stations c1 c2) "8721604" = c2.
Proof. reflexivity. Qed.

Lemma labels_on_stations c1 c2 : labels (on_stations c1 c2) = two_stations.
Proof. reflexivity. Qed.

Lemma NoDup_two_stations : NoDup two_stations.
Proof. unfold two_stations. compute_done. Qed.

Lemma quarter_turn_roots :
  omap (station_root (on_stations (Some 1) (Some 3)) (on_stations (Some 1) (Some 3))
          (on_stations (Some 90) (Some 90)) (on_stations (Some 0) (Some 0)))
       two_stations
  = [1; 3].
Proof.
  unfold two_stations. cbn [omap list_omap]. unfold station_root.
  rewrite !at_label_first, !at_label_second. cbn -[pow].
  rewrite !quarter_turn_term.
  replace (1 ^ 2) with 1 by lra. replace (3 ^ 2) with 9 by lra.
  by rewrite sqrt_1, sqrt_9.
Qed.

Lemma quarter_turn_terms :
  present (cells (vector_terms (on_stations (Some 1) (Some 3))
                    (on_stations (Some 1) (Some 3))
                    (on_stations (Some 90) (Some 90)) (on_stations (Some 0) (Some 0))))
  = [1; 9].
Proof.
  rewrite cells_at_label
    by (rewrite labels_vector_terms, !labels_on_stations, union_labels_same by done;
        apply NoDup_two_stations).
  rewrite labels_vector_terms, !labels_on_stations, union_labels_same by done.
  rewrite present_fmap. unfold two_stations. cbn [omap list_omap].
  rewrite !at_label_vector_terms, !at_label_first, !at_label_second. cbn -[pow].
  unfold vector_term. rewrite !quarter_turn_term.
  f_equal; [lra|]. f_equal. lra.
Qed.

(** The claim fails: the code averages the per-station roots, (1 + 3)/2,
    where the claim has the root of the average, sqrt ((1 + 9)/2). *)
Lemma mean_rmse_counterexample :
  fst <$> mean_rmse 1%positive 2%positive 3%positive 4%positive quarter_turn_store
    = Some (Some 2)
  ∧ mrmse_as_specified (on_stations (Some 1) (Some 3)) (on_stations (Some 1) (Some 3))
      (on_stations (Some 90) (Some 90)) (on_stations (Some 0) (Some 0))
    = Some (sqrt 5)
  ∧ 2 ≠ sqrt 5.
Proof.
  split; [|split].
  - destruct (mean_rmse_run quarter_turn_store 1%positive 2%positive 3%positive
      4%positive (on_stations (Some 1) (Some 3)) (on_stations (Some 1) (Some 3))
      (on_stations (Some 90) (Some 90)) (on_stations (Some 0) (Some 0)))
      as (σ' & -> & _); try reflexivity.
    simpl. f_equal.
    rewrite mrmse_closed_form
      by (rewrite ?labels_on_stations; first [done | apply NoDup_two_stations]).
    rewrite !labels_on_stations, union_labels_same, quarter_turn_roots.
    rewrite fdiv_Some by (simpl; lra). f_equal.
    rewrite !fsum_cons, fsum_nil. simpl. lra.
  - unfold mrmse_as_specified. rewrite quarter_turn_terms.
    rewrite mean_Some by done. simpl. do 2 f_equal.
    rewrite !fsum_cons, fsum_nil. lra.
  - intros H. assert (Hsq : sqrt 5 * sqrt 5 = 5) by (apply sqrt_sqrt; lra).
    rewrite <- H in Hsq. lra.
Qed.

(** A station without the constituent: its cells are [nan] in all four
    columns.  The only root, 3, is divided by the two stations. *)
Example mean_rmse_missing_cell :
  mrmse_value (on_stations (Some 3) None) (on_stations (Some 3) None)
    (on_stations (Some 90) None) (on_stations (Some 0) None)
  = Some 1.5.
Proof.
  rewrite mrmse_closed_form
    by (rewrite ?labels_on_stations; first [done | apply NoDup_two_stations]).
  rewrite !labels_on_stations, union_labels_same.
  unfold two_stations. cbn [omap list_omap]. unfold station_root.
  rewrite !at_label_first, !at_label_second. cbn -[pow].
  rewrite quarter_turn_term. replace (3 ^ 2) with 9 by lra. rewrite sqrt_9.
  rewrite fdiv_Some by (simpl; lra). f_equal.
  rewrite fsum_cons, fsum_nil. simpl. lra.
Qed.
(** ** [tidal_error] row by row *)

(** The phase and amplitude columns of constituent [c] in table [T], read
    in store [σ]. *)
Definition columns (σ : store) (T : ptable) (c : string) : option (series * series) :=
  e ← list_find (λ e, e.1 = c) T;
  match σ !! e.2.2.1, σ !! e.2.2.2 with
  | Some (Series ps), Some (Series as') => Some (ps, as')
  | _, _ => None
  end.

(** Every column of the table is a [Series] of the store. *)
Definition table_in (σ : store) (T : ptable) : Prop :=
  ∀ c p a, (c, (p, a)) ∈ T →
    ∃ ps as', σ !! p = Some (Series ps) ∧ σ !! a = Some (Series as').

Lemma table_in_preserves σ σ' T : table_in σ T → preserves σ σ' → table_in σ' T.
Proof.
  intros HT Hp c p a Hc. destruct (HT c p a Hc) as (ps & as' & H1 & H2).
  exists ps, as'. split; (rewrite Hp; [done|by eexists]).
Qed.

Lemma columns_preserves σ σ' T c :
  table_in σ T → preserves σ σ' → columns σ' T c = columns σ T c.
Proof.
  intros HT Hp. unfold columns.
  destruct (list_find (λ e, e.1 = c) T) as [[i [c' [p a]]]|] eqn:E; [|done].
  simpl. apply list_find_Some in E as (Hi & _ & _).
  apply list_elem_of_lookup_2 in Hi.
  destruct (HT c' p a Hi) as (ps & as' & H1 & H2).
  rewrite !Hp by by eexists. done.
Qed.

Lemma table_find σ T c :
  table_in σ T → c ∈ fst <$> T →
  ∃ i p a ps as',
    list_find (λ e, e.1 = c) T = Some (i, (c, (p, a)))
    ∧ σ !! p = Some (Series ps) ∧ σ !! a = Some (Series as')
    ∧ columns σ T c = Some (ps, as').
Proof.
  intros HT Hc. apply list_elem_of_fmap in Hc as ([c' [p a]] & -> & Hin).
  change ((c', (p, a)).1) with c'.
  destruct (list_find_elem_of (λ e : string * (ref * ref), e.1 = c') T _ Hin eq_refl)
    as [[i [c2 [p2 a2]]] E].
  pose proof E as E'. apply list_find_Some in E' as (Hi & Hc2 & _).
  simpl in Hc2. subst c2. apply list_elem_of_lookup_2 in Hi.
  destruct (HT _ _ _ Hi) as (ps & as' & H1 & H2).
  exists i, p2, a2, ps, as'. split; [done|]. split; [done|]. split; [done|].
  unfold columns. rewrite E. simpl. by rewrite H1, H2.
Qed.

Lemma phase_of_run σ T c i p a :
  list_find (λ e, e.1 = c) T = Some (i, (c, (p, a))) → phase_of T c σ = Some (p, σ).
Proof. intros E. unfold phase_of. by rewrite E. Qed.

Lemma amplitude_of_run σ T c i p a :
  list_find (λ e, e.1 = c) T = Some (i, (c, (p, a))) → amplitude_of T c σ = Some (a, σ).
Proof. intros E. unfold amplitude_of. by rewrite E. Qed.

(** A loop whose body computes a function of the untouched part of the
    store computes the map of that function. *)
Lemma mapM_run {A B} (f : A → M B) (g : A → B) (σ0 : store) (cs : list A) :
  (∀ c σ, c ∈ cs → preserves σ0 σ →
     ∃ σ', f c σ = Some (g c, σ') ∧ preserves σ σ') →
  ∀ σ, preserves σ0 σ →
     ∃ σ', mapM f cs σ = Some (g <$> cs, σ') ∧ preserves σ σ'.
Proof.
  induction cs as [|c cs IH]; intros Hf σ Hσ.
  - exists σ. split; [done | apply preserves_refl].
  - destruct (Hf c σ) as (σ1 & Hc & H1); [left | done |].
    destruct (IH (λ c' σ' Hc', Hf c' σ' (list_elem_of_further _ _ _ Hc')) σ1)
      as (σ2 & Hcs & H2); [by eapply preserves_trans|].
    exists σ2. split; [|by eapply preserves_trans].
    simpl. rewrite (bind_run _ _ _ _ _ Hc), (bind_run _ _ _ _ _ Hcs). done.
Qed.

Definition mae_of (σ : store) (Mt Ot : ptable) (c : string) : option R :=
  match columns σ Mt c, columns σ Ot c with
  | Some (pm, _), Some (pn, _) => mae_value pm pn
  | _, _ => None
  end.

Definition mre_of (σ : store) (Mt Ot : ptable) (c : string) : option R :=
  match columns σ Mt c, columns σ Ot c with
  | Some (_, am), Some (_, an) => mre_value am an
  | _, _ => None
  end.

Definition mrmse_of (σ : store) (Mt Ot : ptable) (c : string) : option R :=
  match columns σ Mt c, columns σ Ot c with
  | Some (pm, am), Some (pn, an) => mrmse_value am an pm pn
  | _, _ => None
  end.

Section TidalError.

Variables (σ0 : store) (Mt Ot : ptable).
Hypothesis HM : table_in σ0 Mt.
Hypothesis HO : table_in σ0 Ot.
Hypothesis Hsub : fst <$> Mt ⊆ fst <$> Ot.

(** Both tables looked up in a store that extends [σ0]. *)
Lemma both_tables σ c :
  c ∈ fst <$> Mt → preserves σ0 σ →
  ∃ i j pm am pn an pms ams pns ans,
    list_find (λ e, e.1 = c) Mt = Some (i, (c, (pm, am)))
    ∧ list_find (λ e, e.1 = c) Ot = Some (j, (c, (pn, an)))
    ∧ σ !! pm = Some (Series pms) ∧ σ !! am = Some (Series ams)
    ∧ σ !! pn = Some (Series pns) ∧ σ !! an = Some (Series ans)
    ∧ columns σ0 Mt c = Some (pms, ams) ∧ columns σ0 Ot c = Some (pns, ans).
Proof.
  intros Hc Hσ.
  destruct (table_find σ Mt c (table_in_preserves _ _ _ HM Hσ) Hc)
    as (i & pm & am & pms & ams & E1 & H1 & H2 & C1).
  destruct (table_find σ Ot c (table_in_preserves _ _ _ HO Hσ) (Hsub _ Hc))
    as (j & pn & an & pns & ans & E2 & H3 & H4 & C2).
  rewrite (columns_preserves σ0 σ) in C1, C2 by done.
  by exists i, j, pm, am, pn, an, pms, ams, pns, ans.
Qed.

Lemma mae_body c σ :
  c ∈ fst <$> Mt → preserves σ0 σ →
  ∃ σ', (m ← phase_of Mt c; o ← phase_of Ot c; mae_phase m o) σ
          = Some (mae_of σ0 Mt Ot c, σ') ∧ preserves σ σ'.
Proof.
  intros Hc Hσ.
  destruct (both_tables σ c Hc Hσ)
    as (i & j & pm & am & pn & an & pms & ams & pns & ans
        & E1 & E2 & H1 & H2 & H3 & H4 & C1 & C2).
  rewrite (bind_run _ _ _ _ _ (phase_of_run σ _ _ _ _ _ E1)).
  rewrite (bind_run _ _ _ _ _ (phase_of_run σ _ _ _ _ _ E2)).
  unfold mae_of. rewrite C1, C2. by apply mae_phase_run.
Qed.

Lemma mre_body c σ :
  c ∈ fst <$> Mt → preserves σ0 σ →
  ∃ σ', (m ← amplitude_of Mt c; o ← amplitude_of Ot c; mre m o) σ
          = Some (mre_of σ0 Mt Ot c, σ') ∧ preserves σ σ'.
Proof.
  intros Hc Hσ.
  destruct (both_tables σ c Hc Hσ)
    as (i & j & pm & am & pn & an & pms & ams & pns & ans
        & E1 & E2 & H1 & H2 & H3 & H4 & C1 & C2).
  rewrite (bind_run _ _ _ _ _ (amplitude_of_run σ _ _ _ _ _ E1)).
  rewrite (bind_run _ _ _ _ _ (amplitude_of_run σ _ _ _ _ _ E2)).
  unfold mre_of. rewrite C1, C2. exists σ.
  split; [by apply mre_run | apply preserves_refl].
Qed.

Lemma mrmse_body c σ :
  c ∈ fst <$> Mt → preserves σ0 σ →
  ∃ σ', (am ← amplitude_of Mt c; an ← amplitude_of Ot c;
         pm ← phase_of Mt c; pn ← phase_of Ot c;
         mean_rmse am an pm pn) σ
          = Some (mrmse_of σ0 Mt Ot c, σ') ∧ preserves σ σ'.
Proof.
  intros Hc Hσ.
  destruct (both_tables σ c Hc Hσ)
    as (i & j & pm & am & pn & an & pms & ams & pns & ans
        & E1 & E2 & H1 & H2 & H3 & H4 & C1 & C2).
  rewrite (bind_run _ _ _ _ _ (amplitude_of_run σ _ _ _ _ _ E1)).
  rewrite (bind_run _ _ _ _ _ (amplitude_of_run σ _ _ _ _ _ E2)).
  rewrite (bind_run _ _ _ _ _ (phase_of_run σ _ _ _ _ _ E1)).
  rewrite (bind_run _ _ _ _ _ (phase_of_run σ _ _ _ _ _ E2)).
  unfold mrmse_of. rewrite C1, C2. by apply mean_rmse_run.
Qed.

Lemma stat_rows_zip (g1 g2 g3 : string → option R) (cs : list string) :
  zip_with (λ c '(a, (b, e)), StatRow c a b e) cs
    (zip (g1 <$> cs) (zip (g2 <$> cs) (g3 <$> cs)))
  = (λ c, StatRow c (g1 c) (g2 c) (g3 c)) <$> cs.
Proof.
  induction cs as [|c cs IH]; [done|].
  rewrite !fmap_cons. simpl. f_equal. exact IH.
Qed.

Lemma tidal_error_run :
  ∃ σ', tidal_error Mt Ot σ0
        = Some ((λ c, StatRow c (mae_of σ0 Mt Ot c) (mre_of σ0 Mt Ot c)
                              (mrmse_of σ0 Mt Ot c)) <$> (fst <$> Mt), σ')
        ∧ preserves σ0 σ'.
Proof.
  unfold tidal_error.
  destruct (mapM_run _ (mae_of σ0 Mt Ot) σ0 (fst <$> Mt) mae_body σ0)
    as (σ1 & R1 & P1); [apply preserves_refl|].
  destruct (mapM_run _ (mre_of σ0 Mt Ot) σ0 (fst <$> Mt) mre_body σ1)
    as (σ2 & R2 & P2); [done|].
  destruct (mapM_run _ (mrmse_of σ0 Mt Ot) σ0 (fst <$> Mt) mrmse_body σ2)
    as (σ3 & R3 & P3); [by eapply preserves_trans|].
  rewrite (bind_run _ _ _ _ _ R1), (bind_run _ _ _ _ _ R2), (bind_run _ _ _ _ _ R3).
  rewrite ret_run, stat_rows_zip. exists σ3. split; [done|].
  eapply preserves_trans; [|exact P3]. by eapply preserves_trans.
Qed.

End TidalError.

(** A table as [pivot] builds it: every column is a [Series] of the
    store, and all of them are indexed by the stations of the table, each
    station once. *)
Definition pivot_of (σ : store) (T : ptable) (stations : list string) : Prop :=
  NoDup stations
  ∧ ∀ c p a, (c, (p, a)) ∈ T →
      ∃ ps as', σ !! p = Some (Series ps) ∧ σ !! a = Some (Series as')
                ∧ labels ps = stations ∧ labels as' = stations.

Lemma pivot_of_table_in σ T stations : pivot_of σ T stations → table_in σ T.
Proof.
  intros [_ H] c p a Hc. destruct (H c p a Hc) as (ps & as' & H1 & H2 & _).
  by exists ps, as'.
Qed.

Lemma pivot_of_columns σ T stations c ps as' :
  pivot_of σ T stations → columns σ T c = Some (ps, as') →
  labels ps = stations ∧ labels as' = stations.
Proof.
  intros [_ H]. unfold columns.
  destruct (list_find (λ e, e.1 = c) T) as [[i [c' [p a]]]|] eqn:E; [|done].
  simpl. apply list_find_Some in E as (Hi & _ & _).
  apply list_elem_of_lookup_2 in Hi.
  destruct (H c' p a Hi) as (ps' & as'' & -> & -> & H3 & H4).
  by intros [= <- <-].
Qed.

(** C1 (amended): for two tables as [pivot] builds them, the combined
    amplitude and phase error reported for a constituent is the sum,
    over the stations for which both tables have an amplitude and a
    phase of the constituent, of the square roots of
    [0.5*(A_model^2 + A_obs^2) - A_model*A_obs*cos(pi*dphase/180)], with
    [dphase] the corrected phase difference, divided by the number of
    stations of either table: the root is taken per station, before the
    sum, and a station with a missing value adds nothing to the sum but
    counts in the divisor. *)
Theorem tidal_error_mrmse (σ : store) (Mt Ot : ptable) (SM SO : list string) :
  pivot_of σ Mt SM → pivot_of σ Ot SO → fst <$> Mt ⊆ fst <$> Ot →
  ∃ rows σ',
    tidal_error Mt Ot σ = Some (rows, σ')
    ∧ st_constituent <$> rows = fst <$> Mt
    ∧ ∀ row, row ∈ rows →
        ∃ pm am pn an,
          columns σ Mt (st_constituent row) = Some (pm, am)
          ∧ columns σ Ot (st_constituent row) = Some (pn, an)
          ∧ MRMSE row
            = fdiv (fsum (omap (station_root am an pm pn) (union_labels SM SO)))
                   (INR (length (union_labels SM SO)))
          ∧ (∀ k a b p q,
              at_label am k = Some a → at_label an k = Some b →
              at_label pm k = Some p → at_label pn k = Some q →
              station_root am an pm pn k
              = Some (sqrt (0.5 * (a ^ 2 + b ^ 2)
                            - a * b * cos (PI * corrected (p - q) / 180))))
          ∧ ∀ k,
              at_label am k = None ∨ at_label an k = None
              ∨ at_label pm k = None ∨ at_label pn k = None →
              station_root am an pm pn k = None.
Proof.
  intros HM HO Hsub.
  pose proof (pivot_of_table_in _ _ _ HM) as HM'.
  pose proof (pivot_of_table_in _ _ _ HO) as HO'.
  destruct (tidal_error_run σ Mt Ot HM' HO' Hsub) as (σ' & Hrun & _).
  eexists _, σ'. split; [exact Hrun|]. split.
  - rewrite <- list_fmap_compose. simpl. by rewrite list_fmap_id.
  - intros row Hrow. apply list_elem_of_fmap in Hrow as (c & -> & Hc). simpl.
    destruct (table_find σ Mt c HM' Hc) as (i & pm & am & pms & ams & _ & _ & _ & C1).
    destruct (table_find σ Ot c HO' (Hsub _ Hc))
      as (j & pn & an & pns & ans & _ & _ & _ & C2).
    destruct (pivot_of_columns _ _ _ _ _ _ HM C1) as [Lpm Lam].
    destruct (pivot_of_columns _ _ _ _ _ _ HO C2) as [Lpn Lan].
    exists pms, ams, pns, ans. split; [done|]. split; [done|]. split; [|split].
    + unfold mrmse_of. rewrite C1, C2.
      rewrite mrmse_closed_form; rewrite ?Lpm, ?Lam, ?Lpn, ?Lan;
        first [done | apply HM | apply HO].
    + intros k a b p q Ha Hb Hp Hq. unfold station_root.
      by rewrite Ha, Hb, Hp, Hq.
    + intros k. unfold station_root.
      destruct (at_label ams k), (at_label ans k), (at_label pms k),
        (at_label pns k); simpl; intros [?|[?|[?|?]]]; done.
Qed.

Lemma quarter_turn_tables :
  pivot_of quarter_turn_store [("M2"%string, (3%positive, 1%positive))] two_stations
  ∧ pivot_of quarter_turn_store [("M2"%string, (4%positive, 2%positive))] two_stations.
Proof.
  split; (split; [apply NoDup_two_stations|]);
    intros c p a [= -> -> ->]%list_elem_of_singleton;
    eexists _, _; repeat split; reflexivity.
Qed.

Lemma tidal_error_mrmse_witness :
  let Mt : ptable := [("M2"%string, (3%positive, 1%positive))] in
  let Ot : ptable := [("M2"%string, (4%positive, 2%positive))] in
  (pivot_of quarter_turn_store Mt two_stations
   ∧ pivot_of quarter_turn_store Ot two_stations
   ∧ fst <$> Mt ⊆ fst <$> Ot)
  ∧ ∃ rows σ',
      tidal_error Mt Ot quarter_turn_store = Some (rows, σ')
      ∧ st_constituent <$> rows = ["M2"%string].
Proof.
  intros Mt Ot.
  assert (Hs : fst <$> Mt ⊆ fst <$> Ot) by done.
  split; [split; [apply quarter_turn_tables | split; [apply quarter_turn_tables | done]]|].
  destruct (tidal_error_mrmse quarter_turn_store Mt Ot two_stations two_stations
              (proj1 quarter_turn_tables) (proj2 quarter_turn_tables) Hs)
    as (rows & σ' & Hrun & Hcs & _).
  by exists rows, σ'.
Defined.

(** ** [amplitude_plot] works on copies *)

Lemma lookup_alloc_old (σ : store) l o x :
  σ !! l = Some x → <[fresh (dom σ) := o]> σ !! l = Some x.
Proof.
  intros H. rewrite lookup_insert_ne; [done|].
  intros E. rewrite <- E, fresh_unused in H. done.
Qed.

Lemma select_constituent_run σ df c rows :
  σ !! df = Some (Frame rows) →
  select_constituent df c σ
  = Some (fresh (dom σ),
          <[fresh (dom σ) :=
              Frame (List.filter (λ r, bool_decide (constituent r.2 = c)) rows)]> σ).
Proof.
  intros H. unfold select_constituent.
  rewrite (bind_run _ _ _ _ _ (get_frame_run _ _ _ H)). apply alloc_run.
Qed.

Lemma add_360_where_run σ mask diff F rows :
  σ !! F = Some (Frame rows) →
  add_360_where mask diff F σ
  = Some ((), <[F := Frame (add_360 mask diff rows)]> σ).
Proof.
  intros H. unfold add_360_where.
  rewrite (bind_run _ _ _ _ _ (get_frame_run _ _ _ H)).
  apply set_obj_run. by eexists.
Qed.

(** What one iteration plots, as a function of the two input frames;
    the outer [None] is an exception. *)
Definition plot_of (mrows orows : list (nat * crow)) (c : string)
    : option (option ap_plot) :=
  let m := List.filter (λ r, bool_decide (constituent r.2 = c)) mrows in
  let o := List.filter (λ r, bool_decide (constituent r.2 = c)) orows in
  if bool_decide (m = []) || bool_decide (o = []) then Some None
  else if negb (bool_decide (length m = length o)) then None
  else if bool_decide (length m < 2)%nat then None
  else
    let diff := phase_diff m o in
    Some (Some (ApPlot c
      (zip ((λ r, amplitude r.2) <$> o) ((λ r, amplitude r.2) <$> m))
      (zip ((λ r, phase r.2) <$> add_360 (λ x, bool_decide (x > 180)) diff o)
           ((λ r, phase r.2) <$> add_360 (λ x, bool_decide (x < -180)) diff m)))).

Lemma amplitude_plot_one_run σ0 σ model obs mrows orows c v :
  σ0 !! model = Some (Frame mrows) → σ0 !! obs = Some (Frame orows) →
  preserves σ0 σ → plot_of mrows orows c = Some v →
  ∃ σ', amplitude_plot_one model obs c σ = Some (v, σ') ∧ preserves σ σ'.
Proof.
  intros Hm0 Ho0 Hσ Hv.
  assert (Hm : σ !! model = Some (Frame mrows)) by (rewrite Hσ; [done|by eexists]).
  assert (Ho : σ !! obs = Some (Frame orows)) by (rewrite Hσ; [done|by eexists]).
  unfold amplitude_plot_one, plot_of in *.
  set (m := List.filter (λ r, bool_decide (constituent r.2 = c)) mrows) in *.
  set (o := List.filter (λ r, bool_decide (constituent r.2 = c)) orows) in *.
  rewrite (bind_run _ _ _ _ _ (select_constituent_run _ _ c _ Hm)). fold m.
  set (Mf := fresh (dom σ)). set (σ1 := <[Mf := Frame m]> σ).
  assert (HMf : σ !! Mf = None) by apply fresh_unused.
  rewrite (bind_run _ _ _ _ _
             (select_constituent_run σ1 _ c _ (lookup_alloc_old σ _ _ _ Ho))).
  fold o. set (Of := fresh (dom σ1)). set (σ2 := <[Of := Frame o]> σ1).
  assert (HOf1 : σ1 !! Of = None) by apply fresh_unused.
  assert (HMf1 : σ1 !! Mf = Some (Frame m)) by apply lookup_insert_eq.
  assert (Hne : Mf ≠ Of) by (intros E; rewrite E in HMf1; congruence).
  assert (HOf : σ !! Of = None).
  { unfold σ1 in HOf1. by rewrite lookup_insert_ne in HOf1. }
  assert (HMf2 : σ2 !! Mf = Some (Frame m)) by by apply lookup_alloc_old.
  assert (HOf2 : σ2 !! Of = Some (Frame o)) by apply lookup_insert_eq.
  rewrite (bind_run _ _ _ _ _ (get_frame_run _ _ _ HMf2)).
  rewrite (bind_run _ _ _ _ _ (get_frame_run _ _ _ HOf2)).
  assert (P2 : preserves σ σ2).
  { apply preserves_insert; [done|]. apply preserves_alloc. }
  destruct (bool_decide (m = []) || bool_decide (o = [])).
  { injection Hv as <-. exists σ2. by rewrite ret_run. }
  destruct (negb (bool_decide (length m = length o))); [done|].
  destruct (bool_decide (length m < 2)%nat); [done|].
  injection Hv as <-.
  rewrite (bind_run _ _ _ _ _ (add_360_where_run σ2 _ _ _ _ HMf2)).
  set (m' := add_360 _ _ m). set (σ3 := <[Mf := Frame m']> σ2).
  assert (HOf3 : σ3 !! Of = Some (Frame o)).
  { unfold σ3. by rewrite lookup_insert_ne. }
  rewrite (bind_run _ _ _ _ _ (add_360_where_run σ3 _ _ _ _ HOf3)).
  set (o' := add_360 _ _ o). set (σ4 := <[Of := Frame o']> σ3).
  assert (HMf4 : σ4 !! Mf = Some (Frame m')).
  { unfold σ4, σ3. rewrite lookup_insert_ne by done. apply lookup_insert_eq. }
  assert (HOf4 : σ4 !! Of = Some (Frame o')) by apply lookup_insert_eq.
  rewrite (bind_run _ _ _ _ _ (get_frame_run _ _ _ HMf4)).
  rewrite (bind_run _ _ _ _ _ (get_frame_run _ _ _ HOf4)).
  rewrite ret_run. exists σ4. split; [done|].
  apply preserves_insert; [done|]. by apply preserves_insert.
Qed.

Lemma amplitude_plot_run σ model obs mrows orows :
  σ !! model = Some (Frame mrows) → σ !! obs = Some (Frame orows) →
  (∀ c, c ∈ PLOT_CONSTITUENTS → is_Some (plot_of mrows orows c)) →
  ∃ σ', amplitude_plot model obs σ
        = Some (omap (λ c, default None (plot_of mrows orows c)) PLOT_CONSTITUENTS, σ')
        ∧ preserves σ σ'.
Proof.
  intros Hm Ho Hshape. unfold amplitude_plot.
  assert (Hbody : ∀ c σ1, c ∈ PLOT_CONSTITUENTS → preserves σ σ1 →
    ∃ σ2, amplitude_plot_one model obs c σ1
            = Some (default None (plot_of mrows orows c), σ2)
          ∧ preserves σ1 σ2).
  { intros c σ1 Hc Hσ1. destruct (Hshape c Hc) as [v Hv].
    rewrite Hv. simpl. by eapply amplitude_plot_one_run. }
  destruct (mapM_run _ _ σ PLOT_CONSTITUENTS Hbody σ (preserves_refl σ))
    as (σ' & Hrun & HP).
  exists σ'. split; [|done].
  rewrite (bind_run _ _ _ _ _ Hrun), ret_run. reflexivity.
Qed.

(** The claim that the correction leaves its argument alone fails: the
    series [p] holds 358 before the call and 2 after it. *)
Lemma phase_correct_mutates_argument :
  let σ : store := {[1%positive := Series [("0"%string, Some 358)]]} in
  ∃ σ', phase_correct 1%positive σ = Some (1%positive, σ')
        ∧ σ' !! 1%positive = Some (Series [("0"%string, Some 2)])
        ∧ σ' !! 1%positive ≠ σ !! 1%positive.
Proof.
  intros σ. exists {[1%positive := Series [("0"%string, Some 2)]]}.
  assert (H358 : corrected 358 = 2)
    by (rewrite corrected_outside; rewrite Rabs_right; lra).
  split; [|split].
  - unfold σ. rewrite (phase_correct_run _ _ [("0"%string, Some 358)])
      by apply lookup_singleton_eq.
    rewrite insert_singleton_eq. unfold cmap. simpl. by rewrite H358.
  - apply lookup_singleton_eq.
  - unfold σ. rewrite !lookup_singleton_eq. intros [= H]. lra.
Qed.

(** C9 (amended): the phase correction overwrites its argument in place
    and returns that same object; the constituent-wise statistics, which
    hand it a difference they have just built, and the amplitude/phase
    plots, which work on per-constituent copies, leave every object that
    existed before the call unchanged, their input tables in particular. *)
Theorem stages_preserve_inputs (σ : store) (Mt Ot : ptable) (model obs : ref)
    (mrows orows : list (nat * crow)) :
  table_in σ Mt → table_in σ Ot → fst <$> Mt ⊆ fst <$> Ot →
  σ !! model = Some (Frame mrows) → σ !! obs = Some (Frame orows) →
  (∀ c, c ∈ PLOT_CONSTITUENTS → is_Some (plot_of mrows orows c)) →
  (∀ p xs, σ !! p = Some (Series xs) →
     phase_correct p σ = Some (p, <[p := Series (cmap corrected xs)]> σ))
  ∧ (∃ rows σ', tidal_error Mt Ot σ = Some (rows, σ') ∧ preserves σ σ')
  ∧ (∃ plots σ', amplitude_plot model obs σ = Some (plots, σ') ∧ preserves σ σ').
Proof.
  intros HM HO Hsub Hm Ho Hshape. split; [|split].
  - intros p xs. apply phase_correct_run.
  - destruct (tidal_error_run σ Mt Ot HM HO Hsub) as (σ' & Hrun & HP).
    by eexists _, σ'.
  - destruct (amplitude_plot_run σ model obs mrows orows Hm Ho Hshape)
      as (σ' & Hrun & HP).
    by eexists _, σ'.
Qed.

(** Two stations with their M2 estimates, model and observation. *)
Definition two_station_model : list (nat * crow) :=
  [ (0%nat, CRow "M2" "8720218" 28.98 1 350);
    (1%nat, CRow "M2" "8721604" 28.98 2 10) ].

Definition two_station_obs : list (nat * crow) :=
  [ (0%nat, CRow "M2" "8720218" 28.98 1 5);
    (1%nat, CRow "M2" "8721604" 28.98 2 355) ].

Definition two_station_store : store :=
  <[5%positive := Frame two_station_model]>
    (<[6%positive := Frame two_station_obs]> quarter_turn_store).

Lemma two_station_tables :
  table_in two_station_store [("M2"%string, (3%positive, 1%positive))]
  ∧ table_in two_station_store [("M2"%string, (4%positive, 2%positive))].
Proof.
  split; intros c p a [= -> -> ->]%list_elem_of_singleton;
    eexists _, _; split; reflexivity.
Qed.

Lemma two_station_shape c :
  c ∈ PLOT_CONSTITUENTS → is_Some (plot_of two_station_model two_station_obs c).
Proof.
  unfold PLOT_CONSTITUENTS. intros Hc.
  repeat (apply elem_of_cons in Hc as [-> | Hc]; [by eexists|]).
  by apply elem_of_nil in Hc.
Qed.

Lemma stages_preserve_inputs_witness :
  let Mt : ptable := [("M2"%string, (3%positive, 1%positive))] in
  let Ot : ptable := [("M2"%string, (4%positive, 2%positive))] in
  (table_in two_station_store Mt ∧ table_in two_station_store Ot
   ∧ fst <$> Mt ⊆ fst <$> Ot
   ∧ two_station_store !! 5%positive = Some (Frame two_station_model)
   ∧ two_station_store !! 6%positive = Some (Frame two_station_obs)
   ∧ ∀ c, c ∈ PLOT_CONSTITUENTS →
          is_Some (plot_of two_station_model two_station_obs c))
  ∧ (∃ rows σ', tidal_error Mt Ot two_station_store = Some (rows, σ')
                ∧ preserves two_station_store σ')
  ∧ (∃ plots σ', amplitude_plot 5%positive 6%positive two_station_store
                 = Some (plots, σ')
                ∧ preserves two_station_store σ').
Proof.
  intros Mt Ot.
  assert (Hs : fst <$> Mt ⊆ fst <$> Ot) by done.
  assert (H5 : two_station_store !! 5%positive = Some (Frame two_station_model))
    by reflexivity.
  assert (H6 : two_station_store !! 6%positive = Some (Frame two_station_obs))
    by reflexivity.
  split.
  - split; [apply two_station_tables|]. split; [apply two_station_tables|].
    split; [done|]. split; [done|]. split; [done|]. apply two_station_shape.
  - exact (proj2 (stages_preserve_inputs two_station_store Mt Ot 5%positive 6%positive
             _ _ (proj1 two_station_tables) (proj2 two_station_tables) Hs H5 H6
             two_station_shape)).
Defined.

(** The plots of the two stations: where the phases are more than a
    half turn apart, the smaller one of the copies is raised by 360. *)
Example plot_of_two_stations :
  plot_of two_station_model two_station_obs "M2"
  = Some (Some (ApPlot "M2" [(1, 1); (2, 2)] [(5 + 360, 350); (355, 10 + 360)])).
Proof.
  unfold plot_of, two_station_model, two_station_obs. simpl.
  unfold add_360, phase_diff. simpl.
  rewrite (bool_decide_eq_true_2 (350 - 5 > 180)) by lra.
  rewrite (bool_decide_eq_false_2 (10 - 355 > 180)) by lra.
  rewrite (bool_decide_eq_false_2 (350 - 5 < -180)) by lra.
  rewrite (bool_decide_eq_true_2 (10 - 355 < -180)) by lra.
  reflexivity.
Qed.

(** ** Further properties of the constituent-wise statistics *)

Lemma cos_fold_high x : cos (PI * fold_high x / 180) = cos (PI * x / 180).
Proof.
  unfold fold_high. destruct (decide (x > 180)); [|done].
  replace (PI * (360 - x) / 180) with (2 * PI - PI * x / 180) by field.
  rewrite cos_minus, cos_2PI, sin_2PI. ring.
Qed.

Lemma cos_fold_low x : cos (PI * fold_low x / 180) = cos (PI * x / 180).
Proof.
  unfold fold_low. destruct (decide (x < -180)); [|done].
  replace (PI * (360 + x) / 180) with (PI * x / 180 + 2 * PI) by field.
  rewrite cos_plus, cos_2PI, sin_2PI. ring.
Qed.

(** The correction never changes the cosine of the phase difference. *)
Lemma cos_corrected x : cos (PI * corrected x / 180) = cos (PI * x / 180).
Proof. unfold corrected. by rewrite cos_fold_low, cos_fold_high. Qed.


(** The root of the term of one station, formed with the phase
    difference as it is, not corrected. *)
Definition station_root_raw (am an pm pn : series) (k : string) : cell :=
  a ← at_label am k; b ← at_label an k; p ← at_label pm k; q ← at_label pn k;
  Some (sqrt (0.5 * (a ^ 2 + b ^ 2) - a * b * cos (PI * (p - q) / 180))).

Lemma station_root_raw_eq am an pm pn k :
  station_root am an pm pn k = station_root_raw am an pm pn k.
Proof.
  unfold station_root, station_root_raw.
  destruct (at_label am k) as [a|], (at_label an k) as [b|],
    (at_label pm k) as [p|], (at_label pn k) as [q|]; try done.
  simpl. by rewrite cos_corrected.
Qed.

(** X7: the combined error does not depend on the phase correction: for
    every phase difference, in or out of range, [mean_rmse] on the
    columns of two pivots returns the roots formed with the raw
    difference [Pm - Pn], added up over the stations that have all four
    values and divided by the number of stations of either table. *)
Theorem mean_rmse_ignores_correction (σ : store) (Am An Pm Pn : ref)
    (am an pm pn : series) :
  σ !! Am = Some (Series am) → σ !! An = Some (Series an) →
  σ !! Pm = Some (Series pm) → σ !! Pn = Some (Series pn) →
  labels pm = labels am → labels pn = labels an →
  NoDup (labels am) → NoDup (labels an) →
  ∃ σ', mean_rmse Am An Pm Pn σ
        = Some (fdiv (fsum (omap (station_root_raw am an pm pn)
                              (union_labels (labels am) (labels an))))
                     (INR (length (union_labels (labels am) (labels an)))), σ').
Proof.
  intros HAm HAn HPm HPn Lm Ln Dm Dn.
  destruct (mean_rmse_run σ Am An Pm Pn am an pm pn HAm HAn HPm HPn)
    as (σ' & Hrun & _).
  exists σ'. rewrite Hrun, mrmse_closed_form by done. do 4 f_equal.
  apply omap_ext_in. intros k _. apply station_root_raw_eq.
Qed.

(** Phases more than a half turn apart, 350 against 5 and 10 against
    355, with a station that has no value in the observation. *)
Definition wrapped_store : store :=
  <[1%positive := Series (on_stations (Some 1) (Some 3))]>
  (<[2%positive := Series (on_stations (Some 1) None)]>
  (<[3%positive := Series (on_stations (Some 350) (Some 10))]>
  (<[4%positive := Series (on_stations (Some 5) None)]> ∅))).

Lemma mean_rmse_ignores_correction_witness :
  (wrapped_store !! 1%positive = Some (Series (on_stations (Some 1) (Some 3)))
   ∧ wrapped_store !! 2%positive = Some (Series (on_stations (Some 1) None))
   ∧ wrapped_store !! 3%positive = Some (Series (on_stations (Some 350) (Some 10)))
   ∧ wrapped_store !! 4%positive = Some (Series (on_stations (Some 5) None))
   ∧ labels (on_stations (Some 350) (Some 10)) = labels (on_stations (Some 1) (Some 3))
   ∧ labels (on_stations (Some 5) None) = labels (on_stations (Some 1) None)
   ∧ NoDup (labels (on_stations (Some 1) (Some 3)))
   ∧ NoDup (labels (on_stations (Some 1) None)))
  ∧ ∃ σ', mean_rmse 1%positive 2%positive 3%positive 4%positive wrapped_store
          = Some (fdiv (fsum (omap (station_root_raw
                                      (on_stations (Some 1) (Some 3))
                                      (on_stations (Some 1) None)
                                      (on_stations (Some 350) (Some 10))
                                      (on_stations (Some 5) None))
                                   two_stations))
                       (INR (length two_stations)), σ').
Proof.
  assert (H1 : wrapped_store !! 1%positive = Some (Series (on_stations (Some 1) (Some 3))))
    by reflexivity.
  assert (H2 : wrapped_store !! 2%positive = Some (Series (on_stations (Some 1) None)))
    by reflexivity.
  assert (H3 : wrapped_store !! 3%positive
               = Some (Series (on_stations (Some 350) (Some 10)))) by reflexivity.
  assert (H4 : wrapped_store !! 4%positive = Some (Series (on_stations (Some 5) None)))
    by reflexivity.
  assert (H5 : labels (on_stations (Some 350) (Some 10))
               = labels (on_stations (Some 1) (Some 3))) by reflexivity.
  assert (H6 : labels (on_stations (Some 5) None) = labels (on_stations (Some 1) None))
    by reflexivity.
  assert (H7 : NoDup (labels (on_stations (Some 1) (Some 3))))
    by apply NoDup_two_stations.
  assert (H8 : NoDup (labels (on_stations (Some 1) None)))
    by apply NoDup_two_stations.
  split; [exact (conj H1 (conj H2 (conj H3 (conj H4 (conj H5 (conj H6 (conj H7 H8)))))))|].
  destruct (mean_rmse_ignores_correction wrapped_store _ _ _ _ _ _ _ _
              H1 H2 H3 H4 H5 H6 H7 H8) as [σ' Hrun].
  exists σ'. rewrite Hrun, !labels_on_stations, union_labels_same. done.
Defined.

Lemma mapM_raises {A B} (f : A → M B) (cs : list A) c :
  c ∈ cs → (∀ σ, f c σ = None) → ∀ σ, mapM f cs σ = None.
Proof.
  intros Hc Hf. induction cs as [|c' cs IH]; intros σ; [by apply elem_of_nil in Hc|].
  simpl. apply elem_of_cons in Hc as [<-|Hc].
  - by apply bind_raise.
  - destruct (f c' σ) as [[b σ']|] eqn:E; [|by apply bind_raise].
    rewrite (bind_run _ _ _ _ _ E). apply bind_raise. by apply IH.
Qed.

(** X8: a constituent of the model table that the observation table
    lacks makes [tidal_error] raise ([KeyError]), whatever the other
    columns hold. *)
Theorem tidal_error_missing_column (σ : store) (Mt Ot : ptable) (c : string) :
  c ∈ fst <$> Mt → c ∉ fst <$> Ot → tidal_error Mt Ot σ = None.
Proof.
  intros HM HO. unfold tidal_error. apply bind_raise.
  eapply mapM_raises; [exact HM|]. intros σ1.
  assert (Hfind : list_find (λ e : string * (ref * ref), e.1 = c) Ot = None).
  { apply list_find_None, Forall_forall. intros e He Hc. apply HO.
    rewrite <- Hc. by apply list_elem_of_fmap_2. }
  destruct (phase_of Mt c σ1) as [[p σ2]|] eqn:E; [|by apply bind_raise].
  rewrite (bind_run _ _ _ _ _ E). apply bind_raise.
  unfold phase_of. by rewrite Hfind.
Qed.

Lemma tidal_error_missing_column_witness :
  ("K2"%string ∈ fst <$> [("M2"%string, (3%positive, 1%positive));
                          ("K2"%string, (3%positive, 1%positive))]
   ∧ "K2"%string ∉ fst <$> [("M2"%string, (4%positive, 2%positive))])
  ∧ tidal_error [("M2"%string, (3%positive, 1%positive));
                 ("K2"%string, (3%positive, 1%positive))]
                [("M2"%string, (4%positive, 2%positive))] quarter_turn_store = None.
Proof.
  assert (H1 : "K2"%string ∈ fst <$> [("M2"%string, (3%positive, 1%positive));
                                      ("K2"%string, (3%positive, 1%positive))])
    by (right; left).
  assert (H2 : "K2"%string ∉ fst <$> [("M2"%string, (4%positive, 2%positive))]).
  { intros H. apply list_elem_of_singleton in H. discriminate. }
  split; [by split|].
  exact (tidal_error_missing_column quarter_turn_store _ _ "K2" H1 H2).
Defined.


Lemma corrected_0 : corrected 0 = 0.
Proof. apply corrected_inside. lra. Qed.

Lemma corrected_magnitude_sym x :
  Rabs x <= 360 → Rabs (corrected (- x)) = Rabs (corrected x).
Proof.
  intros H. rewrite !corrected_magnitude by (rewrite ?Rabs_Ropp; done).
  by rewrite Rabs_Ropp.
Qed.

Lemma corrected_magnitude_bound x : Rabs x <= 360 → 0 <= Rabs (corrected x) <= 180.
Proof.
  intros H. split; [apply Rabs_pos|]. rewrite corrected_magnitude by done.
  unfold Rmin. destruct (Rle_dec (Rabs x) (360 - Rabs x)); lra.
Qed.

(** The absolute corrected phase difference of one station: [nan]
    unless both columns have a phase for the station. *)
Definition station_phase_error (model obs : series) (k : string) : cell :=
  o ← at_label obs k; m ← at_label model k; Some (Rabs (corrected (o - m))).

Lemma at_label_phase_error model obs k :
  at_label (cmap Rabs (cmap corrected (binop Rminus obs model))) k
  = station_phase_error model obs k.
Proof.
  rewrite !at_label_cmap, at_label_binop. unfold station_phase_error.
  by destruct (at_label obs k), (at_label model k).
Qed.

(** The value of [mae_phase] in closed form. *)
Lemma mae_closed_form model obs :
  NoDup (labels model) → NoDup (labels obs) →
  mae_value model obs
  = fdiv (fsum (omap (station_phase_error model obs)
                  (union_labels (labels obs) (labels model))))
         (INR (length (union_labels (labels obs) (labels model)))).
Proof.
  intros Dm Do. unfold mae_value.
  assert (Hl : labels (cmap Rabs (cmap corrected (binop Rminus obs model)))
               = union_labels (labels obs) (labels model))
    by (by rewrite !labels_cmap, labels_binop).
  rewrite cells_at_label by (rewrite Hl; by apply NoDup_union_labels).
  rewrite <- (length_labels (cmap Rabs _)), Hl.
  rewrite present_fmap. do 2 f_equal.
  apply omap_ext_in. intros k _. apply at_label_phase_error.
Qed.

Lemma fsum_perm (l k : column) : l ≡ₚ k → fsum l = fsum k.
Proof.
  induction 1 as [|x l k _ IH|x y l|l k m _ IH1 _ IH2].
  - done.
  - by rewrite !fsum_cons, IH.
  - rewrite !fsum_cons. lra.
  - by rewrite IH1.
Qed.

Lemma union_labels_comm a b :
  NoDup a → NoDup b → union_labels a b ≡ₚ union_labels b a.
Proof.
  intros Ha Hb. apply NoDup_Permutation; [by apply NoDup_union_labels..|].
  intros k. rewrite !elem_of_union_labels. tauto.
Qed.

Lemma find_label_elem {C} (s : list (string * C)) k v :
  find_label s k = Some v → (k, v) ∈ s.
Proof.
  induction s as [|[k' v'] s IH]; [done|]. simpl.
  destruct (decide (k' = k)) as [->|_].
  - intros [= ->]. left.
  - intros H. right. by apply IH.
Qed.

Lemma at_label_elem (s : series) k x : at_label s k = Some x → (k, Some x) ∈ s.
Proof.
  unfold at_label. destruct (find_label s k) as [v|] eqn:E; [|done].
  intros ->. by apply find_label_elem.
Qed.

Lemma mean_of_bounded (l : column) (n : nat) hi e :
  0 <= hi → Forall (λ v, 0 <= v <= hi) l → (length l <= n)%nat →
  fdiv (fsum l) (INR n) = Some e → 0 <= e <= hi.
Proof.
  intros Hhi Hall Hlen He.
  assert (Hne : INR n ≠ 0).
  { intros H0. apply (fdiv_None (fsum l)) in H0. congruence. }
  rewrite fdiv_Some in He by done. injection He as <-.
  assert (Hn : 0 < INR n) by (pose proof (pos_INR n); lra).
  assert (Hs : 0 <= fsum l <= hi * INR (length l)).
  { clear Hlen Hne Hn. induction Hall as [|x l Hx Hall IH].
    - simpl. rewrite fsum_nil. lra.
    - rewrite fsum_cons, length_cons, S_INR. lra. }
  assert (Hle : INR (length l) <= INR n) by by apply le_INR.
  split.
  - apply Rmult_le_reg_r with (INR n); [done|]. unfold Rdiv.
    rewrite Rmult_assoc, Rinv_l by done. lra.
  - apply Rmult_le_reg_r with (INR n); [done|]. unfold Rdiv.
    rewrite Rmult_assoc, Rinv_l by done. nra.
Qed.

Lemma length_omap_le {A B} (f : A → option B) (l : list A) :
  (length (omap f l) <= length l)%nat.
Proof.
  induction l as [|x l IH]; [done|]. cbn [omap list_omap].
  destruct (f x); cbn [length]; fold (omap f l); lia.
Qed.

Section PhaseRange.

Variables xs ys : series.
Hypothesis Hx : Forall (λ e : string * cell, ∀ v, e.2 = Some v → 0 <= v <= 360) xs.
Hypothesis Hy : Forall (λ e : string * cell, ∀ v, e.2 = Some v → 0 <= v <= 360) ys.

Lemma phase_in_range (s : series) k v :
  Forall (λ e : string * cell, ∀ v, e.2 = Some v → 0 <= v <= 360) s →
  at_label s k = Some v → 0 <= v <= 360.
Proof.
  intros Hs Hv. apply at_label_elem in Hv. rewrite Forall_forall in Hs.
  by apply (Hs _ Hv).
Qed.

Lemma station_phase_error_sym k :
  station_phase_error xs ys k = station_phase_error ys xs k.
Proof.
  unfold station_phase_error.
  destruct (at_label ys k) as [y|] eqn:Ey, (at_label xs k) as [x|] eqn:Ex; try done.
  simpl. f_equal. pose proof (phase_in_range xs k x Hx Ex).
  pose proof (phase_in_range ys k y Hy Ey).
  replace (y - x) with (- (x - y)) by lra. apply corrected_magnitude_sym.
  unfold Rabs. destruct (Rcase_abs (x - y)); lra.
Qed.

Lemma station_phase_error_bound k e :
  station_phase_error xs ys k = Some e → 0 <= e <= 180.
Proof.
  unfold station_phase_error.
  destruct (at_label ys k) as [y|] eqn:Ey, (at_label xs k) as [x|] eqn:Ex; try done.
  simpl. intros [= <-]. pose proof (phase_in_range xs k x Hx Ex).
  pose proof (phase_in_range ys k y Hy Ey).
  apply corrected_magnitude_bound. unfold Rabs. destruct (Rcase_abs (y - x)); lra.
Qed.

End PhaseRange.

(** X9: for phases within [[0, 360]], in columns whose labels are
    distinct, the mean absolute phase error does not depend on which
    column is passed as the model, and it lies between 0 and 180
    degrees. *)
Theorem mae_phase_symmetric (σ : store) (model obs : ref) (xs ys : series) :
  σ !! model = Some (Series xs) → σ !! obs = Some (Series ys) →
  NoDup (labels xs) → NoDup (labels ys) →
  Forall (λ e : string * cell, ∀ v, e.2 = Some v → 0 <= v <= 360) xs →
  Forall (λ e : string * cell, ∀ v, e.2 = Some v → 0 <= v <= 360) ys →
  ∃ v σ1 σ2,
    mae_phase model obs σ = Some (v, σ1)
    ∧ mae_phase obs model σ = Some (v, σ2)
    ∧ ∀ e, v = Some e → 0 <= e <= 180.
Proof.
  intros Hm Ho Dx Dy Hx Hy.
  destruct (mae_phase_run σ model obs xs ys Hm Ho) as (σ1 & H1 & _).
  destruct (mae_phase_run σ obs model ys xs Ho Hm) as (σ2 & H2 & _).
  exists (mae_value xs ys), σ1, σ2. split; [done|]. split.
  - rewrite H2. do 2 f_equal. rewrite !mae_closed_form by done.
    rewrite (omap_ext_in (station_phase_error ys xs) (station_phase_error xs ys))
      by (intros k _; symmetry; by apply station_phase_error_sym).
    rewrite (fsum_perm _ _ (omap_Permutation _ _ _ (union_labels_comm _ _ Dx Dy))).
    by rewrite (Permutation_length (union_labels_comm _ _ Dx Dy)).
  - intros e He. rewrite mae_closed_form in He by done.
    eapply mean_of_bounded; [| | |exact He]; [lra| |].
    + apply Forall_forall. intros v Hv.
      apply list_elem_of_omap in Hv as (k & _ & Hk).
      split; [|pose proof (station_phase_error_bound xs ys Hx Hy k v Hk); lra].
      apply (station_phase_error_bound xs ys Hx Hy k v Hk).
    + apply length_omap_le.
Qed.

Lemma mae_phase_symmetric_witness :
  let xs : series := on_stations (Some 359) (Some 10) in
  let ys : series := on_stations (Some 1) None in
  let σ : store := <[1%positive := Series xs]> {[2%positive := Series ys]} in
  (σ !! 1%positive = Some (Series xs)
   ∧ σ !! 2%positive = Some (Series ys)
   ∧ NoDup (labels xs) ∧ NoDup (labels ys)
   ∧ Forall (λ e : string * cell, ∀ v, e.2 = Some v → 0 <= v <= 360) xs
   ∧ Forall (λ e : string * cell, ∀ v, e.2 = Some v → 0 <= v <= 360) ys)
  ∧ ∃ v σ1 σ2,
      mae_phase 1%positive 2%positive σ = Some (v, σ1)
      ∧ mae_phase 2%positive 1%positive σ = Some (v, σ2)
      ∧ ∀ e, v = Some e → 0 <= e <= 180.
Proof.
  intros xs ys σ.
  assert (H1 : σ !! 1%positive = Some (Series xs)) by reflexivity.
  assert (H2 : σ !! 2%positive = Some (Series ys)) by reflexivity.
  assert (H3 : NoDup (labels xs)) by apply NoDup_two_stations.
  assert (H4 : NoDup (labels ys)) by apply NoDup_two_stations.
  assert (H5 : Forall (λ e : string * cell, ∀ v, e.2 = Some v → 0 <= v <= 360) xs).
  { unfold xs, on_stations.
    repeat (apply Forall_cons; split;
            [simpl; intros x Hx; first [done | injection Hx as <-; lra]|]).
    constructor. }
  assert (H6 : Forall (λ e : string * cell, ∀ v, e.2 = Some v → 0 <= v <= 360) ys).
  { unfold ys, on_stations.
    repeat (apply Forall_cons; split;
            [simpl; intros x Hx; first [done | injection Hx as <-; lra]|]).
    constructor. }
  split; [exact (conj H1 (conj H2 (conj H3 (conj H4 (conj H5 H6)))))|].
  exact (mae_phase_symmetric σ _ _ _ _ H1 H2 H3 H4 H5 H6).
Defined.


(** ** Identical tables *)

Lemma cells_align_with_same {C} (g : cell → cell → C) (a b : series) :
  labels a = labels b → cells (align_with g a b) = zip_with g (cells a) (cells b).
Proof.
  intros E. unfold align_with. rewrite decide_True by done. clear E.
  unfold cells. revert b. induction a as [|x a IH]; intros [|y b]; try done.
  cbn [zip_with fmap list_fmap]. f_equal. apply IH.
Qed.

Lemma cells_binop_same f (a b : series) :
  labels a = labels b → cells (binop f a b) = zip_with (lift2 f) (cells a) (cells b).
Proof. apply cells_align_with_same. Qed.

Lemma length_binop_same f (a : series) : length (binop f a a) = length a.
Proof.
  unfold binop. by rewrite length_align_with, union_labels_same, length_labels.
Qed.

(** A cell that is [nan] or 0. *)
Definition zero_or_nan (c : cell) : Prop := c = None ∨ c = Some 0.

Lemma fsum_present_zero cs : Forall zero_or_nan cs → fsum (present cs) = 0.
Proof.
  induction 1 as [|c cs [->| ->] _ IH]; [done|exact IH|].
  change (present (Some 0 :: cs)) with (0 :: present cs).
  rewrite fsum_cons, IH. lra.
Qed.

Lemma mean_zero_cells cs (n : nat) :
  Forall zero_or_nan cs → n ≠ 0%nat → fdiv (fsum (present cs)) (INR n) = Some 0.
Proof.
  intros Hz Hn. rewrite fsum_present_zero by done.
  rewrite fdiv_Some by by apply not_0_INR. f_equal. unfold Rdiv. apply Rmult_0_l.
Qed.

Lemma length_ne_0 {A} (l : list A) : l ≠ [] → length l ≠ 0%nat.
Proof. by destruct l. Qed.

Lemma mae_value_same xs : xs ≠ [] → mae_value xs xs = Some 0.
Proof.
  intros Hne. unfold mae_value.
  rewrite !length_cmap, length_binop_same.
  apply mean_zero_cells; [|by apply length_ne_0].
  rewrite !cells_cmap, cells_binop_same by done. clear Hne.
  induction (cells xs) as [|[x|] cs IH]; constructor; try done.
  - right. simpl. replace (x - x) with 0 by lra. by rewrite corrected_0, Rabs_R0.
  - by left.
Qed.

Lemma sum_skipna_diag (cs : list cell) :
  sum_skipna (zip_with cell_div
                ((λ c : cell, Rabs <$> c) <$> zip_with (lift2 Rminus) cs cs) cs)
  = Some 0.
Proof.
  induction cs as [|[x|] cs IH]; [done| |exact IH].
  set (rest := zip_with cell_div
                 ((λ c : cell, Rabs <$> c) <$> zip_with (lift2 Rminus) cs cs) cs) in *.
  change (sum_skipna (cell_div (Some (Rabs (x - x))) (Some x) :: rest) = Some 0).
  replace (x - x) with 0 by lra. rewrite Rabs_R0. unfold cell_div.
  destruct (decide (x = 0)).
  - rewrite decide_True by done. exact IH.
  - change (sum_skipna rest ≫= (λ s, Some (0 / x + s)) = Some 0).
    rewrite IH. simpl. f_equal. unfold Rdiv. lra.
Qed.

Lemma mre_value_same xs : xs ≠ [] → mre_value xs xs = Some 0.
Proof.
  intros Hne. unfold mre_value.
  assert (Hl : labels (cmap Rabs (binop Rminus xs xs)) = labels xs)
    by (by rewrite labels_cmap, labels_binop, union_labels_same).
  rewrite cells_align_with_same, cells_cmap, cells_binop_same by done.
  rewrite sum_skipna_diag. simpl.
  rewrite length_align_with, Hl, union_labels_same, length_labels.
  rewrite fdiv_Some by by apply INR_length_ne_0.
  f_equal. unfold Rdiv. apply Rmult_0_l.
Qed.

Lemma vector_term_same a : vector_term a a 0 = 0.
Proof.
  unfold vector_term. replace (PI * 0 / 180) with 0 by lra. rewrite cos_0. lra.
Qed.

Lemma vector_cells_same (A P : list cell) :
  Forall zero_or_nan
    (csqrt <$> zip_with (lift2 Rminus)
       ((λ c : cell, Rmult 0.5 <$> c)
          <$> zip_with (lift2 Rplus) ((λ c : cell, (λ x, x ^ 2) <$> c) <$> A)
                ((λ c : cell, (λ x, x ^ 2) <$> c) <$> A))
       (zip_with (lift2 Rmult) (zip_with (lift2 Rmult) A A)
          ((λ c : cell, cos <$> c)
             <$> ((λ c : cell, (λ x, PI * x / 180) <$> c)
                    <$> ((λ c : cell, corrected <$> c)
                           <$> zip_with (lift2 Rminus) P P))))).
Proof.
  revert P. induction A as [|a A IH]; intros [|p P]; try by constructor.
  rewrite !fmap_cons. cbn [zip_with]. rewrite !fmap_cons. cbn [zip_with].
  rewrite fmap_cons. constructor; [|apply IH].
  destruct a as [a|], p as [p|]; try by left.
  right. cbn [lift2 fmap option_fmap option_map].
  replace (p - p) with 0 by lra. rewrite corrected_0.
  change (0.5 * (a ^ 2 + a ^ 2) - a * a * cos (PI * 0 / 180))
    with (vector_term a a 0).
  rewrite vector_term_same. unfold csqrt.
  destruct (decide (0 < 0)) as [H|_]; [lra|]. by rewrite ?sqrt_0.
Qed.

Lemma mrmse_value_same (as' ps : series) :
  as' ≠ [] → labels ps = labels as' → mrmse_value as' as' ps ps = Some 0.
Proof.
  intros Hne Hl. unfold mrmse_value.
  assert (L1 : labels (cmap (Rmult 0.5)
                 (binop Rplus (cmap (λ x, x ^ 2) as') (cmap (λ x, x ^ 2) as')))
               = labels as')
    by (by rewrite labels_cmap, labels_binop, !labels_cmap, union_labels_same).
  assert (L2 : labels (cmap cos (cmap (λ x, PI * x / 180)
                 (cmap corrected (binop Rminus ps ps)))) = labels as')
    by (by rewrite !labels_cmap, labels_binop, union_labels_same).
  assert (L3 : labels (binop Rmult (binop Rmult as' as')
                 (cmap cos (cmap (λ x, PI * x / 180)
                    (cmap corrected (binop Rminus ps ps))))) = labels as')
    by (by rewrite labels_binop, L2, labels_binop, !union_labels_same).
  assert (Hlen : length (vector_terms as' as' ps ps) = length as').
  { rewrite <- length_labels. unfold vector_terms.
    by rewrite labels_binop, L1, L3, union_labels_same, length_labels. }
  rewrite Hlen. apply mean_zero_cells; [|by apply length_ne_0].
  unfold vector_terms.
  rewrite cells_binop_same by by rewrite L1, L3.
  rewrite cells_cmap, cells_binop_same by by rewrite !labels_cmap.
  rewrite !cells_cmap.
  rewrite (cells_binop_same Rmult (binop Rmult as' as'))
    by by rewrite L2, labels_binop, union_labels_same.
  rewrite !cells_cmap, !cells_binop_same by done.
  apply vector_cells_same.
Qed.

(** X10: when the observation table holds, constituent by constituent,
    the same phase and amplitude columns as the model table, the two
    columns of a constituent having the same stations, at least one,
    every reported statistic is 0: MAE, MRE and MRMSE, also with
    stations that have no value for a constituent. *)
Theorem tidal_error_identical (σ : store) (Mt Ot : ptable) :
  table_in σ Mt → table_in σ Ot → fst <$> Mt ⊆ fst <$> Ot →
  (∀ c, c ∈ fst <$> Mt →
     columns σ Mt c = columns σ Ot c
     ∧ ∀ ps as', columns σ Mt c = Some (ps, as') →
         as' ≠ [] ∧ labels ps = labels as') →
  ∃ rows σ',
    tidal_error Mt Ot σ = Some (rows, σ')
    ∧ st_constituent <$> rows = fst <$> Mt
    ∧ ∀ row, row ∈ rows →
        MAE row = Some 0 ∧ MRE row = Some 0 ∧ MRMSE row = Some 0.
Proof.
  intros HM HO Hsub Hsame.
  destruct (tidal_error_run σ Mt Ot HM HO Hsub) as (σ' & Hrun & _).
  eexists _, σ'. split; [exact Hrun|]. split.
  - rewrite <- list_fmap_compose. simpl. by rewrite list_fmap_id.
  - intros row Hrow. apply list_elem_of_fmap in Hrow as (c & -> & Hc). simpl.
    destruct (Hsame c Hc) as [Heq Hne].
    destruct (table_find σ Mt c HM Hc) as (i & pm & am & pms & ams & _ & _ & _ & C1).
    destruct (Hne _ _ C1) as [Ha Hl].
    assert (Hp : pms ≠ []).
    { intros ->. destruct ams; [done|]. discriminate Hl. }
    unfold mae_of, mre_of, mrmse_of. rewrite <- Heq, C1.
    split; [by apply mae_value_same|]. split; [by apply mre_value_same|].
    by apply mrmse_value_same.
Qed.

(** A table whose second station has no amplitude. *)
Definition missing_cell_store : store :=
  <[1%positive := Series (on_stations (Some 1) None)]>
  (<[3%positive := Series (on_stations (Some 90) (Some 10))]> ∅).

Lemma tidal_error_identical_witness :
  let Mt : ptable := [("M2"%string, (3%positive, 1%positive))] in
  let Ot : ptable := [("M2"%string, (3%positive, 1%positive))] in
  (table_in missing_cell_store Mt ∧ table_in missing_cell_store Ot
   ∧ fst <$> Mt ⊆ fst <$> Ot
   ∧ ∀ c, c ∈ fst <$> Mt →
       columns missing_cell_store Mt c = columns missing_cell_store Ot c
       ∧ ∀ ps as', columns missing_cell_store Mt c = Some (ps, as') →
                   as' ≠ [] ∧ labels ps = labels as')
  ∧ ∃ rows σ',
      tidal_error Mt Ot missing_cell_store = Some (rows, σ')
      ∧ st_constituent <$> rows = fst <$> Mt
      ∧ ∀ row, row ∈ rows →
          MAE row = Some 0 ∧ MRE row = Some 0 ∧ MRMSE row = Some 0.
Proof.
  intros Mt Ot.
  assert (H1 : table_in missing_cell_store Mt).
  { intros c p a [= -> -> ->]%list_elem_of_singleton.
    eexists _, _; split; reflexivity. }
  assert (H2 : table_in missing_cell_store Ot) by exact H1.
  assert (H3 : fst <$> Mt ⊆ fst <$> Ot) by done.
  assert (H4 : ∀ c, c ∈ fst <$> Mt →
       columns missing_cell_store Mt c = columns missing_cell_store Ot c
       ∧ ∀ ps as', columns missing_cell_store Mt c = Some (ps, as') →
                   as' ≠ [] ∧ labels ps = labels as').
  { intros c ->%list_elem_of_singleton. split; [reflexivity|].
    intros ps as' [= <- <-]. by split. }
  split; [exact (conj H1 (conj H2 (conj H3 H4)))|].
  exact (tidal_error_identical missing_cell_store Mt Ot H1 H2 H3 H4).
Defined.

(** ** The phase scatter plot *)

Lemma list_find_label (l : list (nat * crow)) k r :
  NoDup (fst <$> l) → l !! k = Some r →
  list_find (λ e, e.1 = r.1) l = Some (k, r).
Proof.
  intros Hnd Hk. apply list_find_Some. split; [done|]. split; [done|].
  intros j y Hj Hlt Hy.
  assert (E1 : (fst <$> l) !! j = Some y.1) by (by rewrite list_lookup_fmap, Hj).
  assert (E2 : (fst <$> l) !! k = Some r.1) by (by rewrite list_lookup_fmap, Hk).
  rewrite Hy in E1. pose proof (NoDup_lookup _ _ _ _ Hnd E1 E2). lia.
Qed.

Lemma filter_same_labels (c : string) (m o : list (nat * crow)) :
  (λ r, (r.1, constituent r.2)) <$> m = (λ r, (r.1, constituent r.2)) <$> o →
  fst <$> List.filter (λ r, bool_decide (constituent r.2 = c)) m
  = fst <$> List.filter (λ r, bool_decide (constituent r.2 = c)) o.
Proof.
  revert o. induction m as [|x m IH]; intros [|y o] H; try done.
  rewrite !fmap_cons in H. injection H as H1 H2 H3. simpl.
  rewrite H2. destruct (bool_decide (constituent y.2 = c)).
  - rewrite !fmap_cons. f_equal; [done|]. by apply IH.
  - by apply IH.
Qed.

Lemma add_360_lookup mask diff rows k r :
  rows !! k = Some r →
  ((λ r : nat * crow, phase r.2) <$> add_360 mask diff rows) !! k
  = Some (match diff r.1 with
          | Some dv => if mask dv then phase r.2 + 360 else phase r.2
          | None => phase r.2
          end).
Proof.
  intros H. unfold add_360. rewrite !list_lookup_fmap, H. simpl.
  destruct (diff r.1) as [dv|]; [|done]. by destruct (mask dv).
Qed.

Lemma half_turn_pairs (m o : list (nat * crow)) po pm :
  fst <$> m = fst <$> o → NoDup (fst <$> m) →
  (∀ r, r ∈ m ++ o → 0 <= phase r.2 <= 360) →
  (po, pm) ∈ zip ((λ r, phase r.2) <$> add_360 (λ x, bool_decide (x > 180)) (phase_diff m o) o)
                 ((λ r, phase r.2) <$> add_360 (λ x, bool_decide (x < -180)) (phase_diff m o) m) →
  Rabs (pm - po) <= 180 ∧ 0 <= po <= 540 ∧ 0 <= pm <= 540.
Proof.
  intros Hlab Hnd Hrange Hin.
  apply list_elem_of_lookup_1 in Hin as [k Hk].
  apply lookup_zip_with_Some in Hk as (po' & pm' & [= <- <-] & Ho & Hm).
  destruct (o !! k) as [ro|] eqn:Eo;
    [|by rewrite list_lookup_fmap in Ho; unfold add_360 in Ho;
         rewrite list_lookup_fmap, Eo in Ho].
  destruct (m !! k) as [rm|] eqn:Em;
    [|by rewrite list_lookup_fmap in Hm; unfold add_360 in Hm;
         rewrite list_lookup_fmap, Em in Hm].
  rewrite (add_360_lookup _ _ _ _ _ Eo) in Ho.
  rewrite (add_360_lookup _ _ _ _ _ Em) in Hm.
  assert (Hi : rm.1 = ro.1).
  { assert (E1 : (fst <$> m) !! k = Some rm.1) by (by rewrite list_lookup_fmap, Em).
    assert (E2 : (fst <$> o) !! k = Some ro.1) by (by rewrite list_lookup_fmap, Eo).
    rewrite Hlab in E1. congruence. }
  assert (Hd : phase_diff m o rm.1 = Some (phase rm.2 - phase ro.2)).
  { unfold phase_diff. rewrite (list_find_label m k rm Hnd Em). simpl.
    assert (Hndo : NoDup (fst <$> o)) by (by rewrite <- Hlab).
    rewrite Hi, (list_find_label o k ro Hndo Eo). done. }
  rewrite <- Hi, Hd in Ho. rewrite Hd in Hm.
  assert (Hrm : 0 <= phase rm.2 <= 360).
  { apply Hrange, elem_of_app. left. by eapply list_elem_of_lookup_2. }
  assert (Hro : 0 <= phase ro.2 <= 360).
  { apply Hrange, elem_of_app. right. by eapply list_elem_of_lookup_2. }
  injection Ho as <-. injection Hm as <-.
  destruct (bool_decide_reflect (phase rm.2 - phase ro.2 > 180));
    destruct (bool_decide_reflect (phase rm.2 - phase ro.2 < -180));
    (split; [apply Rabs_le|]); lra.
Qed.

(** X11: when the two frames list the same stations under the same row
    labels, the labels are distinct, the phases lie in [[0, 360]] and no
    plotted constituent has a single station, the plots are produced,
    and in every phase plot the two coordinates of a point are at most a
    half turn apart and within [[0, 540]]. *)
Theorem amplitude_plot_half_turn (σ : store) (model obs : ref)
    (mrows orows : list (nat * crow)) :
  σ !! model = Some (Frame mrows) → σ !! obs = Some (Frame orows) →
  (λ r, (r.1, constituent r.2)) <$> mrows = (λ r, (r.1, constituent r.2)) <$> orows →
  NoDup (fst <$> mrows) →
  (∀ r, r ∈ mrows ++ orows → 0 <= phase r.2 <= 360) →
  (∀ c, c ∈ PLOT_CONSTITUENTS →
     length (List.filter (λ r, bool_decide (constituent r.2 = c)) mrows) ≠ 1%nat) →
  ∃ plots σ',
    amplitude_plot model obs σ = Some (plots, σ')
    ∧ ∀ p po pm, p ∈ plots → (po, pm) ∈ ap_phase p →
        Rabs (pm - po) <= 180 ∧ 0 <= po <= 540 ∧ 0 <= pm <= 540.
Proof.
  intros Hm Ho Hlab Hnd Hrange Hcount.
  assert (Hfl : ∀ c,
    fst <$> List.filter (λ r, bool_decide (constituent r.2 = c)) mrows
    = fst <$> List.filter (λ r, bool_decide (constituent r.2 = c)) orows)
    by (intros c; by apply filter_same_labels).
  assert (Hlen : ∀ c,
    length (List.filter (λ r, bool_decide (constituent r.2 = c)) mrows)
    = length (List.filter (λ r, bool_decide (constituent r.2 = c)) orows)).
  { intros c. rewrite <- (length_fmap fst), Hfl. apply length_fmap. }
  assert (Hshape : ∀ c, c ∈ PLOT_CONSTITUENTS → is_Some (plot_of mrows orows c)).
  { intros c Hc. unfold plot_of. specialize (Hcount c Hc). specialize (Hlen c).
    set (m := List.filter _ mrows) in *. set (o := List.filter _ orows) in *.
    destruct (bool_decide (m = []) || bool_decide (o = [])) eqn:E; [by eexists|].
    rewrite (bool_decide_eq_true_2 _ Hlen). simpl.
    rewrite bool_decide_eq_false_2; [by eexists|].
    apply orb_false_iff in E as [E _]. apply bool_decide_eq_false in E.
    destruct m as [|x [|y l]]; simpl in *; [done|done|lia]. }
  destruct (amplitude_plot_run σ model obs mrows orows Hm Ho Hshape)
    as (σ' & Hrun & _).
  eexists _, σ'. split; [exact Hrun|].
  intros p po pm Hp Hin.
  apply list_elem_of_omap in Hp as (c & Hc & Hp).
  destruct (plot_of mrows orows c) as [v|] eqn:Ev; [|done]. simpl in Hp. subst v.
  unfold plot_of in Ev.
  destruct (bool_decide (_ = []) || bool_decide (_ = [])); [done|].
  destruct (negb _); [done|]. destruct (bool_decide (_ < 2)%nat); [done|].
  injection Ev as <-. simpl in Hin.
  eapply (half_turn_pairs _ _ po pm (Hfl c)); [| |exact Hin].
  - eapply sublist_NoDup; [exact Hnd|apply fmap_sublist, Catalog.filter_sublist].
  - intros r Hr. apply Hrange. apply elem_of_app in Hr as [Hr|Hr]; apply elem_of_app;
      [left|right]; (eapply elem_of_sublist; [exact Hr|apply Catalog.filter_sublist]).
Qed.

Lemma amplitude_plot_half_turn_witness :
  (two_station_store !! 5%positive = Some (Frame two_station_model)
   ∧ two_station_store !! 6%positive = Some (Frame two_station_obs)
   ∧ (λ r : nat * crow, (r.1, constituent r.2)) <$> two_station_model
     = (λ r, (r.1, constituent r.2)) <$> two_station_obs
   ∧ NoDup (fst <$> two_station_model)
   ∧ (∀ r, r ∈ two_station_model ++ two_station_obs → 0 <= phase r.2 <= 360)
   ∧ ∀ c, c ∈ PLOT_CONSTITUENTS →
       length (List.filter (λ r, bool_decide (constituent r.2 = c)) two_station_model)
       ≠ 1%nat)
  ∧ ∃ plots σ',
      amplitude_plot 5%positive 6%positive two_station_store = Some (plots, σ')
      ∧ ∀ p po pm, p ∈ plots → (po, pm) ∈ ap_phase p →
          Rabs (pm - po) <= 180 ∧ 0 <= po <= 540 ∧ 0 <= pm <= 540.
Proof.
  assert (H1 : two_station_store !! 5%positive = Some (Frame two_station_model))
    by reflexivity.
  assert (H2 : two_station_store !! 6%positive = Some (Frame two_station_obs))
    by reflexivity.
  assert (H3 : (λ r : nat * crow, (r.1, constituent r.2)) <$> two_station_model
               = (λ r, (r.1, constituent r.2)) <$> two_station_obs) by reflexivity.
  assert (H4 : NoDup (fst <$> two_station_model)) by (simpl; compute_done).
  assert (H5 : ∀ r, r ∈ two_station_model ++ two_station_obs → 0 <= phase r.2 <= 360).
  { intros r Hr. unfold two_station_model, two_station_obs in Hr. simpl in Hr.
    repeat (apply elem_of_cons in Hr as [-> | Hr]; [simpl; lra|]).
    by apply elem_of_nil in Hr. }
  assert (H6 : ∀ c, c ∈ PLOT_CONSTITUENTS →
       length (List.filter (λ r, bool_decide (constituent r.2 = c)) two_station_model)
       ≠ 1%nat).
  { unfold PLOT_CONSTITUENTS. intros c Hc.
    repeat (apply elem_of_cons in Hc as [-> | Hc]; [by compute|]).
    by apply elem_of_nil in Hc. }
  split; [exact (conj H1 (conj H2 (conj H3 (conj H4 (conj H5 H6)))))|].
  exact (amplitude_plot_half_turn two_station_store _ _ _ _ H1 H2 H3 H4 H5 H6).
Defined.


End Tidal.

(** * Alignment of the two series (from [main] and [higher_resolution]) *)

Module Resample.

Import Num.
Local Open Scope Z_scope.

(** The rows of a one-column frame under a [DatetimeIndex]: timestamp in
    nanoseconds and value, [None] for a missing value ([nan]). *)
Abbreviation series := (list (Z * option R)).

(** A Python object: the frame together with its identity, which is
    what the operator [is] compares. *)
Record DataFrame := mkDataFrame { ident : nat; rows : series }.

Definition index (df : DataFrame) : list Z := fst <$> rows df.
Definition is_ (a b : DataFrame) : bool := bool_decide (ident a = ident b).

(** ** [higher_resolution] *)

(** [np.diff]. *)
Fixpoint np_diff (ts : list Z) : list Z :=
  match ts with
  | t0 :: (t1 :: _) as tl => (t1 - t0) :: np_diff tl
  | _ => []
  end.

(** [np.unique(..., return_counts=True)]: the sorted distinct values,
    each with its number of occurrences. *)
Fixpoint count_in (v : Z) (acc : list (Z * nat)) : list (Z * nat) :=
  match acc with
  | [] => [(v, 1%nat)]
  | (w, n) :: acc' =>
      if v <? w then (v, 1%nat) :: acc
      else if v =? w then (w, S n) :: acc'
      else (w, n) :: count_in v acc'
  end.

Definition np_unique_counts (vs : list Z) : list (Z * nat) := foldr count_in [] vs.

(** [counts.argmax()]: the first entry with the largest count. *)
Fixpoint argmax_from (best : Z * nat) (l : list (Z * nat)) : Z * nat :=
  match l with
  | [] => best
  | e :: l' => if (best.2 <? e.2)%nat then argmax_from e l' else argmax_from best l'
  end.

(** The inner function [mode]; [argmax] of an empty array raises. *)
Definition mode (data : list Z) : option Z :=
  match np_unique_counts (np_diff data) with
  | [] => None
  | e :: l => Some (argmax_from e l).1
  end.

(** Return the argument with the higher resolution. *)
Definition higher_resolution (df1 df2 : DataFrame) : option DataFrame :=
  m1 ← mode (index df1); m2 ← mode (index df2);
  Some (if m1 <? m2 then df1 else df2).

(** ** The pandas operations used by [main]

    They belong to pandas, not to this repository; they are modelled
    after the library: [asfreq] is a reindex onto a regular grid, a
    reindex takes the value stored under exactly the same label, and
    linear interpolation treats the cells as equally spaced. *)

(** [pd.date_range(start, stop, freq)] for a positive step. *)
Definition date_range (start stop freq : Z) : list Z :=
  if stop <? start then []
  else (λ k, start + Z.of_nat k * freq) <$> seq 0 (Z.to_nat ((stop - start) / freq) + 1).

Definition value_at (s : series) (t : Z) : option R :=
  match list_find (λ r, r.1 = t) s with
  | Some (_, (_, v)) => v
  | None => None
  end.

(** [reindex]: raises on duplicate labels. *)
Definition reindex (s : series) (grid : list Z) : option series :=
  if bool_decide (NoDup (fst <$> s))
  then Some ((λ t, (t, value_at s t)) <$> grid)
  else None.

(** [index.inferred_freq] for a step below one day: the common
    difference of an index of at least three timestamps. *)
Definition inferred_freq (ts : list Z) : option Z :=
  match np_diff ts with
  | d :: (_ :: _) as ds =>
      if bool_decide (0 < d) && bool_decide (Forall (λ x, x = d) ds)
      then Some d else None
  | _ => None
  end.

Definition index_min (ts : list Z) : option Z :=
  match ts with [] => None | t :: ts' => Some (foldr Z.min t ts') end.
Definition index_max (ts : list Z) : option Z :=
  match ts with [] => None | t :: ts' => Some (foldr Z.max t ts') end.

(** The labels of [s.resample(freq, origin=origin)], bins closed on the
    left: the grid through [origin] from the bin of the first timestamp
    to the bin of the last one. *)
Definition resample_labels (first last freq origin : Z) : list Z :=
  let foffset := (first - origin) `mod` freq in
  let loffset := (last - origin) `mod` freq in
  let fresult := if 0 <? foffset then first - foffset else first in
  let lresult := if 0 <? loffset then last + (freq - loffset) else last + freq in
  removelast (date_range fresult lresult freq).

(** [s.resample(freq, origin=origin).asfreq()].  A series that already
    has this frequency and as many rows as there are labels is relabelled;
    any other series is reindexed onto the labels.  A step that is not
    positive raises. *)
Definition resample_asfreq (s : series) (freq origin : Z) : option series :=
  if bool_decide (freq <= 0) then None
  else
    match index_min (fst <$> s), index_max (fst <$> s) with
    | Some first, Some last =>
        let res_index := resample_labels first last freq origin in
        if bool_decide (inferred_freq (fst <$> s) = Some freq)
           && bool_decide (length s = length res_index)
        then Some (zip res_index (snd <$> s))
        else reindex s res_index
    | _, _ => Some []
    end.

(** [s.asfreq(freq)]. *)
Definition asfreq (s : series) (freq : Z) : option series :=
  if bool_decide (freq <= 0) then None
  else
    match index_min (fst <$> s), index_max (fst <$> s) with
    | Some first, Some last => reindex s (date_range first last freq)
    | _, _ => Some []
    end.

(** Linear interpolation of a column, forward: a run of [k] missing
    cells between the values [a] and [b] gets [a + (b - a) * j / (k + 1)];
    missing cells after the last value repeat it; missing cells before
    the first value stay missing. *)
Fixpoint fill_after (a : R) (k : nat) (vs : list (option R)) : list (option R) :=
  match vs with
  | [] => replicate k (Some a)
  | None :: vs' => fill_after a (S k) vs'
  | Some b :: vs' =>
      ((λ j, Some (a + (b - a) * INR j / INR (S k))%R) <$> seq 1 k)
      ++ Some b :: fill_after b 0 vs'
  end.

Fixpoint interpolate_column (vs : list (option R)) : list (option R) :=
  match vs with
  | [] => []
  | None :: vs' => None :: interpolate_column vs'
  | Some a :: vs' => Some a :: fill_after a 0 vs'
  end.

(** [s.interpolate(method='linear')]. *)
Definition interpolate (s : series) : series :=
  zip (fst <$> s) (interpolate_column (snd <$> s)).

(** [a.join(b, how='inner')]: a row for every pair of equal labels. *)
Definition join_inner (a b : series) : list (Z * (option R * option R)) :=
  ra ← a; rb ← List.filter (λ rb : Z * option R, bool_decide (rb.1 = ra.1)) b;
  [(ra.1, (ra.2, rb.2))].

(** [sort_index]. *)
Fixpoint insert_row {A} (r : Z * A) (l : list (Z * A)) : list (Z * A) :=
  match l with
  | [] => [r]
  | r' :: l' => if r.1 <=? r'.1 then r :: l else r' :: insert_row r l'
  end.

Definition sort_index {A} (l : list (Z * A)) : list (Z * A) := foldr insert_row [] l.

(** [dropna]: only the rows without a missing value. *)
Definition dropna (l : list (Z * (option R * option R))) : list Stats.row :=
  omap (λ r, match r with
             | (t, (Some m, Some o)) => Some (Stats.Row t m o)
             | _ => None
             end) l.

(** ** The resampling branch of [main] *)

(** [model_data] and [obs_data] of the two branches; [None] is an
    exception. *)
Definition resampled (obs model : DataFrame) (modelfreq obsfreq : Z)
    : option (series * series) :=
  hr ← higher_resolution obs model;
  if is_ hr obs then
    (* downsample the observations to match the model, without interpolation *)
    origin ← head (index model);
    obs_data ← resample_asfreq (rows obs) modelfreq origin;
    Some (rows model, obs_data)
  else
    (* resample and interpolate the model *)
    origin ← head (index obs);
    model_data ← interpolate <$> resample_asfreq (rows model) obsfreq origin;
    obs_data ← asfreq (rows obs) obsfreq;
    Some (model_data, obs_data).

(** [joined = model_data.join(obs_data, how='inner').sort_index().dropna()]. *)
Definition joined (model_data obs_data : series) : list Stats.row :=
  dropna (sort_index (join_inner model_data obs_data)).

(** ** Alignment of one station (the middle of the loop of [main])

    [model] is the model series after the warm-up cut, [obs] the series
    read from the observation file, sorted by time. *)

Inductive alignment :=
  | Aligned (j : list Stats.row)
  | TooShort     (* [obs.empty or len(obs) == 1 or model.empty]: [continue] *)
  | EmptyJoin    (* [joined.empty]: message and [continue] *)
  | Raised.      (* an exception leaves [main] *)

(** [obs.loc[a:b]] on a sorted index: the labels from [a] to [b], both
    included. *)
Definition loc_slice (s : series) (a b : Z) : series :=
  List.filter (λ r : Z * option R, bool_decide (a <= r.1 <= b)) s.

Definition align (model_rows obs_rows : series) : alignment :=
  let model := mkDataFrame 1 model_rows in
  match index model with
  | m0 :: m1 :: _ =>
      let modelfreq := m1 - m0 in
      (* restrict the observation range to the model range *)
      let obs := mkDataFrame 0
        (loc_slice obs_rows m0 (List.last (index model) m0 + modelfreq)) in
      match index obs with
      | [] | [_] => TooShort
      | o0 :: o1 :: _ =>
          let obsfreq := o1 - o0 in
          match resampled obs model modelfreq obsfreq with
          | Some (model_data, obs_data) =>
              let j := joined model_data obs_data in
              if bool_decide (j = []) then EmptyJoin else Aligned j
          | None => Raised
          end
      end
  | _ => Raised
  end.

(** ** Facts about the pandas operations *)

Lemma value_at_Some s t v : value_at s t = Some v → (t, Some v) ∈ s.
Proof.
  unfold value_at.
  destruct (list_find (λ r, r.1 = t) s) as [[i [t' v']]|] eqn:E; [|done].
  intros ->. apply list_find_Some in E as (Hi & Ht & _). simpl in Ht. subst t'.
  by eapply list_elem_of_lookup_2.
Qed.

(** A reindexed series holds no value that the source does not hold
    under the same label. *)
Lemma reindex_values s grid s' t v :
  reindex s grid = Some s' → (t, Some v) ∈ s' → (t, Some v) ∈ s.
Proof.
  unfold reindex. destruct (bool_decide (NoDup (fst <$> s))); [|done].
  intros [= <-] Hin. apply list_elem_of_fmap in Hin as (t0 & [= -> Hv] & _).
  by apply value_at_Some.
Qed.

Lemma reindex_index s grid s' : reindex s grid = Some s' → fst <$> s' = grid.
Proof.
  unfold reindex. destruct (bool_decide (NoDup (fst <$> s))); [|done].
  intros [= <-]. rewrite <- list_fmap_compose. apply list_fmap_id.
Qed.

Lemma asfreq_values s freq s' t v :
  asfreq s freq = Some s' → (t, Some v) ∈ s' → (t, Some v) ∈ s.
Proof.
  unfold asfreq. destruct (bool_decide (freq <= 0)); [done|].
  destruct (index_min (fst <$> s)), (index_max (fst <$> s));
    try (intros [= <-] H; by apply elem_of_nil in H).
  apply reindex_values.
Qed.

(** Grid-snapping keeps samples: every value of the result is a sample
    of the source series. *)
Lemma resample_asfreq_values s freq origin s' t v :
  resample_asfreq s freq origin = Some s' → (t, Some v) ∈ s' →
  ∃ t', (t', Some v) ∈ s.
Proof.
  unfold resample_asfreq. destruct (bool_decide (freq <= 0)); [done|].
  destruct (index_min (fst <$> s)) as [first|], (index_max (fst <$> s)) as [last|];
    try (intros [= <-] H; by apply elem_of_nil in H).
  destruct (_ && _).
  - intros [= <-] Hin. apply elem_of_zip_r in Hin.
    apply list_elem_of_fmap in Hin as ([t' v'] & Hv & Hin). simpl in Hv. subst v'.
    by exists t'.
  - intros Hr Hin. exists t. by eapply reindex_values.
Qed.

Lemma elem_of_removelast {A} (l : list A) x : x ∈ removelast l → x ∈ l.
Proof.
  induction l as [|a [|b l] IH]; simpl; [done| |].
  - intros H. by apply elem_of_nil in H.
  - intros [->|H]%elem_of_cons; [left|right; by apply IH].
Qed.

Lemma elem_of_date_range start stop freq t :
  t ∈ date_range start stop freq → ∃ k : nat, t = start + Z.of_nat k * freq.
Proof.
  unfold date_range. destruct (stop <? start).
  - intros H. by apply elem_of_nil in H.
  - intros (k & -> & _)%list_elem_of_fmap. by exists k.
Qed.

(** The labels of a resampling lie on the grid through its origin. *)
Lemma resample_labels_on_grid first last freq origin t :
  0 < freq → t ∈ resample_labels first last freq origin →
  (t - origin) `mod` freq = 0.
Proof.
  intros Hf Ht. unfold resample_labels in Ht.
  apply elem_of_removelast, elem_of_date_range in Ht as [k ->].
  pose proof (Z.mod_pos_bound (first - origin) freq Hf) as Hb.
  pose proof (Z.div_mod (first - origin) freq ltac:(lia)) as Hdm.
  set (fo := (first - origin) `mod` freq) in *.
  assert (Hfr : (if 0 <? fo then first - fo else first) = first - fo).
  { destruct (Z.ltb_spec 0 fo); lia. }
  rewrite Hfr.
  replace (first - fo + Z.of_nat k * freq - origin)
    with (((first - origin) / freq + Z.of_nat k) * freq) by lia.
  apply Z.mod_mul. lia.
Qed.

Lemma resample_asfreq_index s freq origin s' r :
  resample_asfreq s freq origin = Some s' → r ∈ s' →
  (r.1 - origin) `mod` freq = 0.
Proof.
  unfold resample_asfreq. destruct (bool_decide_reflect (freq <= 0)); [done|].
  destruct (index_min (fst <$> s)) as [first|], (index_max (fst <$> s)) as [last|];
    try (intros [= <-] H; by apply elem_of_nil in H).
  intros Hs Hr. apply (resample_labels_on_grid first last); [lia|].
  destruct (_ && _).
  - injection Hs as <-. destruct r as [t v]. by apply elem_of_zip_l in Hr.
  - apply reindex_index in Hs. rewrite <- Hs. by apply list_elem_of_fmap_2.
Qed.

Lemma length_fill_after a k vs : length (fill_after a k vs) = (k + length vs)%nat.
Proof.
  revert a k. induction vs as [|[b|] vs IH]; intros a k; simpl.
  - rewrite length_replicate. lia.
  - rewrite length_app, length_fmap, length_seq. simpl. rewrite IH. lia.
  - rewrite IH. lia.
Qed.

Lemma length_interpolate_column vs : length (interpolate_column vs) = length vs.
Proof.
  induction vs as [|[a|] vs IH]; simpl; [done| |by rewrite IH].
  by rewrite length_fill_after.
Qed.

(** Interpolation fills cells; the index stays. *)
Lemma interpolate_index s : fst <$> interpolate s = fst <$> s.
Proof.
  unfold interpolate. apply fst_zip.
  rewrite length_interpolate_column, !length_fmap. done.
Qed.

(** ** The direction of the resampling *)

Section Direction.

Variables (obs model : DataFrame) (modelfreq obsfreq mo mm : Z).
Hypothesis Hdistinct : ident obs ≠ ident model.
Hypothesis Hmo : mode (index obs) = Some mo.
Hypothesis Hmm : mode (index model) = Some mm.

(** The observation has the higher resolution: it is snapped onto the
    grid of the model and the model is left as it is. *)
Lemma resampled_snap :
  mo < mm →
  resampled obs model modelfreq obsfreq =
    (origin ← head (index model);
     obs_data ← resample_asfreq (rows obs) modelfreq origin;
     Some (rows model, obs_data)).
Proof.
  intros Hlt. unfold resampled, higher_resolution. rewrite Hmo, Hmm. simpl.
  rewrite (proj2 (Z.ltb_lt mo mm) Hlt).
  unfold is_. by rewrite bool_decide_eq_true_2.
Qed.

(** Otherwise the model is resampled onto the grid of the observation
    and interpolated, and the observation is made regular. *)
Lemma resampled_interpolate :
  mm <= mo →
  resampled obs model modelfreq obsfreq =
    (origin ← head (index obs);
     model_data ← interpolate <$> resample_asfreq (rows model) obsfreq origin;
     obs_data ← asfreq (rows obs) obsfreq;
     Some (model_data, obs_data)).
Proof.
  intros Hle. unfold resampled, higher_resolution. rewrite Hmo, Hmm. simpl.
  rewrite (proj2 (Z.ltb_ge mo mm) Hle).
  unfold is_. by rewrite bool_decide_eq_false_2.
Qed.

(** In both branches the observation column holds observed samples only. *)
Lemma resampled_observation model_data obs_data t v :
  resampled obs model modelfreq obsfreq = Some (model_data, obs_data) →
  (t, Some v) ∈ obs_data → ∃ t', (t', Some v) ∈ rows obs.
Proof.
  destruct (Z.lt_ge_cases mo mm) as [Hlt|Hge].
  - rewrite (resampled_snap Hlt).
    destruct (head (index model)) as [origin|]; [|done]. simpl.
    destruct (resample_asfreq (rows obs) modelfreq origin) as [od|] eqn:E; [|done].
    intros [= _ <-]. by eapply resample_asfreq_values.
  - rewrite (resampled_interpolate Hge).
    destruct (head (index obs)) as [origin|]; [|done]. simpl.
    destruct (resample_asfreq (rows model) obsfreq origin) as [md|]; [|done]. simpl.
    destruct (asfreq (rows obs) obsfreq) as [od|] eqn:E; [|done].
    intros [= _ <-] Hin. exists t. by eapply asfreq_values.
Qed.

Lemma resampled_snap_grid model_data obs_data origin r :
  mo < mm →
  resampled obs model modelfreq obsfreq = Some (model_data, obs_data) →
  head (index model) = Some origin →
  model_data = rows model ∧ (r ∈ obs_data → (r.1 - origin) `mod` modelfreq = 0).
Proof.
  intros Hlt. rewrite (resampled_snap Hlt). intros Hr Ho. rewrite Ho in Hr.
  simpl in Hr.
  destruct (resample_asfreq (rows obs) modelfreq origin) as [od|] eqn:E; [|done].
  injection Hr as <- <-. split; [done|]. by eapply resample_asfreq_index.
Qed.

Lemma resampled_interpolate_grid model_data obs_data origin r :
  mm <= mo →
  resampled obs model modelfreq obsfreq = Some (model_data, obs_data) →
  head (index obs) = Some origin →
  r ∈ model_data → (r.1 - origin) `mod` obsfreq = 0.
Proof.
  intros Hge. rewrite (resampled_interpolate Hge). intros Hr Ho. rewrite Ho in Hr.
  simpl in Hr.
  destruct (resample_asfreq (rows model) obsfreq origin) as [md|] eqn:E; [|done].
  simpl in Hr. destruct (asfreq (rows obs) obsfreq) as [od|]; [|done].
  injection Hr as <- <-. intros Hin.
  assert (Hidx : r.1 ∈ fst <$> md).
  { rewrite <- interpolate_index. by apply list_elem_of_fmap_2. }
  apply list_elem_of_fmap in Hidx as (r' & -> & Hr').
  by eapply resample_asfreq_index.
Qed.

End Direction.

(** ** Worked cases *)

(** Two steps occur twice each: the smaller one is the mode. *)
Example mode_tie : mode [0; 10; 15; 25; 30] = Some 5.
Proof. reflexivity. Qed.

(** Without two timestamps there is no difference to count. *)
Example mode_single : mode [0] = None.
Proof. reflexivity. Qed.

(** A model every 60 units and an observation every 30. *)
Definition coarse_model : DataFrame :=
  mkDataFrame 1 [(0, Some 1%R); (60, Some 2%R); (120, Some 3%R)].
Definition fine_obs : DataFrame :=
  mkDataFrame 0 [(0, Some 10%R); (30, Some 11%R); (60, Some 12%R);
                 (90, Some 13%R); (120, Some 14%R)].

Example snap_onto_model :
  resampled fine_obs coarse_model 60 30
  = Some (rows coarse_model, [(0, Some 10%R); (60, Some 12%R); (120, Some 14%R)]).
Proof. reflexivity. Qed.

(** A model with a step missing at 60 and an observation every 60: the
    model cell at 60 is interpolated between its neighbours on the grid. *)
Definition gappy_model : DataFrame :=
  mkDataFrame 1 [(0, Some 1%R); (30, Some 5%R); (90, Some 7%R); (120, Some 3%R)].
Definition coarse_obs : DataFrame :=
  mkDataFrame 0 [(0, Some 10%R); (60, Some 12%R); (120, Some 14%R)].

Example interpolate_onto_obs :
  resampled coarse_obs gappy_model 30 60
  = Some ([(0, Some 1%R); (60, Some (1 + (3 - 1) * INR 1 / INR 2)%R); (120, Some 3%R)],
          rows coarse_obs).
Proof. reflexivity. Qed.

(** ** Series on one regular grid *)

(** The regular grid of [n] timestamps from [t0] with step [step]. *)
Definition grid (t0 step : Z) (n : nat) : list Z :=
  (λ k, t0 + Z.of_nat k * step) <$> seq 0 n.

Lemma grid_S t0 step n : grid t0 step (S n) = t0 :: grid (t0 + step) step n.
Proof.
  unfold grid. simpl. f_equal; [lia|].
  rewrite <- fmap_S_seq, <- list_fmap_compose. apply list_fmap_ext.
  intros _ k _. simpl. lia.
Qed.

Lemma length_grid t0 step n : length (grid t0 step n) = n.
Proof. unfold grid. by rewrite length_fmap, length_seq. Qed.

Lemma elem_of_grid t0 step n t :
  t ∈ grid t0 step n ↔ ∃ k : nat, (k < n)%nat ∧ t = t0 + Z.of_nat k * step.
Proof.
  unfold grid. rewrite list_elem_of_fmap. split.
  - intros (k & -> & Hk). exists k. split; [|done].
    apply list_elem_of_In, in_seq in Hk. lia.
  - intros (k & Hk & ->). exists k. split; [done|].
    apply list_elem_of_In, in_seq. lia.
Qed.

Lemma grid_snoc t0 step n :
  grid t0 step (S n) = grid t0 step n ++ [t0 + Z.of_nat n * step].
Proof. unfold grid. by rewrite seq_S, fmap_app. Qed.

Lemma removelast_grid t0 step n : removelast (grid t0 step (S n)) = grid t0 step n.
Proof. rewrite grid_snoc. apply removelast_last. Qed.

Lemma np_diff_cons a b l : np_diff (a :: b :: l) = (b - a) :: np_diff (b :: l).
Proof. reflexivity. Qed.

Lemma np_diff_grid t0 step n : np_diff (grid t0 step (S n)) = replicate n step.
Proof.
  revert t0. induction n as [|n IH]; intros t0; [done|].
  rewrite grid_S, (grid_S (t0 + step)), np_diff_cons.
  rewrite <- (grid_S (t0 + step) step n), IH. simpl. f_equal. lia.
Qed.

Lemma np_unique_counts_replicate v n :
  np_unique_counts (replicate (S n) v) = [(v, S n)].
Proof.
  induction n as [|n IH]; [done|].
  change (replicate (S (S n)) v) with (v :: replicate (S n) v).
  unfold np_unique_counts in *. simpl foldr. simpl in IH. rewrite IH. simpl.
  by rewrite Z.ltb_irrefl, Z.eqb_refl.
Qed.

(** The mode of the differences of a regular grid is its step. *)
Lemma mode_grid t0 step n : (2 <= n)%nat → mode (grid t0 step n) = Some step.
Proof.
  intros Hn. destruct n as [|[|n]]; [lia..|].
  unfold mode. by rewrite np_diff_grid, np_unique_counts_replicate.
Qed.

Lemma date_range_grid t0 step n :
  0 < step → date_range t0 (t0 + Z.of_nat n * step) step = grid t0 step (S n).
Proof.
  intros Hs. unfold date_range, grid.
  destruct (Z.ltb_spec (t0 + Z.of_nat n * step) t0) as [Hlt|_]; [nia|].
  replace (t0 + Z.of_nat n * step - t0) with (Z.of_nat n * step) by lia.
  rewrite Z.div_mul by lia. rewrite Nat2Z.id. by rewrite Nat.add_1_r.
Qed.

Lemma foldr_min_spec t l :
  foldr Z.min t l ∈ t :: l ∧ ∀ x, x ∈ t :: l → foldr Z.min t l <= x.
Proof.
  induction l as [|y l [IH1 IH2]]; simpl.
  - split; [left|]. intros x ->%list_elem_of_singleton. lia.
  - split.
    + destruct (Z.min_spec y (foldr Z.min t l)) as [[_ ->]|[_ ->]].
      * right; left.
      * apply elem_of_cons in IH1 as [->|IH1]; [left | right; by right].
    + intros x Hx. assert (Hx' : x = y ∨ x ∈ t :: l).
      { apply elem_of_cons in Hx as [->|Hx]; [right; left|].
        apply elem_of_cons in Hx as [->|Hx]; [by left | right; by right]. }
      destruct Hx' as [->|Hx']; [lia|]. specialize (IH2 x Hx'). lia.
Qed.

Lemma foldr_max_spec t l :
  foldr Z.max t l ∈ t :: l ∧ ∀ x, x ∈ t :: l → x <= foldr Z.max t l.
Proof.
  induction l as [|y l [IH1 IH2]]; simpl.
  - split; [left|]. intros x ->%list_elem_of_singleton. lia.
  - split.
    + destruct (Z.max_spec y (foldr Z.max t l)) as [[_ ->]|[_ ->]].
      * apply elem_of_cons in IH1 as [->|IH1]; [left | right; by right].
      * right; left.
    + intros x Hx. assert (Hx' : x = y ∨ x ∈ t :: l).
      { apply elem_of_cons in Hx as [->|Hx]; [right; left|].
        apply elem_of_cons in Hx as [->|Hx]; [by left | right; by right]. }
      destruct Hx' as [->|Hx']; [lia|]. specialize (IH2 x Hx'). lia.
Qed.

Lemma index_min_grid t0 step n : 0 < step → index_min (grid t0 step (S n)) = Some t0.
Proof.
  intros Hs. rewrite grid_S. simpl. f_equal.
  destruct (foldr_min_spec t0 (grid (t0 + step) step n)) as [Hin Hle].
  rewrite <- grid_S in Hin, Hle.
  apply elem_of_grid in Hin as (k & _ & Hk).
  assert (t0 ∈ grid t0 step (S n)) as H0.
  { apply elem_of_grid. exists 0%nat. split; lia. }
  specialize (Hle _ H0). nia.
Qed.

Lemma index_max_grid t0 step n :
  0 < step → index_max (grid t0 step (S n)) = Some (t0 + Z.of_nat n * step).
Proof.
  intros Hs. rewrite grid_S. simpl. f_equal.
  destruct (foldr_max_spec t0 (grid (t0 + step) step n)) as [Hin Hle].
  rewrite <- grid_S in Hin, Hle.
  apply elem_of_grid in Hin as (k & Hk & Hm).
  assert (t0 + Z.of_nat n * step ∈ grid t0 step (S n)) as Hn.
  { apply elem_of_grid. exists n. split; lia. }
  specialize (Hle _ Hn). nia.
Qed.

Lemma last_grid t0 step n d :
  List.last (grid t0 step (S n)) d = t0 + Z.of_nat n * step.
Proof. rewrite grid_snoc. apply last_last. Qed.

Lemma NoDup_grid t0 step n : 0 < step → NoDup (grid t0 step n).
Proof.
  intros Hs. unfold grid. apply NoDup_fmap_2; [|apply NoDup_seq].
  intros j k H. nia.
Qed.

(** Reindexing a series onto its own index changes nothing. *)
Lemma value_at_head t v s : value_at ((t, v) :: s) t = v.
Proof. unfold value_at. simpl. by rewrite decide_True. Qed.

Lemma value_at_tail t v s t' : t ≠ t' → value_at ((t, v) :: s) t' = value_at s t'.
Proof.
  intros Hne. unfold value_at. simpl. rewrite decide_False by done.
  by destruct (list_find (λ r : Z * option R, r.1 = t') s) as [[i [t2 v2]]|].
Qed.

Lemma reindex_own_index (s : series) :
  NoDup (fst <$> s) → reindex s (fst <$> s) = Some s.
Proof.
  intros Hnd. unfold reindex. rewrite bool_decide_eq_true_2 by done. f_equal.
  induction s as [|[t v] s IH]; [done|].
  rewrite fmap_cons in Hnd. apply NoDup_cons in Hnd as [Hnotin Hnd].
  rewrite !fmap_cons. simpl. rewrite value_at_head. f_equal.
  rewrite <- (IH Hnd) at 2. apply list_fmap_ext. intros i t' Hi.
  f_equal. apply value_at_tail. intros ->.
  apply Hnotin. by eapply list_elem_of_lookup_2.
Qed.

(** A gap-free series on the regular grid from [t0]. *)
Definition on_grid (t0 step : Z) (vs : list R) : series :=
  zip (grid t0 step (length vs)) (Some <$> vs).

Lemma fst_on_grid t0 step vs : fst <$> on_grid t0 step vs = grid t0 step (length vs).
Proof. apply fst_zip. by rewrite length_grid, length_fmap. Qed.

Lemma snd_on_grid t0 step vs : snd <$> on_grid t0 step vs = Some <$> vs.
Proof. apply snd_zip. by rewrite length_grid, length_fmap. Qed.

Lemma length_on_grid t0 step vs : length (on_grid t0 step vs) = length vs.
Proof.
  unfold on_grid. rewrite length_zip, length_grid, length_fmap. lia.
Qed.

Lemma fill_after_all_some a vs : fill_after a 0 (Some <$> vs) = Some <$> vs.
Proof.
  revert a. induction vs as [|b vs IH]; intros a; [done|].
  rewrite fmap_cons. simpl. by rewrite IH.
Qed.

Lemma interpolate_gap_free t0 step vs :
  interpolate (on_grid t0 step vs) = on_grid t0 step vs.
Proof.
  unfold interpolate. rewrite fst_on_grid, snd_on_grid.
  destruct vs as [|a vs]; [done|].
  rewrite fmap_cons. simpl interpolate_column. by rewrite fill_after_all_some.
Qed.

Section SameGrid.

Variables (t0 step : Z) (vs : list R).
Hypothesis Hstep : 0 < step.
Hypothesis Hlen : (2 <= length vs)%nat.

Lemma on_grid_NoDup : NoDup (fst <$> on_grid t0 step vs).
Proof. rewrite fst_on_grid. by apply NoDup_grid. Qed.

Lemma resample_labels_grid :
  resample_labels t0 (t0 + Z.of_nat (length vs - 1) * step) step t0
  = grid t0 step (length vs).
Proof.
  unfold resample_labels.
  replace (t0 - t0) with 0 by lia. rewrite Z.mod_0_l by lia.
  replace (t0 + Z.of_nat (length vs - 1) * step - t0)
    with (Z.of_nat (length vs - 1) * step) by lia.
  rewrite Z.mod_mul by lia. simpl.
  replace (t0 + Z.of_nat (length vs - 1) * step + step)
    with (t0 + Z.of_nat (length vs) * step) by lia.
  by rewrite (date_range_grid _ _ _ Hstep), removelast_grid.
Qed.

Lemma resample_asfreq_same_grid :
  resample_asfreq (on_grid t0 step vs) step t0 = Some (on_grid t0 step vs).
Proof.
  unfold resample_asfreq. rewrite bool_decide_eq_false_2 by lia.
  rewrite fst_on_grid.
  assert (∃ n, length vs = S n) as [n En]
    by (exists (length vs - 1)%nat; lia).
  assert (Hmin : index_min (grid t0 step (length vs)) = Some t0)
    by (rewrite En; by apply index_min_grid).
  assert (Hmax : index_max (grid t0 step (length vs))
                 = Some (t0 + Z.of_nat (length vs - 1) * step)).
  { rewrite En. rewrite index_max_grid by done. do 3 f_equal. lia. }
  rewrite Hmin, Hmax, resample_labels_grid.
  destruct (_ && _).
  - f_equal. by rewrite snd_on_grid.
  - rewrite <- fst_on_grid. apply reindex_own_index, on_grid_NoDup.
Qed.

Lemma asfreq_same_grid : asfreq (on_grid t0 step vs) step = Some (on_grid t0 step vs).
Proof.
  unfold asfreq. rewrite bool_decide_eq_false_2 by lia.
  rewrite fst_on_grid.
  assert (∃ n, length vs = S n) as [n En]
    by (exists (length vs - 1)%nat; lia).
  rewrite En.
  rewrite (index_min_grid _ _ _ Hstep), (index_max_grid _ _ _ Hstep).
  rewrite (date_range_grid _ _ _ Hstep). rewrite <- En, <- fst_on_grid.
  apply reindex_own_index, on_grid_NoDup.
Qed.

Lemma mode_on_grid : mode (fst <$> on_grid t0 step vs) = Some step.
Proof. rewrite fst_on_grid. by apply mode_grid. Qed.

End SameGrid.

(** ** Join, sort and drop on a common index *)

Lemma filter_key_absent (b : series) t :
  t ∉ fst <$> b → List.filter (λ rb : Z * option R, bool_decide (rb.1 = t)) b = [].
Proof.
  induction b as [|[t' v'] b IH]; [done|]. rewrite fmap_cons.
  intros Hnotin. apply not_elem_of_cons in Hnotin as [Hne Hnotin]. simpl.
  rewrite bool_decide_eq_false_2 by (simpl; intros E; by apply Hne). by apply IH.
Qed.

Lemma filter_key (b : series) t v :
  NoDup (fst <$> b) → (t, v) ∈ b →
  List.filter (λ rb : Z * option R, bool_decide (rb.1 = t)) b = [(t, v)].
Proof.
  induction b as [|[t' v'] b IH]; intros Hnd Hin; [by apply elem_of_nil in Hin|].
  rewrite fmap_cons in Hnd. apply NoDup_cons in Hnd as [Hnotin Hnd].
  apply elem_of_cons in Hin as [[= <- <-]|Hin]; simpl.
  - rewrite bool_decide_eq_true_2 by done. f_equal. by apply filter_key_absent.
  - assert (t' ≠ t).
    { intros ->. apply Hnotin. by apply (list_elem_of_fmap_2 fst) in Hin. }
    rewrite bool_decide_eq_false_2 by (simpl; intros E; by apply H). by apply IH.
Qed.

Lemma join_inner_zip (b : series) (ts : list Z) (va vb : list (option R)) :
  NoDup (fst <$> b) →
  (∀ r, r ∈ zip ts vb → r ∈ b) →
  length va = length ts → length vb = length ts →
  join_inner (zip ts va) b = zip ts (zip va vb).
Proof.
  intros Hnd. unfold join_inner.
  revert va vb. induction ts as [|t ts IH]; intros va vb Hin Ha Hb; [done|].
  destruct va as [|x va]; [done|]. destruct vb as [|y vb]; [done|].
  simpl zip. rewrite bind_cons. simpl.
  rewrite (filter_key b t y Hnd) by (apply Hin; left). simpl. f_equal.
  apply IH.
  - intros r Hr. apply Hin. by right.
  - simpl in Ha. lia.
  - simpl in Hb. lia.
Qed.

Lemma insert_row_first {A} (r : Z * A) (l : list (Z * A)) :
  Forall (λ r', r.1 <= r'.1) l → insert_row r l = r :: l.
Proof.
  destruct l as [|r' l]; [done|]. intros [Hle _]%Forall_cons. simpl.
  by rewrite (proj2 (Z.leb_le _ _) Hle).
Qed.

(** Sorting a frame whose index increases changes nothing. *)
Lemma sort_index_sorted {A} (l : list (Z * A)) :
  StronglySorted (λ a b, a.1 <= b.1) l → sort_index l = l.
Proof.
  induction 1 as [|r l Hs IH Hall]; [done|].
  unfold sort_index in *. simpl. rewrite IH. by apply insert_row_first.
Qed.

Lemma zip_grid_sorted {A} t0 step n (xs : list A) :
  0 < step → StronglySorted (λ a b : Z * A, a.1 <= b.1) (zip (grid t0 step n) xs).
Proof.
  intros Hs. revert t0 xs. induction n as [|n IH]; intros t0 xs; [constructor|].
  rewrite grid_S. destruct xs as [|x xs]; [constructor|]. simpl.
  constructor; [apply IH|].
  apply Forall_forall. intros [t y] Hin. apply elem_of_zip_l in Hin.
  apply elem_of_grid in Hin as (k & _ & ->). simpl. nia.
Qed.

(** The rows of an aligned pair on index [ts]. *)
Definition paired (ts : list Z) (ms os : list R) : list Stats.row :=
  (λ r, Stats.Row r.1 r.2.1 r.2.2) <$> zip ts (zip ms os).

Lemma dropna_gap_free ts ms os :
  dropna (zip ts (zip (Some <$> ms) (Some <$> os))) = paired ts ms os.
Proof.
  unfold dropna, paired. revert ms os.
  induction ts as [|t ts IH]; intros ms os; [done|].
  destruct ms as [|m ms]; [done|]. destruct os as [|o os]; [done|].
  simpl. f_equal. apply IH.
Qed.

Lemma joined_same_grid t0 step ms os :
  0 < step → length os = length ms →
  joined (on_grid t0 step ms) (on_grid t0 step os)
  = paired (grid t0 step (length ms)) ms os.
Proof.
  intros Hs Hl. unfold joined, on_grid at 1.
  rewrite (join_inner_zip _ _ _ (Some <$> os)).
  - rewrite sort_index_sorted by by apply zip_grid_sorted.
    apply dropna_gap_free.
  - rewrite fst_on_grid. by apply NoDup_grid.
  - intros r. unfold on_grid. by rewrite Hl.
  - by rewrite length_grid, length_fmap.
  - by rewrite length_grid, length_fmap.
Qed.

(** ** Two series on one grid *)

Lemma loc_slice_all (s : series) a b :
  Forall (λ r, a <= r.1 <= b) s → loc_slice s a b = s.
Proof.
  unfold loc_slice. induction 1 as [|r s Hr Hs IH]; [done|]. simpl.
  rewrite bool_decide_eq_true_2 by done. by rewrite IH.
Qed.

Lemma align_unfold model_rows obs_rows m0 m1 ml o0 o1 ol :
  fst <$> model_rows = m0 :: m1 :: ml →
  fst <$> loc_slice obs_rows m0 (List.last (fst <$> model_rows) m0 + (m1 - m0))
    = o0 :: o1 :: ol →
  align model_rows obs_rows =
    match resampled
            (mkDataFrame 0
               (loc_slice obs_rows m0 (List.last (fst <$> model_rows) m0 + (m1 - m0))))
            (mkDataFrame 1 model_rows) (m1 - m0) (o1 - o0) with
    | Some (model_data, obs_data) =>
        let j := joined model_data obs_data in
        if bool_decide (j = []) then EmptyJoin else Aligned j
    | None => Raised
    end.
Proof.
  intros Hm Ho. unfold align, index. cbn [rows]. rewrite Hm. cbn [rows].
  rewrite <- Hm, Ho. done.
Qed.

Section Identity.

Variables (t0 step : Z) (ms os : list R).
Hypothesis Hstep : 0 < step.
Hypothesis Hlen : (2 <= length ms)%nat.
Hypothesis Hsame : length os = length ms.

Lemma same_grid_index (vs : list R) :
  (2 <= length vs)%nat →
  ∃ l, fst <$> on_grid t0 step vs = t0 :: (t0 + step) :: l.
Proof.
  intros Hv. rewrite fst_on_grid.
  assert (∃ n, length vs = S (S n)) as [n ->]
    by (exists (length vs - 2)%nat; lia).
  rewrite grid_S, grid_S. by eexists.
Qed.

Lemma same_grid_slice :
  loc_slice (on_grid t0 step os) t0
    (List.last (fst <$> on_grid t0 step ms) t0 + (t0 + step - t0))
  = on_grid t0 step os.
Proof.
  apply loc_slice_all. apply Forall_forall. intros [t v] Hin.
  apply (list_elem_of_fmap_2 fst) in Hin. rewrite fst_on_grid, Hsame in Hin.
  rewrite fst_on_grid. simpl.
  assert (∃ n, length ms = S n) as [n En]
    by (exists (length ms - 1)%nat; lia).
  rewrite En, last_grid. rewrite En in Hin.
  apply elem_of_grid in Hin as (k & Hk & Ht). simpl in Ht. nia.
Qed.

(** The resampling step hands both series back. *)
Lemma resampled_same_grid :
  resampled (mkDataFrame 0 (on_grid t0 step os)) (mkDataFrame 1 (on_grid t0 step ms))
    step step
  = Some (on_grid t0 step ms, on_grid t0 step os).
Proof.
  assert (Hos : (2 <= length os)%nat) by lia.
  rewrite (resampled_interpolate _ _ step step step step);
    unfold index; cbn [ident rows].
  - destruct (same_grid_index os Hos) as [l ->]. simpl.
    rewrite resample_asfreq_same_grid by done. simpl.
    rewrite interpolate_gap_free, asfreq_same_grid by done. done.
  - done.
  - by apply mode_on_grid.
  - by apply mode_on_grid.
  - lia.
Qed.

Lemma align_same_grid :
  align (on_grid t0 step ms) (on_grid t0 step os)
  = Aligned (paired (grid t0 step (length ms)) ms os).
Proof.
  assert (Hos : (2 <= length os)%nat) by lia.
  destruct (same_grid_index ms Hlen) as [ml Hm].
  destruct (same_grid_index os Hos) as [ol Ho].
  rewrite (align_unfold _ _ t0 (t0 + step) ml t0 (t0 + step) ol Hm)
    by (by rewrite same_grid_slice).
  rewrite same_grid_slice.
  replace (t0 + step - t0) with step by lia.
  rewrite resampled_same_grid. cbn zeta.
  rewrite joined_same_grid by done.
  rewrite bool_decide_eq_false_2; [done|].
  unfold paired. intros E. apply (f_equal length) in E.
  rewrite length_fmap, !length_zip, length_grid in E. simpl in E. lia.
Qed.

End Identity.

(** C7: two series that share one regular, gap-free grid of at least
    two timestamps are aligned to themselves: the aligned pair has the
    timestamps of the grid and, row by row, the model values and the
    observation values of the inputs. *)
Theorem align_identity (t0 step : Z) (ms os : list R) :
  0 < step → (2 <= length ms)%nat → length os = length ms →
  ∃ j, align (on_grid t0 step ms) (on_grid t0 step os) = Aligned j
       ∧ Stats.time <$> j = grid t0 step (length ms)
       ∧ zip (Stats.time <$> j) (Some <$> (Stats.model <$> j)) = on_grid t0 step ms
       ∧ zip (Stats.time <$> j) (Some <$> (Stats.observation <$> j)) = on_grid t0 step os.
Proof.
  intros Hs Hl Hsame. exists (paired (grid t0 step (length ms)) ms os).
  split; [by apply align_same_grid|].
  assert (Ht : Stats.time <$> paired (grid t0 step (length ms)) ms os
               = grid t0 step (length ms)).
  { unfold paired. rewrite <- list_fmap_compose.
    etrans; [apply (list_fmap_ext _ fst); by intros|].
    apply fst_zip. rewrite length_grid, length_zip. lia. }
  assert (Hm : Stats.model <$> paired (grid t0 step (length ms)) ms os = ms).
  { unfold paired. rewrite <- list_fmap_compose.
    etrans; [apply (list_fmap_ext _ (fst ∘ snd)); by intros|].
    rewrite list_fmap_compose, snd_zip by (rewrite length_grid, length_zip; lia).
    apply fst_zip. lia. }
  assert (Ho : Stats.observation <$> paired (grid t0 step (length ms)) ms os = os).
  { unfold paired. rewrite <- list_fmap_compose.
    etrans; [apply (list_fmap_ext _ (snd ∘ snd)); by intros|].
    rewrite list_fmap_compose, snd_zip by (rewrite length_grid, length_zip; lia).
    apply snd_zip. lia. }
  rewrite Ht, Hm, Ho. split; [done|]. split; [done|].
  unfold on_grid. by rewrite Hsame.
Qed.

Lemma align_identity_witness :
  (0 < 60 ∧ (2 <= length [1%R; 2%R; 3%R])%nat
   ∧ length [10%R; 12%R; 14%R] = length [1%R; 2%R; 3%R])
  ∧ ∃ j, align (on_grid 0 60 [1%R; 2%R; 3%R]) (on_grid 0 60 [10%R; 12%R; 14%R])
         = Aligned j
       ∧ Stats.time <$> j = [0; 60; 120].
Proof.
  assert (H1 : 0 < 60) by lia.
  assert (H2 : (2 <= length [1%R; 2%R; 3%R])%nat) by (simpl; lia).
  assert (H3 : length [10%R; 12%R; 14%R] = length [1%R; 2%R; 3%R]) by reflexivity.
  split; [by repeat split|].
  destruct (align_identity 0 60 [1%R; 2%R; 3%R] [10%R; 12%R; 14%R] H1 H2 H3)
    as (j & Ha & Ht & _).
  exists j. split; [exact Ha | exact Ht].
Defined.

(** ** Further properties of [higher_resolution] *)

Lemma count_in_ne_nil v acc : count_in v acc ≠ [].
Proof.
  destruct acc as [|[w n] acc]; simpl; [done|].
  destruct (v <? w); [done|]. by destruct (v =? w).
Qed.

Lemma np_unique_counts_nil vs : np_unique_counts vs = [] ↔ vs = [].
Proof.
  split; [|by intros ->]. destruct vs as [|v vs]; [done|].
  intros H. by apply count_in_ne_nil in H.
Qed.

Lemma np_diff_nil ts : np_diff ts = [] ↔ (length ts < 2)%nat.
Proof.
  destruct ts as [|a [|b l]]; simpl; split; intros H; try done; lia.
Qed.

Lemma mode_None ts : mode ts = None ↔ (length ts < 2)%nat.
Proof.
  unfold mode. rewrite <- np_diff_nil, <- np_unique_counts_nil.
  by destruct (np_unique_counts (np_diff ts)).
Qed.

(** X12: [higher_resolution] raises exactly when one of the two indexes
    has fewer than two timestamps; otherwise it returns one of its two
    arguments, and the second one when the most frequent steps are
    equal. *)
Theorem higher_resolution_choice (df1 df2 : DataFrame) :
  (higher_resolution df1 df2 = None
   ↔ (length (index df1) < 2 ∨ length (index df2) < 2)%nat)
  ∧ (∀ hr, higher_resolution df1 df2 = Some hr → hr = df1 ∨ hr = df2)
  ∧ (mode (index df1) = mode (index df2) →
     ∀ hr, higher_resolution df1 df2 = Some hr → hr = df2).
Proof.
  unfold higher_resolution. rewrite <- !mode_None.
  destruct (mode (index df1)) as [m1|]; [destruct (mode (index df2)) as [m2|]|]; simpl.
  - split; [split; [done|intros [?|?]; done]|split].
    + intros hr [= <-]. destruct (m1 <? m2); [by left|by right].
    + intros [= ->] hr [= <-]. by rewrite Z.ltb_irrefl.
  - split; [split; [by right|done]|split; done].
  - split; [split; [by left|done]|split; done].
Qed.

(** The number of occurrences recorded for [w]. *)
Fixpoint count_of (acc : list (Z * nat)) (w : Z) : nat :=
  match acc with
  | [] => 0
  | (x, n) :: acc' => (if decide (x = w) then n else 0) + count_of acc' w
  end.

Lemma count_of_count_in v acc w :
  count_of (count_in v acc) w
  = ((if decide (v = w) then 1 else 0) + count_of acc w)%nat.
Proof.
  induction acc as [|[x n] acc IH]; simpl; [done|].
  destruct (Z.ltb_spec v x); [done|]. destruct (Z.eqb_spec v x) as [->|Hne]; simpl.
  - destruct (decide (x = w)); lia.
  - rewrite IH. lia.
Qed.

Lemma count_of_unique_counts vs w :
  count_of (np_unique_counts vs) w = count_occ Z.eq_dec vs w.
Proof.
  induction vs as [|v vs IH]; [done|]. unfold np_unique_counts in *. simpl.
  rewrite count_of_count_in, IH.
  destruct (decide (v = w)), (Z.eq_dec v w); done.
Qed.

(** The counted values increase strictly, and every count is positive. *)
Definition counted (acc : list (Z * nat)) : Prop :=
  StronglySorted (λ a b : Z * nat, a.1 < b.1) acc ∧ Forall (λ e, 0 < e.2)%nat acc.

Lemma count_in_bound lo v acc :
  lo < v → Forall (λ e : Z * nat, lo < e.1) acc →
  Forall (λ e : Z * nat, lo < e.1) (count_in v acc).
Proof.
  intros Hv. induction 1 as [|[x n] acc Hx Hacc IH]; simpl.
  - by repeat constructor.
  - destruct (v <? x); [by repeat constructor|].
    destruct (v =? x); by constructor.
Qed.

Lemma counted_count_in v acc : counted acc → counted (count_in v acc).
Proof.
  intros [Hs Hp]. induction Hs as [|[x n] acc Hs IH Hall]; simpl.
  - split; repeat constructor.
  - apply Forall_cons in Hp as [Hn Hp]. simpl in Hn.
    destruct (Z.ltb_spec v x).
    + split.
      * constructor; [by constructor|]. constructor; [done|].
        eapply Forall_impl; [exact Hall|]. simpl. intros e He. lia.
      * constructor; [simpl; lia|by constructor].
    + destruct (Z.eqb_spec v x) as [->|Hne].
      * split; [by constructor|]. constructor; [simpl; lia|done].
      * destruct (IH Hp) as [IHs IHp]. split.
        -- constructor; [done|]. apply (count_in_bound x); [lia|done].
        -- by constructor.
Qed.

Lemma counted_unique_counts vs : counted (np_unique_counts vs).
Proof.
  induction vs as [|v vs IH]; [split; constructor|].
  by apply counted_count_in.
Qed.

Lemma count_of_absent acc w :
  Forall (λ e : Z * nat, w < e.1) acc → count_of acc w = 0%nat.
Proof.
  induction 1 as [|[x n] acc Hx Hacc IH]; simpl; [done|].
  simpl in Hx. rewrite IH. destruct (decide (x = w)); lia.
Qed.

Lemma count_of_entry acc e :
  counted acc → e ∈ acc → count_of acc e.1 = e.2.
Proof.
  intros [Hs _]. induction Hs as [|[x n] acc Hs IH Hall]; intros Hin.
  - by apply elem_of_nil in Hin.
  - simpl. apply elem_of_cons in Hin as [->|Hin]; simpl.
    + rewrite decide_True by done. rewrite count_of_absent; [lia|done].
    + rewrite IH by done. rewrite Forall_forall in Hall.
      specialize (Hall e Hin). simpl in Hall.
      destruct (decide (x = e.1)); lia.
Qed.

Lemma count_of_pos acc w :
  (0 < count_of acc w)%nat → ∃ n, (w, n) ∈ acc.
Proof.
  induction acc as [|[x n] acc IH]; simpl; [lia|]. intros H.
  destruct (decide (x = w)) as [->|Hne].
  - exists n. by left.
  - destruct IH as [n' Hn']; [lia|]. exists n'. by right.
Qed.

(** [argmax]: the first of the entries with the largest count, which is
    the smallest value among them. *)
Lemma argmax_from_spec best l :
  Forall (λ e : Z * nat, best.1 < e.1) l →
  StronglySorted (λ a b : Z * nat, a.1 < b.1) l →
  argmax_from best l ∈ best :: l
  ∧ ∀ e, e ∈ best :: l →
      (e.2 <= (argmax_from best l).2)%nat
      ∧ (e.2 = (argmax_from best l).2 → (argmax_from best l).1 <= e.1).
Proof.
  intros Hb Hs. revert best Hb.
  induction Hs as [|x l Hs IH Hall]; intros best Hb; simpl.
  - split; [by left|]. intros e ->%list_elem_of_singleton. split; [lia|lia].
  - apply Forall_cons in Hb as [Hbx Hb].
    destruct (Nat.ltb_spec best.2 x.2) as [Hlt|Hge].
    + destruct (IH x Hall) as [Hin Hmax]. split; [by right|].
      intros e [->|He]%elem_of_cons; [|by apply Hmax].
      destruct (Hmax x) as [Hx _]; [by left|]. split; lia.
    + destruct (IH best Hb) as [Hin Hmax]. split.
      * apply elem_of_cons in Hin as [->|Hin]; [by left|by do 2 right].
      * intros e [->|[->|He]%elem_of_cons]%elem_of_cons.
        -- apply Hmax. by left.
        -- destruct (Hmax best) as [H1 H2]; [by left|]. split; [lia|].
           intros E. assert ((argmax_from best l).1 <= best.1) by (apply H2; lia). lia.
        -- apply Hmax. by right.
Qed.

(** X13: the step returned by [mode] occurs among the differences of
    consecutive timestamps, no other difference occurs more often, and
    among the differences that occur as often it is the smallest. *)
Theorem mode_most_frequent (ts : list Z) (d : Z) :
  mode ts = Some d →
  d ∈ np_diff ts
  ∧ ∀ d', (count_occ Z.eq_dec (np_diff ts) d' <= count_occ Z.eq_dec (np_diff ts) d)%nat
          ∧ (count_occ Z.eq_dec (np_diff ts) d' = count_occ Z.eq_dec (np_diff ts) d →
             d <= d').
Proof.
  unfold mode. pose proof (counted_unique_counts (np_diff ts)) as Hc.
  pose proof (count_of_unique_counts (np_diff ts)) as Hcount.
  destruct (np_unique_counts (np_diff ts)) as [|e l] eqn:E; [done|].
  intros [= <-]. destruct Hc as [Hs Hp].
  apply StronglySorted_inv in Hs as [Hs Hall].
  destruct (argmax_from_spec e l Hall Hs) as [Hin Hmax].
  set (r := argmax_from e l) in *.
  assert (Hr : count_occ Z.eq_dec (np_diff ts) r.1 = r.2).
  { rewrite <- Hcount. apply count_of_entry; [|done].
    split; [by constructor|done]. }
  assert (Hpos : (0 < r.2)%nat).
  { rewrite Forall_forall in Hp. by apply Hp. }
  split.
  - apply list_elem_of_In, (count_occ_In Z.eq_dec). lia.
  - intros d'. rewrite Hr.
    destruct (Nat.eq_dec (count_occ Z.eq_dec (np_diff ts) d') 0%nat) as [H0|H0].
    + rewrite H0. split; lia.
    + destruct (count_of_pos (e :: l) d') as [n Hn]; [rewrite Hcount; lia|].
      assert (En : count_occ Z.eq_dec (np_diff ts) d' = n).
      { rewrite <- Hcount.
        apply (count_of_entry (e :: l) (d', n)); [|done].
        split; [by constructor|done]. }
      rewrite En. apply (Hmax (d', n) Hn).
Qed.

Lemma mode_most_frequent_witness :
  mode [0; 10; 15; 25; 30] = Some 5
  ∧ 5 ∈ np_diff [0; 10; 15; 25; 30]
  ∧ (count_occ Z.eq_dec (np_diff [0; 10; 15; 25; 30]) 10
       = count_occ Z.eq_dec (np_diff [0; 10; 15; 25; 30]) 5 → 5 <= 10).
Proof.
  assert (H : mode [0; 10; 15; 25; 30] = Some 5) by reflexivity.
  split; [exact H|].
  destruct (mode_most_frequent [0; 10; 15; 25; 30] 5 H) as [Hin Hall].
  split; [exact Hin|]. exact (proj2 (Hall 10)).
Defined.

(** ** Further properties of the join *)

Lemma elem_of_join_inner (a b : series) t va vb :
  (t, (va, vb)) ∈ join_inner a b ↔ (t, va) ∈ a ∧ (t, vb) ∈ b.
Proof.
  unfold join_inner. rewrite list_elem_of_bind. split.
  - intros ([ta va'] & Hin & Ha). apply list_elem_of_bind in Hin as ([tb vb'] & Hin & Hb).
    apply list_elem_of_singleton in Hin. simpl in Hin. injection Hin as -> -> ->.
    apply list_elem_of_In, filter_In in Hb as [Hb Heq].
    apply bool_decide_eq_true in Heq. simpl in Heq. subst tb.
    split; [done|]. by apply list_elem_of_In.
  - intros [Ha Hb]. exists (t, va). split; [|done].
    apply list_elem_of_bind. exists (t, vb). split; [simpl; left|].
    apply list_elem_of_In, filter_In. split; [by apply list_elem_of_In|].
    by apply bool_decide_eq_true.
Qed.

Lemma insert_row_perm {A} (r : Z * A) (l : list (Z * A)) : insert_row r l ≡ₚ r :: l.
Proof.
  induction l as [|r' l IH]; [done|]. simpl.
  destruct (r.1 <=? r'.1); [done|]. rewrite IH. apply Permutation_swap.
Qed.

Lemma sort_index_perm {A} (l : list (Z * A)) : sort_index l ≡ₚ l.
Proof.
  induction l as [|r l IH]; [done|]. unfold sort_index in *. simpl.
  by rewrite insert_row_perm, IH.
Qed.

Lemma insert_row_sorted {A} (r : Z * A) (l : list (Z * A)) :
  StronglySorted (λ a b, a.1 <= b.1) l →
  StronglySorted (λ a b, a.1 <= b.1) (insert_row r l).
Proof.
  induction 1 as [|r' l Hs IH Hall]; simpl; [repeat constructor|].
  destruct (Z.leb_spec r.1 r'.1).
  - constructor; [by constructor|]. constructor; [done|].
    eapply Forall_impl; [exact Hall|]. simpl. intros. lia.
  - constructor; [done|]. rewrite insert_row_perm. constructor; [lia|done].
Qed.

Lemma sort_index_increasing {A} (l : list (Z * A)) :
  StronglySorted (λ a b, a.1 <= b.1) (sort_index l).
Proof.
  induction l as [|r l IH]; [constructor|]. by apply insert_row_sorted.
Qed.

Lemma dropna_time r row :
  match r with
  | (t, (Some m, Some o)) => Some (Stats.Row t m o)
  | _ => None
  end = Some row → Stats.time row = r.1.
Proof. destruct r as [t [[m|] [o|]]]; intros [= <-]; done. Qed.

Lemma dropna_increasing (l : list (Z * (option R * option R))) :
  StronglySorted (λ a b, a.1 <= b.1) l →
  StronglySorted (λ a b, Stats.time a <= Stats.time b) (dropna l).
Proof.
  unfold dropna. induction 1 as [|r l Hs IH Hall]; [constructor|]. simpl.
  destruct r as [t [[m|] [o|]]]; try done.
  constructor; [done|]. apply Forall_forall. intros row Hrow.
  apply list_elem_of_omap in Hrow as (r' & Hr' & Hrow).
  apply dropna_time in Hrow. rewrite Forall_forall in Hall.
  specialize (Hall r' Hr'). simpl in *. lia.
Qed.

Lemma elem_of_joined (model_data obs_data : series) t m o :
  Stats.Row t m o ∈ joined model_data obs_data
  ↔ (t, Some m) ∈ model_data ∧ (t, Some o) ∈ obs_data.
Proof.
  unfold joined, dropna. rewrite list_elem_of_omap.
  rewrite <- elem_of_join_inner. split.
  - intros ([t' [[m'|] [o'|]]] & Hin & [= -> -> ->]).
    by rewrite sort_index_perm in Hin.
  - intros Hin. exists (t, (Some m, Some o)). split; [|done].
    by rewrite sort_index_perm.
Qed.

Lemma joined_increasing (model_data obs_data : series) :
  StronglySorted (λ a b, Stats.time a <= Stats.time b) (joined model_data obs_data).
Proof. apply dropna_increasing, sort_index_increasing. Qed.

(** X14: the joined frame holds exactly the rows whose timestamp has a
    value in the model data and a value in the observation data, and
    its timestamps increase. *)
Theorem joined_rows (model_data obs_data : series) :
  (∀ t m o, Stats.Row t m o ∈ joined model_data obs_data
            ↔ (t, Some m) ∈ model_data ∧ (t, Some o) ∈ obs_data)
  ∧ StronglySorted (λ a b, Stats.time a <= Stats.time b) (joined model_data obs_data).
Proof.
  split; [|apply joined_increasing]. intros t m o. apply elem_of_joined.
Qed.

(** ** Further properties of the alignment *)

Lemma elem_of_loc_slice (s : series) a b r :
  r ∈ loc_slice s a b ↔ r ∈ s ∧ a <= r.1 <= b.
Proof.
  unfold loc_slice. rewrite list_elem_of_In, filter_In, <- list_elem_of_In.
  by rewrite bool_decide_eq_true.
Qed.

(** X15: the rows of an aligned pair are not empty, their timestamps
    increase, and every observation value is a sample of the observation
    file taken between the first timestamp of the model and one model
    step after its last timestamp. *)
Theorem aligned_observations (model_rows obs_rows : series) (j : list Stats.row) :
  align model_rows obs_rows = Aligned j →
  j ≠ []
  ∧ StronglySorted (λ a b, Stats.time a <= Stats.time b) j
  ∧ ∃ m0 m1 ml,
      fst <$> model_rows = m0 :: m1 :: ml
      ∧ ∀ row, row ∈ j →
          ∃ t', (t', Some (Stats.observation row)) ∈ obs_rows
                ∧ m0 <= t' <= List.last (fst <$> model_rows) m0 + (m1 - m0).
Proof.
  unfold align, index. cbn [rows].
  destruct (fst <$> model_rows) as [|m0 [|m1 ml]] eqn:Em; [done|done|].
  set (hi := List.last (m0 :: m1 :: ml) m0 + (m1 - m0)).
  destruct (fst <$> loc_slice obs_rows m0 hi) as [|o0 [|o1 ol]] eqn:Eo; [done|done|].
  destruct (resampled _ _ _ _) as [[md od]|] eqn:Er; [|done].
  destruct (bool_decide_reflect (joined md od = [])) as [|Hne]; [done|].
  intros [= <-]. split; [done|]. split; [apply joined_increasing|].
  exists m0, m1, ml. split; [done|]. intros [t m o] Hrow.
  apply elem_of_joined in Hrow as [_ Ho]. simpl.
  assert (Hmodes : is_Some (mode (index (mkDataFrame 0 (loc_slice obs_rows m0 hi))))
                   ∧ is_Some (mode (index (mkDataFrame 1 model_rows)))).
  { unfold resampled, higher_resolution in Er.
    destruct (mode (index (mkDataFrame 0 (loc_slice obs_rows m0 hi)))); [|done].
    destruct (mode (index (mkDataFrame 1 model_rows))); [|done]. by split. }
  destruct Hmodes as [[mo Hmo] [mm Hmm]].
  assert (Hd : ident (mkDataFrame 0 (loc_slice obs_rows m0 hi))
               ≠ ident (mkDataFrame 1 model_rows)) by done.
  destruct (resampled_observation (mkDataFrame 0 (loc_slice obs_rows m0 hi))
              (mkDataFrame 1 model_rows) (m1 - m0) (o1 - o0) mo mm Hd Hmo Hmm
              md od t o Er Ho) as [t' Ht'].
  cbn [rows] in Ht'. apply elem_of_loc_slice in Ht' as [Hin Hb].
  exists t'. by split.
Qed.

Lemma aligned_observations_witness :
  align (on_grid 0 60 [1%R; 2%R; 3%R]) (on_grid 0 60 [10%R; 12%R; 14%R])
  = Aligned (paired (grid 0 60 3) [1%R; 2%R; 3%R] [10%R; 12%R; 14%R])
  ∧ paired (grid 0 60 3) [1%R; 2%R; 3%R] [10%R; 12%R; 14%R] ≠ [].
Proof.
  assert (H : align (on_grid 0 60 [1%R; 2%R; 3%R]) (on_grid 0 60 [10%R; 12%R; 14%R])
              = Aligned (paired (grid 0 60 3) [1%R; 2%R; 3%R] [10%R; 12%R; 14%R])).
  { apply (align_same_grid 0 60 [1%R; 2%R; 3%R] [10%R; 12%R; 14%R]); simpl; lia. }
  split; [exact H|].
  exact (proj1 (aligned_observations _ _ _ H)).
Defined.

(** ** The grid and the cells of a resampling *)




Lemma index_min_elem ts first : index_min ts = Some first → first ∈ ts.
Proof.
  destruct ts as [|t ts]; [done|]. simpl. intros [= <-].
  apply (foldr_min_spec t ts).
Qed.








(** ** What linear interpolation computes *)






















End Resample.

(** * The loop over the stations ([main]) *)

Module Pipeline.

Import Num.
Local Open Scope Z_scope.

(** The command-line options the loop reads ([--cut], [--bias-correct]);
    the run modelled is the water-level comparison, without [--tide]. *)
Record options := mkOptions { cut : Z; opt_bias_correct : bool }.

(** What the collaborators of [main] supply for one row of the
    correspondence table: the station, its datum, the name and the path
    of the observation file, whether that path is a file, the model
    series selected for the station, and the result of [open_csv]
    ([None] when it raises). *)
Record station_input := mkStation {
  station : string;
  st_datum : option string;
  fn_name : string;
  path : string;
  is_file : bool;
  model_series : Resample.series;
  csv : option Resample.series
}.

(** The lines [main] prints. *)
Inductive message :=
  | Skipping (path : string)            (* "Skipping <path> (data file not found)" *)
  | JoinedEmpty (station : string)      (* "Joined dataframe is empty for station <station>" *)
  | Writing (station_id : string).      (* "writing and plotting <station_id>" *)

(** A row of [summary.csv]. *)
Record summary_row := mkSummary {
  sr_station_id : string;
  sr_bias : option R;
  sr_corr : option R;
  sr_rmse : option R;
  sr_nrmse : option R;
  sr_skill : option R
}.

(** One pass through the body of the loop: the lines printed and the row
    appended to [summary], if any; or an exception, which nothing in
    [main] catches. *)
Inductive pass :=
  | Pass (printed : list message) (row : option summary_row)
  | Exn.

Definition ns_per_hour : Z := 3600 * 1000000000.

(** [np.isnan(model.values).all()]. *)
Definition all_nan (s : Resample.series) : bool :=
  forallb (λ r : Z * option R, bool_decide (r.2 = None)) s.

(** [model.loc[model.index[model.index >= model.index[0] + cutter]]]. *)
Definition drop_warmup (cutter : Z) (s : Resample.series) : option Resample.series :=
  t0 ← head (fst <$> s);
  Some (List.filter (λ r : Z * option R, bool_decide (t0 + cutter <= r.1)) s).

Definition measures (d : Stats.TSData) : summary_row :=
  mkSummary (Stats.station_id d) (Stats.bias d) (Stats.corr d) (Stats.rmse d)
            (Stats.nrmse d) (Stats.skill d).

Definition station_pass (args : options) (st : station_input) : pass :=
  if bool_decide (fn_name st = ""%string) then Pass [] None
  else if negb (is_file st) then Pass [Skipping (path st)] None
  else if all_nan (model_series st) then Pass [] None
  else
    (* drop the first hours of the model to remove warm-up effects *)
    match drop_warmup (cut args * ns_per_hour) (model_series st) with
    | None => Exn
    | Some model =>
        match fst <$> model with
        | _ :: _ :: _ =>
            match csv st with
            | None => Exn
            | Some obs =>
                match Resample.align model obs with
                | Resample.TooShort => Pass [] None
                | Resample.EmptyJoin => Pass [JoinedEmpty (station st)] None
                | Resample.Raised => Exn
                | Resample.Aligned j =>
                    let d := Stats.TSData_init (st_datum st) (station st) j
                               (opt_bias_correct args) in
                    (* [pearsonr] raises on fewer than two samples *)
                    if bool_decide (length j < 2)%nat then Exn
                    else Pass [Writing (Stats.station_id d)] (Some (measures d))
                end
            end
        | _ => Exn
        end
    end.

(** The loop: [summary] and the output grow station by station; an
    exception ends the run. *)
Fixpoint main_loop (args : options) (stations : list station_input)
    (printed : list message) (summary : list summary_row)
    : option (list message * list summary_row) :=
  match stations with
  | [] => Some (printed, summary)
  | st :: rest =>
      match station_pass args st with
      | Exn => None
      | Pass msgs row =>
          main_loop args rest (printed ++ msgs)
            (match row with Some r => summary ++ [r] | None => summary end)
      end
  end.

(** [main]: what has been printed and the rows of [summary.csv]. *)
Definition main (args : options) (stations : list station_input)
    : option (list message * list summary_row) :=
  main_loop args stations [] [].

(** ** What a run prints and records *)

Definition row_of (p : pass) : option summary_row :=
  match p with Pass _ row => row | Exn => None end.

Definition printed_by (p : pass) : list message :=
  match p with Pass msgs _ => msgs | Exn => [] end.

Lemma main_loop_raises args stations printed summary :
  main_loop args stations printed summary = None ↔
  ∃ st, st ∈ stations ∧ station_pass args st = Exn.
Proof.
  revert printed summary. induction stations as [|st rest IH]; intros printed summary.
  - simpl. split; [done|]. intros (st & Hst & _). by apply elem_of_nil in Hst.
  - simpl. destruct (station_pass args st) as [msgs row|] eqn:E.
    + rewrite IH. split.
      * intros (st' & Hin & Hexn). exists st'. split; [by right | done].
      * intros (st' & Hin & Hexn). apply elem_of_cons in Hin as [->|Hin].
        -- congruence.
        -- by exists st'.
    + split; [|done]. intros _. exists st. split; [left | done].
Qed.

Lemma main_loop_completes args stations printed summary :
  (∀ st, st ∈ stations → station_pass args st ≠ Exn) →
  main_loop args stations printed summary
  = Some (printed ++ concat (printed_by ∘ station_pass args <$> stations),
          summary ++ omap (row_of ∘ station_pass args) stations).
Proof.
  revert printed summary. induction stations as [|st rest IH];
    intros printed summary Hok.
  - simpl. by rewrite !app_nil_r.
  - simpl. destruct (station_pass args st) as [msgs row|] eqn:E.
    + rewrite IH by (intros st' Hst'; apply Hok; by right).
      simpl. destruct row; simpl; by rewrite <- !app_assoc.
    + exfalso. apply (Hok st); [left | done].
Qed.

(** A row carries the identifier of its station. *)
Lemma station_pass_row_id args st msgs r :
  station_pass args st = Pass msgs (Some r) → sr_station_id r = station st.
Proof.
  unfold station_pass.
  repeat (case_match; try done). intros [= _ <-]. reflexivity.
Qed.

(** The messages of a skipped station. *)
Lemma station_pass_skipped args st msgs :
  station_pass args st = Pass msgs None →
  msgs = [] ∨ msgs = [Skipping (path st)] ∨ msgs = [JoinedEmpty (station st)].
Proof.
  unfold station_pass.
  repeat (case_match; try done); intros [= <-]; auto.
Qed.




Lemma station_pass_aligned args st model obs j :
  fn_name st ≠ ""%string → is_file st = true → all_nan (model_series st) = false →
  drop_warmup (cut args * ns_per_hour) (model_series st) = Some model →
  csv st = Some obs → Resample.align model obs = Resample.Aligned j →
  (2 <= length j)%nat →
  station_pass args st
  = Pass [Writing (station st)]
         (Some (measures (Stats.TSData_init (st_datum st) (station st) j
                            (opt_bias_correct args)))).
Proof.
  intros Hfn Hf Hn Hm Hc Ha Hj. unfold station_pass.
  rewrite bool_decide_eq_false_2 by done. rewrite Hf, Hn, Hm, Hc, Ha. simpl.
  destruct (fst <$> model) as [|m0 [|m1 ml]] eqn:E.
  - unfold Resample.align, Resample.index in Ha. simpl in Ha. by rewrite E in Ha.
  - unfold Resample.align, Resample.index in Ha. simpl in Ha. by rewrite E in Ha.
  - by rewrite bool_decide_eq_false_2 by lia.
Qed.

(** Three rows of a correspondence table: no observation file is named,
    the named file is missing, and a station with three samples. *)
Definition unnamed_station : station_input :=
  mkStation "8720218" None "" "obs" false [] None.

Definition missing_station : station_input :=
  mkStation "8721604" None "8721604.csv" "obs/8721604.csv" false [] None.

Definition good_station : station_input :=
  mkStation "8722670" (Some "NAVD88"%string) "8722670.csv" "obs/8722670.csv" true
    [(0, Some 1%R); (60, Some 2%R); (120, Some 3%R)]
    (Some [(0, Some 1%R); (60, Some 3%R); (120, Some 2%R)]).


Definition no_cut : options := mkOptions 0 false.

Lemma good_station_pass :
  ∃ r, station_pass no_cut good_station = Pass [Writing "8722670"] (Some r)
       ∧ sr_station_id r = "8722670"%string.
Proof.
  eexists. split.
  - apply (station_pass_aligned no_cut good_station
             (Resample.on_grid 0 60 [1%R; 2%R; 3%R])
             (Resample.on_grid 0 60 [1%R; 3%R; 2%R])
             (Resample.paired (Resample.grid 0 60 3) [1%R; 2%R; 3%R] [1%R; 3%R; 2%R]));
      [done | done | done | done | done | | simpl; lia].
    apply (Resample.align_same_grid 0 60 [1%R; 2%R; 3%R] [1%R; 3%R; 2%R]);
      simpl; lia.
  - reflexivity.
Qed.




(** ** Further properties of a run *)

(** The warm-up cut at one hour drops every sample of the three-sample
    station. *)
Definition cut_one_hour : options := mkOptions 1 false.

Lemma station_pass_short_model args st :
  fn_name st ≠ ""%string → is_file st = true → all_nan (model_series st) = false →
  (∀ model, drop_warmup (cut args * ns_per_hour) (model_series st) = Some model →
            (length model < 2)%nat) →
  station_pass args st = Exn.
Proof.
  intros Hfn Hf Hn Hshort. unfold station_pass.
  rewrite bool_decide_eq_false_2 by done. rewrite Hf, Hn. simpl.
  destruct (drop_warmup _ _) as [model|]; [|done].
  specialize (Hshort model eq_refl).
  destruct model as [|r0 [|r1 model]]; simpl in *; [done|done|lia].
Qed.

(** X16: when the warm-up cut leaves fewer than two samples of a model
    series that is not all missing, the station raises, and so does
    every run whose table lists that station: the test for an empty
    model that would skip it comes after the model step is read. *)
Theorem short_model_raises (args : options) (st : station_input) :
  fn_name st ≠ ""%string → is_file st = true → all_nan (model_series st) = false →
  (∀ model, drop_warmup (cut args * ns_per_hour) (model_series st) = Some model →
            (length model < 2)%nat) →
  station_pass args st = Exn
  ∧ ∀ stations, st ∈ stations → main args stations = None.
Proof.
  intros Hfn Hf Hn Hshort.
  assert (He : station_pass args st = Exn) by by apply station_pass_short_model.
  split; [done|]. intros stations Hin. apply main_loop_raises. by exists st.
Qed.

Lemma short_model_raises_witness :
  (fn_name good_station ≠ ""%string ∧ is_file good_station = true
   ∧ all_nan (model_series good_station) = false
   ∧ ∀ model, drop_warmup (cut cut_one_hour * ns_per_hour) (model_series good_station)
              = Some model → (length model < 2)%nat)
  ∧ station_pass cut_one_hour good_station = Exn
  ∧ main cut_one_hour [unnamed_station; good_station] = None.
Proof.
  assert (H1 : fn_name good_station ≠ ""%string) by done.
  assert (H2 : is_file good_station = true) by reflexivity.
  assert (H3 : all_nan (model_series good_station) = false) by reflexivity.
  assert (H4 : ∀ model,
    drop_warmup (cut cut_one_hour * ns_per_hour) (model_series good_station)
    = Some model → (length model < 2)%nat).
  { intros model [= <-]. simpl. lia. }
  split; [exact (conj H1 (conj H2 (conj H3 H4)))|].
  destruct (short_model_raises cut_one_hour good_station H1 H2 H3 H4) as [He Hall].
  split; [exact He|]. apply Hall. right; left.
Defined.

Lemma station_pass_row args st msgs r :
  station_pass args st = Pass msgs (Some r) →
  ∃ j, (2 <= length j)%nat
       ∧ r = measures (Stats.TSData_init (st_datum st) (station st) j
                         (opt_bias_correct args)).
Proof.
  unfold station_pass.
  repeat (case_match; try done). intros [= _ <-].
  eexists. split; [|reflexivity].
  match goal with H : bool_decide _ = false |- _ =>
    apply bool_decide_eq_false in H; lia end.
Qed.

Lemma length_TSData_init datum station_id j b :
  length (Stats.data (Stats.TSData_init datum station_id j b)) = length j.
Proof.
  unfold Stats.TSData_init. simpl. destruct b; [|done].
  destruct (mean _); [apply length_fmap|done].
Qed.

Lemma residual_ne_nil (d : Stats.TSData) :
  Stats.data d ≠ [] → ssub (Stats.predicted d) (Stats.observed d) ≠ [].
Proof.
  intros H. unfold Stats.predicted, Stats.observed. rewrite Stats.residual_fmap.
  by apply fmap_ne_nil.
Qed.

Lemma bias_defined (d : Stats.TSData) : Stats.data d ≠ [] → is_Some (Stats.bias d).
Proof.
  intros H. unfold Stats.bias. rewrite mean_Some by by apply residual_ne_nil.
  by eexists.
Qed.

Lemma rmse_defined (d : Stats.TSData) :
  Stats.data d ≠ [] → ∃ e, Stats.rmse d = Some e ∧ (0 <= e)%R.
Proof.
  intros H. unfold Stats.rmse.
  rewrite mean_Some by (by apply fmap_ne_nil, residual_ne_nil).
  eexists. split; [reflexivity|]. apply sqrt_pos.
Qed.

Lemma summary_ids_sublist args stations :
  sr_station_id <$> omap (row_of ∘ station_pass args) stations
  `sublist_of` station <$> stations.
Proof.
  induction stations as [|st rest IH]; [constructor|]. simpl.
  destruct (station_pass args st) as [msgs [r|]|] eqn:E; simpl.
  - rewrite (station_pass_row_id _ _ _ _ E). by constructor.
  - by constructor.
  - by constructor.
Qed.

(** X17: in a run in which no station raises, the station identifiers
    of the summary follow the order of the correspondence table, with
    at most one row for a row of the table, and every row of the summary
    carries a defined bias and a defined RMSE that is not negative. *)
Theorem summary_rows_defined (args : options) (stations : list station_input) :
  (∀ st, st ∈ stations → station_pass args st ≠ Exn) →
  ∃ printed summary,
    main args stations = Some (printed, summary)
    ∧ sr_station_id <$> summary `sublist_of` station <$> stations
    ∧ ∀ r, r ∈ summary →
        is_Some (sr_bias r) ∧ ∃ e, sr_rmse r = Some e ∧ (0 <= e)%R.
Proof.
  intros Hok. unfold main. rewrite (main_loop_completes _ _ _ _ Hok). simpl.
  eexists _, _. split; [reflexivity|]. split; [apply summary_ids_sublist|].
  intros r Hr. apply list_elem_of_omap in Hr as (st & Hst & Hrow). simpl in Hrow.
  destruct (station_pass args st) as [msgs row|] eqn:E; [|done].
  simpl in Hrow. subst row.
  apply station_pass_row in E as (j & Hj & ->). simpl.
  assert (Hne : Stats.data (Stats.TSData_init (st_datum st) (station st) j
                              (opt_bias_correct args)) ≠ []).
  { intros E. apply (f_equal length) in E. rewrite length_TSData_init in E.
    simpl in E. lia. }
  split; [by apply bias_defined|by apply rmse_defined].
Qed.

Lemma summary_rows_defined_witness :
  let stations := [unnamed_station; missing_station; good_station] in
  (∀ st, st ∈ stations → station_pass no_cut st ≠ Exn)
  ∧ ∃ printed summary,
      main no_cut stations = Some (printed, summary)
      ∧ sr_station_id <$> summary `sublist_of` station <$> stations.
Proof.
  intros stations.
  assert (H1 : ∀ st, st ∈ stations → station_pass no_cut st ≠ Exn).
  { intros st Hst. unfold stations in Hst.
    apply elem_of_cons in Hst as [->|Hst]; [discriminate|].
    apply elem_of_cons in Hst as [->|Hst]; [discriminate|].
    apply list_elem_of_singleton in Hst as ->.
    destruct good_station_pass as (r & -> & _). discriminate. }
  split; [exact H1|].
  destruct (summary_rows_defined no_cut stations H1) as (printed & summary & Hm & Hs & _).
  by exists printed, summary.
Defined.

End Pipeline.

(** * Reading the inputs: the observation file and the correspondence table *)

Module Inputs.

Import Stdlib.Strings.Ascii.

(** ** [open_csv], up to the choice of the two columns

    What is modelled is the part of [open_csv] that belongs to this
    repository: the recognition of the date column and of the value
    column in the header, and the name given to the value column.  The
    header is the list of column names [pd.read_csv] returns. *)

Definition possible_dates : list string :=
  ["Date (utc)"; "Date Time"; "Date and Time (GMT)"]%string.

Definition possible_data : list string :=
  ["gage height (m)"; "Water Level"; "Water level (m NAVD88)";
   "Elevation ocean/est (m NAVD88)"; "Prediction";
   "Stream water level elevation above NAVD 1988 (m)"]%string.

Inductive exn := RuntimeError | IndexError.

Inductive result (A : Type) :=
  | Ok (a : A)
  | Raise (e : exn).
Arguments Ok {A} a.
Arguments Raise {A} e.

(** [str.lower] on the letters A to Z; the names of [possible_data] have
    no other upper-case character. *)
Definition lower_ascii (a : ascii) : ascii :=
  let n := nat_of_ascii a in
  if (65 <=? n)%nat && (n <=? 90)%nat then ascii_of_nat (n + 32) else a.

Fixpoint lower (s : string) : string :=
  match s with
  | EmptyString => EmptyString
  | String a s' => String (lower_ascii a) (lower s')
  end.

(** [columns.isin(names)]. *)
Definition isin (names columns : list string) : list bool :=
  (λ c, bool_decide (c ∈ names)) <$> columns.

(** [np.count_nonzero] of a boolean mask. *)
Definition count_nonzero (mask : list bool) : nat :=
  length (List.filter (λ b : bool, b) mask).

(** [columns[mask]]. *)
Definition masked (columns : list string) (mask : list bool) : list string :=
  fst <$> List.filter snd (zip columns mask).

(** The record of one row of the correspondence table.  [Storm] and
    [Datum] are [None] for a missing cell, and for every row when the
    table has no such column. *)
Record entry := mkEntry {
  GageID : string;
  ProcessedCSVLoc : string;
  Storm : option string;
  Datum : option string
}.

(** [--storm]: [action='append'] on the default [['Any']] appends the
    values given on the command line to the default. *)
Definition storm_option (given : list string) : list string := "Any"%string :: given.

Section Readers.

(** [str.strip], of the Python library. *)
Variable strip : string → string.

(** The date label, the value label and the name of the value column
    after the renaming. *)
Definition open_csv (header : list string) : result (string * string * string) :=
  (* remove possible spaces in column names *)
  let columns := strip <$> header in
  let date_col := isin possible_dates columns in
  let values_col := isin possible_data columns in
  if negb (count_nonzero date_col =? 1)%nat && negb (count_nonzero values_col =? 1)%nat
  then Raise RuntimeError
  else
    match masked columns date_col with
    | [] => Raise IndexError
    | date_label :: _ =>
        match masked columns values_col with
        | [] => Raise IndexError
        | value_label :: _ =>
            let rname :=
              if bool_decide (lower value_label ≠ "prediction"%string)
              then "measurement"%string else "prediction"%string in
            Ok (date_label, value_label, rname)
        end
    end.

(** ** [read_correspondence_table] *)

(** [set_index('GageID').sort_index()]. *)
Fixpoint insert_entry (e : entry) (l : list entry) : list entry :=
  match l with
  | [] => [e]
  | e' :: l' =>
      if String.leb (GageID e) (GageID e') then e :: l else e' :: insert_entry e l'
  end.

Definition sort_index (l : list entry) : list entry := foldr insert_entry [] l.

(** [correspond["Storm"].isin(storms)]. *)
Definition storm_mask (storms : list string) (e : entry) : Prop :=
  ∃ s, Storm e = Some s ∧ s ∈ storms.

#[global] Instance storm_mask_dec storms e : Decision (storm_mask storms e).
Proof.
  unfold storm_mask. destruct (Storm e) as [s|].
  - destruct (decide (s ∈ storms)) as [H|H].
    + left. by exists s.
    + right. intros (s' & [= <-] & Hs). done.
  - right. by intros (s & [=] & _).
Defined.

(** The table as [main] uses it, or [None] for the [RuntimeError]
    "GageID needs to be unique". *)
Definition read_correspondence_table (has_storm has_datum : bool)
    (rows : list entry) (storms : list string) : option (list entry) :=
  let correspond :=
    (λ e, mkEntry (strip (GageID e)) (ProcessedCSVLoc e) (Storm e) (Datum e)) <$> rows in
  let correspond := sort_index correspond in
  let correspond :=
    (* filter by storm before uniqueness check *)
    if has_storm then filter (storm_mask storms) correspond else correspond in
  if bool_decide (NoDup (GageID <$> correspond)) then
    Some (if has_datum then correspond
          else (λ e, mkEntry (GageID e) (ProcessedCSVLoc e) (Storm e) None)
                 <$> correspond)
  else None.

(** The rows that pass the storm filter, in the order of the file. *)
Definition kept (has_storm : bool) (rows : list entry) (storms : list string)
    : list entry :=
  if has_storm then filter (storm_mask storms) rows else rows.

(** ** The columns of an observation file *)

Lemma count_nonzero_isin names columns :
  count_nonzero (isin names columns)
  = length (List.filter (λ c, bool_decide (c ∈ names)) columns).
Proof.
  unfold count_nonzero, isin. induction columns as [|c cs IH]; [done|].
  rewrite fmap_cons. simpl. destruct (bool_decide (c ∈ names)); simpl; by rewrite IH.
Qed.

Lemma masked_isin names columns :
  masked columns (isin names columns)
  = List.filter (λ c, bool_decide (c ∈ names)) columns.
Proof.
  unfold masked, isin. induction columns as [|c cs IH]; [done|].
  rewrite fmap_cons. simpl. destruct (bool_decide (c ∈ names)); simpl;
    [f_equal|]; exact IH.
Qed.

Lemma rname_prediction v :
  v ∈ possible_data →
  (if bool_decide (lower v ≠ "prediction"%string)
   then "measurement"%string else "prediction"%string) = "prediction"%string
  ↔ v = "Prediction"%string.
Proof.
  unfold possible_data. intros Hv.
  repeat (apply elem_of_cons in Hv as [->|Hv]; [by vm_compute|]).
  by apply elem_of_nil in Hv.
Qed.

(** X18: [open_csv] reports an unknown format only when neither the
    date column nor the value column is recognised exactly once; with
    one of them recognised once and the other one missing the lookup of
    the missing label fails instead; in every other case the first
    recognised date column and the first recognised value column are
    taken, and the value column is renamed to "prediction" exactly when
    it is the column "Prediction". *)
Theorem open_csv_columns (header : list string) :
  let dates := List.filter (λ c, bool_decide (c ∈ possible_dates)) (strip <$> header) in
  let values := List.filter (λ c, bool_decide (c ∈ possible_data)) (strip <$> header) in
  (open_csv header = Raise RuntimeError ↔ length dates ≠ 1%nat ∧ length values ≠ 1%nat)
  ∧ (open_csv header = Raise IndexError
     ↔ (dates = [] ∧ length values = 1%nat) ∨ (length dates = 1%nat ∧ values = []))
  ∧ ∀ d v rname, open_csv header = Ok (d, v, rname) →
      head dates = Some d ∧ head values = Some v
      ∧ (rname = "prediction"%string ↔ v = "Prediction"%string)
      ∧ (rname = "measurement"%string ∨ rname = "prediction"%string).
Proof.
  intros dates values. unfold open_csv.
  rewrite !count_nonzero_isin, !masked_isin. fold dates values.
  assert (Hv : ∀ v, head values = Some v → v ∈ possible_data).
  { intros v Hh. apply head_Some_elem_of in Hh.
    apply list_elem_of_In, filter_In in Hh as [_ Hh]. by apply bool_decide_eq_true in Hh. }
  clearbody dates values.
  assert (Hok : ∀ (d v d0 v0 rname : string),
    v ∈ possible_data →
    Ok (d, v, if bool_decide (lower v ≠ "prediction"%string)
              then "measurement"%string else "prediction"%string)
    = Ok (d0, v0, rname) →
    Some d = Some d0 ∧ Some v = Some v0
    ∧ (rname = "prediction"%string ↔ v0 = "Prediction"%string)
    ∧ (rname = "measurement"%string ∨ rname = "prediction"%string)).
  { intros d v d0 v0 rname Hin [= <- <- <-]. split; [done|]. split; [done|].
    split; [by apply rname_prediction|].
    destruct (bool_decide _); [by left|by right]. }
  destruct dates as [|d [|d' ds]], values as [|v [|v' vs]]; simpl;
    (split; [|split]);
    try (intros d0 v0 rname; apply Hok, Hv; done);
    try done;
    try (split; [done|]; intros [? ?]; simpl in *; lia);
    try (split; [done|]; intros [[? ?]|[? ?]]; simpl in *; done || lia);
    try (split; [|done]; intros _; simpl; lia);
    try (split; [|done]; intros _; simpl; (by left) || (by right)).
Qed.

(** ** The correspondence table *)

Lemma ascii_compare_spec (a b : ascii) :
  CompareSpec (a = b) (N_of_ascii a < N_of_ascii b)%N (N_of_ascii b < N_of_ascii a)%N
    (Ascii.compare a b).
Proof.
  unfold Ascii.compare. destruct (N.compare_spec (N_of_ascii a) (N_of_ascii b)) as [E| |];
    constructor; [|done..].
  by rewrite <- (ascii_N_embedding a), <- (ascii_N_embedding b), E.
Qed.

Lemma string_le_trans (s1 s2 s3 : string) :
  String.compare s1 s2 ≠ Gt → String.compare s2 s3 ≠ Gt → String.compare s1 s3 ≠ Gt.
Proof.
  revert s2 s3. induction s1 as [|a s1 IH]; intros [|b s2] [|c s3]; simpl; try done.
  destruct (ascii_compare_spec a b) as [->|Hab|Hab]; [| |done].
  - destruct (ascii_compare_spec b c) as [->|Hbc|Hbc]; [apply IH|done|done].
  - intros _. destruct (ascii_compare_spec b c) as [->|Hbc|Hbc]; [| |done].
    + intros _. destruct (ascii_compare_spec a c) as [->| |]; [lia|done|lia].
    + intros _. destruct (ascii_compare_spec a c) as [->| |]; [lia|done|lia].
Qed.

Lemma leb_trans (s1 s2 s3 : string) :
  String.leb s1 s2 = true → String.leb s2 s3 = true → String.leb s1 s3 = true.
Proof.
  unfold String.leb. pose proof (string_le_trans s1 s2 s3) as H.
  destruct (String.compare s1 s2), (String.compare s2 s3), (String.compare s1 s3);
    try done; intros _ _; exfalso; by apply H.
Qed.

Abbreviation id_le := (λ a b : entry, String.leb (GageID a) (GageID b) = true).

Lemma insert_entry_perm e l : insert_entry e l ≡ₚ e :: l.
Proof.
  induction l as [|e' l IH]; [done|]. simpl.
  destruct (String.leb _ _); [done|]. rewrite IH. apply Permutation_swap.
Qed.

Lemma sort_by_id_perm l : sort_index l ≡ₚ l.
Proof.
  induction l as [|e l IH]; [done|]. unfold sort_index in *. simpl.
  by rewrite insert_entry_perm, IH.
Qed.

Lemma insert_entry_sorted e l :
  StronglySorted id_le l → StronglySorted id_le (insert_entry e l).
Proof.
  induction 1 as [|e' l Hs IH Hall]; simpl; [repeat constructor|].
  destruct (String.leb (GageID e) (GageID e')) eqn:E.
  - constructor; [by constructor|]. constructor; [done|].
    eapply Forall_impl; [exact Hall|]. simpl. intros x Hx. by eapply leb_trans.
  - constructor; [done|]. rewrite insert_entry_perm. constructor; [|done].
    destruct (String.leb_total (GageID e) (GageID e')); congruence.
Qed.

Lemma sort_by_id_sorted l : StronglySorted id_le (sort_index l).
Proof.
  induction l as [|e l IH]; [constructor|]. by apply insert_entry_sorted.
Qed.

Lemma sublist_sorted {A} (R : A → A → Prop) (l k : list A) :
  l `sublist_of` k → StronglySorted R k → StronglySorted R l.
Proof.
  induction 1 as [|x l k Hsub IH|x l k Hsub IH]; intros Hs; [done| |].
  - apply StronglySorted_inv in Hs as [Hs Hall]. constructor; [by apply IH|].
    apply Forall_forall. intros y Hy. rewrite Forall_forall in Hall.
    apply Hall. by eapply elem_of_sublist.
  - apply StronglySorted_inv in Hs as [Hs _]. by apply IH.
Qed.

Lemma fmap_sorted {A B} (R : A → A → Prop) (R' : B → B → Prop) (f : A → B) l :
  (∀ x y, R x y → R' (f x) (f y)) → StronglySorted R l → StronglySorted R' (f <$> l).
Proof.
  intros Hf. induction 1 as [|x l Hs IH Hall]; [constructor|].
  rewrite fmap_cons. constructor; [done|]. rewrite Forall_fmap.
  eapply Forall_impl; [exact Hall|]. intros y Hy. by apply Hf.
Qed.

Abbreviation stripped := (λ e : entry,
  mkEntry (strip (GageID e)) (ProcessedCSVLoc e) (Storm e) (Datum e)).

Abbreviation without_datum := (λ e : entry,
  mkEntry (GageID e) (ProcessedCSVLoc e) (Storm e) None).

Lemma filtered_perm (has_storm : bool) (storms : list string) (rows : list entry) :
  (if has_storm then filter (storm_mask storms) (sort_index (stripped <$> rows))
   else sort_index (stripped <$> rows))
  ≡ₚ kept has_storm (stripped <$> rows) storms.
Proof.
  unfold kept. destruct has_storm; by rewrite sort_by_id_perm.
Qed.

Lemma filtered_sorted (has_storm : bool) (storms : list string) (rows : list entry) :
  StronglySorted id_le
    (if has_storm then filter (storm_mask storms) (sort_index (stripped <$> rows))
     else sort_index (stripped <$> rows)).
Proof.
  destruct has_storm; [|apply sort_by_id_sorted].
  eapply sublist_sorted; [apply sublist_filter|apply sort_by_id_sorted].
Qed.

Lemma read_table_Some (has_storm has_datum : bool) (rows : list entry)
    (storms : list string) (res : list entry) :
  read_correspondence_table has_storm has_datum rows storms = Some res →
  NoDup (GageID <$> res)
  ∧ StronglySorted (λ a b, String.leb a b = true) (GageID <$> res)
  ∧ GageID <$> res ≡ₚ GageID <$> kept has_storm (stripped <$> rows) storms
  ∧ (has_storm = true → ∀ e, e ∈ res → storm_mask storms e)
  ∧ (has_datum = false → ∀ e, e ∈ res → Datum e = None).
Proof.
  unfold read_correspondence_table.
  pose proof (filtered_perm has_storm storms rows) as Hperm.
  pose proof (filtered_sorted has_storm storms rows) as Hsorted.
  set (c := if has_storm then _ else _) in *.
  destruct (bool_decide_reflect (NoDup (GageID <$> c))) as [Hnd|]; [|done].
  intros [= <-].
  assert (Hids : GageID <$> (if has_datum then c else without_datum <$> c)
                 = GageID <$> c).
  { destruct has_datum; [done|]. by rewrite <- list_fmap_compose. }
  rewrite Hids. split; [done|]. split; [|split; [|split]].
  - by apply (fmap_sorted id_le).
  - by rewrite Hperm.
  - intros -> e He.
    assert (Hc : ∀ e', e' ∈ c → storm_mask storms e').
    { intros e' He'. unfold c in He'. by apply list_elem_of_filter in He' as [? _]. }
    destruct has_datum; [by apply Hc|].
    apply list_elem_of_fmap in He as (e' & -> & He'). exact (Hc e' He').
  - intros -> e He. by apply list_elem_of_fmap in He as (e' & -> & _).
Qed.

Lemma read_table_None (has_storm has_datum : bool) (rows : list entry)
    (storms : list string) :
  read_correspondence_table has_storm has_datum rows storms = None
  ↔ ¬ NoDup (GageID <$> kept has_storm (stripped <$> rows) storms).
Proof.
  unfold read_correspondence_table.
  rewrite <- (filtered_perm has_storm storms rows).
  set (c := if has_storm then _ else _).
  by destruct (bool_decide_reflect (NoDup (GageID <$> c))).
Qed.

(** X19: [read_correspondence_table] raises exactly when two of the rows
    that pass the storm filter have the same stripped [GageID]; rows of
    other storms never count.  The table it returns lists the stations
    that pass the filter, each once, in increasing order of their
    identifiers, every row with a storm of the filter when the file has
    a storm column, and without datum when the file has no datum column. *)
Theorem correspondence_table_unique (has_storm has_datum : bool)
    (rows : list entry) (storms : list string) :
  (read_correspondence_table has_storm has_datum rows storms = None
   ↔ ¬ NoDup (GageID <$> kept has_storm (stripped <$> rows) storms))
  ∧ ∀ res, read_correspondence_table has_storm has_datum rows storms = Some res →
      NoDup (GageID <$> res)
      ∧ StronglySorted (λ a b, String.leb a b = true) (GageID <$> res)
      ∧ GageID <$> res ≡ₚ GageID <$> kept has_storm (stripped <$> rows) storms
      ∧ (has_storm = true → ∀ e, e ∈ res → storm_mask storms e)
      ∧ (has_datum = false → ∀ e, e ∈ res → Datum e = None).
Proof.
  split; [apply read_table_None|]. intros res. apply read_table_Some.
Qed.

(** X20: whatever storms are given on the command line, a row of the
    table whose storm is "Any" passes the filter: its station is in the
    table that is read, or the table is refused. *)
Theorem any_storm_is_read (has_datum : bool) (rows : list entry)
    (given : list string) (e : entry) (res : list entry) :
  e ∈ rows → Storm e = Some "Any"%string →
  read_correspondence_table true has_datum rows (storm_option given) = Some res →
  strip (GageID e) ∈ GageID <$> res.
Proof.
  intros He Hs Hread.
  apply read_table_Some in Hread as (_ & _ & Hperm & _). rewrite Hperm.
  apply (list_elem_of_fmap_2 GageID _ (stripped e)).
  unfold kept. apply list_elem_of_filter. split.
  - exists "Any"%string. split; [done|]. left.
  - by apply (list_elem_of_fmap_2 stripped).
Qed.

End Readers.

(** A table with the same gage under two storms. *)
Definition two_storms : list entry :=
  [ mkEntry "8720218" "8720218_any.csv" (Some "Any"%string) None;
    mkEntry "8720218" "8720218_ian.csv" (Some "Ian"%string) (Some "NAVD88"%string);
    mkEntry "8721604" "8721604.csv" (Some "Ian"%string) None ].

Lemma any_storm_is_read_witness :
  let e := mkEntry "8720218" "8720218_any.csv" (Some "Any"%string) None in
  (e ∈ two_storms ∧ Storm e = Some "Any"%string
   ∧ read_correspondence_table (λ s, s) true true two_storms (storm_option [])
     = Some [e])
  ∧ GageID e ∈ GageID <$> [e].
Proof.
  intros e.
  assert (H1 : e ∈ two_storms) by left.
  assert (H2 : Storm e = Some "Any"%string) by reflexivity.
  assert (H3 : read_correspondence_table (λ s, s) true true two_storms (storm_option [])
               = Some [e]) by (by vm_compute).
  split; [exact (conj H1 (conj H2 H3))|].
  exact (any_storm_is_read (λ s, s) true two_storms [] e [e] H1 H2 H3).
Defined.

End Inputs.
